(** * Rune calculator core: numeric parsing, formatting and rune processing

  A shallow embedding of [core/rune-core.ts], [lib/formatters.ts] and the
  values derived from the state in
  [features/rune-calculator/RuneCalculatorPanel.tsx].

  JavaScript numbers are IEEE 754 binary64 values: they are modelled by
  Rocq's primitive [float], whose operations are the processor's and are
  specified by [FloatAxioms] against [SpecFloat].  Strings are modelled by
  [string] restricted to the ASCII range (case mapping and white space are
  the ASCII ones).  A plain object used as a map is modelled by the map of
  its own properties, and indexing it also sees the members it inherits
  from [Object.prototype]; a call that throws returns [TypeError].  The
  runtime functions the code calls ([parseFloat],
  [Number.prototype.toString], [Number.prototype.toPrecision],
  [Math.floor], [%], [Array.prototype.sort], ...) are modelled after
  ECMA-262. *)

From Stdlib Require Import ZArith Floats List Bool Lia Ascii String.
From Stdlib Require Import Sorted Permutation.
From stdpp Require Import gmap strings list.

Set Warnings "-inexact-float".

Local Open Scope Z_scope.

(** ** JavaScript numbers *)

Abbreviation number := float.

Module JSNumber.

Definition isNaN (x : number) : bool := is_nan x.

(** [isFinite]: neither NaN nor an infinity. *)
Definition isFinite (x : number) : bool := is_finite x.

(** The relational operators on numbers; every comparison with NaN is
    [false]. *)
Definition lt (a b : number) : bool := (a <? b)%float.
Definition le (a b : number) : bool := (a <=? b)%float.
Definition gt (a b : number) : bool := (b <? a)%float.
Definition ge (a b : number) : bool := (b <=? a)%float.

(** [a === b] on numbers. *)
Definition strict_eq (a b : number) : bool := (a =? b)%float.

(** The number nearest to an integer (round to nearest, ties to even). *)
Definition of_Z (z : Z) : number :=
  SF2Prim (binary_normalize prec emax z 0 false).

(** [Math.floor]. *)
Definition Math_floor (x : number) : number :=
  match Prim2SF x with
  | S754_finite s m e =>
      if 0 <=? e then x
      else
        of_Z (cond_Zopp s (Zpos m) / 2 ^ (- e))
  | _ => x
  end.

Definition Math_abs (x : number) : number := abs x.

(** [n % d] (Number::remainder): the exact remainder of the truncating
    division, with the sign of the dividend. *)
Definition remainder (n d : number) : number :=
  match Prim2SF n, Prim2SF d with
  | S754_nan, _ | _, S754_nan => nan
  | S754_infinity _, _ => nan
  | _, S754_zero _ => nan
  | _, S754_infinity _ => n
  | S754_zero _, _ => n
  | S754_finite sn mn en, S754_finite _ md ed =>
      let e := Z.min en ed in
      let N := Zpos mn * 2 ^ (en - e) in
      let D := Zpos md * 2 ^ (ed - e) in
      SF2Prim (binary_normalize prec emax (cond_Zopp sn (N mod D)) e sn)
  end.

(** The number nearest to [N / D], for [0 <= N] and [0 < D]: the quotient
    is computed with at least 65 bits and a sticky bit, then rounded. *)
Definition round_ratio (N D : Z) : number :=
  if N =? 0 then PrimFloat.zero
  else
    let k := Z.max 0 (Z.log2 D + 66 - Z.log2 N) in
    let (q, r) := Z.div_eucl (N * 2 ^ k) D in
    SF2Prim (binary_normalize prec emax
               (2 * q + (if r =? 0 then 0 else 1)) (- k - 1) false).

(** Number of decimal digits of a positive integer ([0] for [0]). *)
Fixpoint digits10_fuel (fuel : nat) (n : Z) : Z :=
  match fuel with
  | O => 0
  | S fuel' => if n <=? 0 then 0 else 1 + digits10_fuel fuel' (n / 10)
  end.

Definition digits10 (n : Z) : Z :=
  digits10_fuel (S (Z.to_nat (Z.log2 n))) n.

(** The number nearest to [m * 10 ^ e10], for [0 <= m].  Values beyond
    the range of the format are settled without computing the power. *)
Definition of_decimal (m e10 : Z) : number :=
  if m <=? 0 then PrimFloat.zero
  else
    let nd := digits10 m in
    if 310 <? nd + e10 then infinity
    else if nd + e10 <? -330 then PrimFloat.zero
    else if 0 <=? e10 then of_Z (m * 10 ^ e10)
    else round_ratio m (10 ^ (- e10)).

(** A positive finite number as an exact fraction [(N, D)], [x = N / D]. *)
Definition to_ratio (x : number) : Z * Z :=
  match Prim2SF x with
  | S754_finite _ m e =>
      if 0 <=? e then (Zpos m * 2 ^ e, 1) else (Zpos m, 2 ^ (- e))
  | _ => (0, 1)
  end.

End JSNumber.

(** ** JavaScript strings (ASCII range) *)

Module JSString.

Definition chars (s : string) : list ascii := list_ascii_of_string s.
Definition str (l : list ascii) : string := string_of_list_ascii l.

Definition code (c : ascii) : Z := Z.of_N (N_of_ascii c).

(** White space and line terminators: TAB, LF, VT, FF, CR, SP. *)
Definition is_white (c : ascii) : bool :=
  ((9 <=? code c) && (code c <=? 13)) || (code c =? 32).

Definition is_digit (c : ascii) : bool :=
  (48 <=? code c) && (code c <=? 57).

Definition is_upper (c : ascii) : bool :=
  (65 <=? code c) && (code c <=? 90).

Definition lower (c : ascii) : ascii :=
  if is_upper c then ascii_of_N (Z.to_N (code c + 32)) else c.

Definition toLowerCase (s : string) : string := str (map lower (chars s)).

Fixpoint drop_white (l : list ascii) : list ascii :=
  match l with
  | c :: r => if is_white c then drop_white r else l
  | [] => []
  end.

Definition trim (s : string) : string :=
  str (rev (drop_white (rev (drop_white (chars s))))).

Fixpoint is_prefix (p l : list ascii) : bool :=
  match p, l with
  | [], _ => true
  | a :: p', b :: l' => Ascii.eqb a b && is_prefix p' l'
  | _ :: _, [] => false
  end.

Fixpoint includes_chars (l sub : list ascii) : bool :=
  is_prefix sub l ||
  match l with
  | [] => false
  | _ :: r => includes_chars r sub
  end.

(** [s.includes(sub)] *)
Definition includes (s sub : string) : bool :=
  includes_chars (chars s) (chars sub).

(** [s.endsWith(suf)] *)
Definition endsWith (s suf : string) : bool :=
  is_prefix (rev (chars suf)) (rev (chars s)).

(** [s.slice(0, e)]: a negative [e] counts from the end of the string. *)
Definition slice0 (s : string) (e : Z) : string :=
  let len := Z.of_nat (String.length s) in
  let stop := if e <? 0 then Z.max (len + e) 0 else Z.min e len in
  str (take (Z.to_nat stop) (chars s)).

(** [l.join(sep)] *)
Fixpoint join (sep : string) (l : list string) : string :=
  match l with
  | [] => ""
  | [x] => x
  | x :: r => x ++ sep ++ join sep r
  end.

(** A string is truthy when it is not empty. *)
Definition truthy (s : string) : bool :=
  match s with EmptyString => false | _ => true end.

End JSString.

(** ** Conversions between numbers and strings *)

Module JSConv.
Import JSNumber JSString.

Definition digit_val (c : ascii) : Z := code c - 48.
Definition digit_char (d : Z) : ascii := ascii_of_N (Z.to_N (48 + d)).

Fixpoint span_digits (l : list ascii) : list ascii * list ascii :=
  match l with
  | c :: r =>
      if is_digit c then let (d, t) := span_digits r in (c :: d, t)
      else ([], l)
  | [] => ([], [])
  end.

Definition digits_value (ds : list ascii) : Z :=
  fold_left (fun acc c => 10 * acc + digit_val c) ds 0.

(** The value of an optional ExponentPart at the head of [l]; an [e] that
    no digit follows is not part of the literal. *)
Definition parse_exponent (l : list ascii) : Z :=
  match l with
  | c :: r =>
      if Ascii.eqb c "e" || Ascii.eqb c "E" then
        let '(neg, r1) :=
          match r with
          | "+"%char :: t => (false, t)
          | "-"%char :: t => (true, t)
          | _ => (false, r)
          end in
        match fst (span_digits r1) with
        | [] => 0
        | ds => cond_Zopp neg (digits_value ds)
        end
      else 0
  | [] => 0
  end.

(** The longest prefix of [l] that is a StrUnsignedDecimalLiteral, as a
    number; NaN when there is none. *)
Definition parse_unsigned (l : list ascii) : number :=
  if is_prefix (chars "Infinity") l then infinity
  else
    let (ip, r1) := span_digits l in
    let '(fp, r2) :=
      match r1 with
      | "."%char :: t => span_digits t
      | _ => ([], r1)
      end in
    match ip, fp with
    | [], [] => nan
    | _, _ =>
        of_decimal (digits_value (ip ++ fp))
                   (parse_exponent r2 - Z.of_nat (length fp))
    end.

(** [parseFloat(s)] *)
Definition parseFloat (s : string) : number :=
  match drop_white (chars s) with
  | "+"%char :: r => parse_unsigned r
  | "-"%char :: r => (- parse_unsigned r)%float
  | l => parse_unsigned l
  end.

(** The [k] lowest decimal digits of [n], most significant first. *)
Fixpoint digits_fixed (k : nat) (n : Z) : list ascii :=
  match k with
  | O => []
  | S k' => digits_fixed k' (n / 10) ++ [digit_char (n mod 10)]
  end.

(** The decimal representation of a non-negative integer. *)
Definition decimal (n : Z) : list ascii :=
  if n <=? 0 then ["0"%char] else digits_fixed (Z.to_nat (digits10 n)) n.

(** [10 ^ e <= N / D] *)
Definition pow10_le (e N D : Z) : bool :=
  if 0 <=? e then 10 ^ e * D <=? N else D <=? N * 10 ^ (- e).

(** The integer [e] with [10 ^ e <= N / D < 10 ^ (e + 1)], for a positive
    fraction. *)
Definition floor_log10 (N D : Z) : Z :=
  let de := digits10 N - digits10 D in
  if pow10_le de N D then de else de - 1.

(** [N / D] in units of [10 ^ t], as a fraction. *)
Definition scale10 (N D t : Z) : Z * Z :=
  if 0 <=? t then (N, D * 10 ^ t) else (N * 10 ^ (- t), D).

Definition zeros (k : nat) : list ascii := repeat "0"%char k.

(** The exponent suffix of exponential notation: [e+21], [e-7]. *)
Definition exponent_chars (e : Z) : list ascii :=
  "e"%char :: (if 0 <=? e then "+"%char else "-"%char) :: decimal (Z.abs e).

(** *** Number::toString

    The shortest decimal [s * 10 ^ (n - k)], with [k] digits, that reads
    back as [x]; among several of one length the closest to [x], the even
    one on a tie.  [lo] and [lo + 1] are the two [k]-digit decimals
    around [x]. *)
Definition pick_digits (x : number) (N D n0 k : Z) : option Z :=
  let t := n0 - k in
  let (a, b) := scale10 N D t in
  let lo := a / b in
  let hi := lo + 1 in
  let ok_lo := PrimFloat.Leibniz.eqb (of_decimal lo t) x in
  let ok_hi := PrimFloat.Leibniz.eqb (of_decimal hi t) x in
  let lo_closer :=
    match 2 * a ?= (lo + hi) * b with
    | Lt => true
    | Eq => Z.even lo
    | Gt => false
    end in
  match ok_lo, ok_hi with
  | true, true => Some (if lo_closer then lo else hi)
  | true, false => Some lo
  | false, true => Some hi
  | false, false => None
  end.

Fixpoint shortest_fuel (fuel : nat) (x : number) (N D n0 k : Z) : Z * Z :=
  match fuel with
  | O =>
      let (a, b) := scale10 N D (n0 - k) in
      ((2 * a + b) / (2 * b), k)
  | S fuel' =>
      match pick_digits x N D n0 k with
      | Some s => (s, k)
      | None => shortest_fuel fuel' x N D n0 (k + 1)
      end
  end.

(** [(s, k, n)] of Number::toString for a positive finite [x]; seventeen
    digits always identify a binary64 value. *)
Definition shortest (x : number) : Z * Z * Z :=
  let (N, D) := to_ratio x in
  let n0 := floor_log10 N D + 1 in
  let (s, k) := shortest_fuel 16 x N D n0 1 in
  if s =? 10 ^ k then (10 ^ (k - 1), k, n0 + 1) else (s, k, n0).

Definition toString_pos (x : number) : list ascii :=
  let '(s, k, n) := shortest x in
  let ds := digits_fixed (Z.to_nat k) s in
  if (k <=? n) && (n <=? 21) then ds ++ zeros (Z.to_nat (n - k))
  else if (0 <? n) && (n <=? 21) then
    take (Z.to_nat n) ds ++ "."%char :: drop (Z.to_nat n) ds
  else if (-6 <? n) && (n <=? 0) then
    "0"%char :: "."%char :: zeros (Z.to_nat (- n)) ++ ds
  else if k =? 1 then ds ++ exponent_chars (n - 1)
  else take 1 ds ++ "."%char :: drop 1 ds ++ exponent_chars (n - 1).

(** [x.toString()] *)
Definition toString (x : number) : string :=
  match Prim2SF x with
  | S754_nan => "NaN"
  | S754_zero _ => "0"
  | S754_infinity s => if s then "-Infinity" else "Infinity"
  | S754_finite s _ _ =>
      str ((if s then ["-"%char] else []) ++ toString_pos (abs x))
  end.

(** *** Number.prototype.toPrecision

    [(n, e)] with [10 ^ (p - 1) <= n < 10 ^ p] and [n * 10 ^ (e - p + 1)]
    closest to the positive fraction [N / D], the larger on a tie. *)
Definition precision_digits (p N D : Z) : Z * Z :=
  let e := floor_log10 N D in
  let (a, b) := scale10 N D (e - p + 1) in
  let n := (2 * a + b) / (2 * b) in
  if n =? 10 ^ p then (10 ^ (p - 1), e + 1) else (n, e).

Definition toPrecision_digits (p n e : Z) : list ascii :=
  let m := digits_fixed (Z.to_nat p) n in
  if (e <? -6) || (p <=? e) then
    (if p =? 1 then m else take 1 m ++ "."%char :: drop 1 m)
      ++ exponent_chars e
  else if e =? p - 1 then m
  else if 0 <=? e then
    take (Z.to_nat (e + 1)) m ++ "."%char :: drop (Z.to_nat (e + 1)) m
  else "0"%char :: "."%char :: zeros (Z.to_nat (- (e + 1))) ++ m.

(** [x.toPrecision(p)], for [1 <= p <= 100]. *)
Definition toPrecision (x : number) (p : Z) : string :=
  match Prim2SF x with
  | S754_nan | S754_infinity _ => toString x
  | S754_zero _ => str (toPrecision_digits p 0 0)
  | S754_finite s _ _ =>
      let (N, D) := to_ratio x in
      let (n, e) := precision_digits p N D in
      str ((if s then ["-"%char] else []) ++ toPrecision_digits p n e)
  end.

End JSConv.

(** ** Arrays *)

Module JSArray.

Section Sort.
Context {A : Type}.
Variable comparefn : A -> A -> number.

(** SortCompare: [x] goes after [y] when [comparefn x y] is positive; a NaN
    result counts as [+0]. *)
Definition sorts_after (x y : A) : bool := JSNumber.gt (comparefn x y) 0.

Fixpoint insert (x : A) (l : list A) : list A :=
  match l with
  | [] => [x]
  | y :: r => if sorts_after x y then y :: insert x r else x :: y :: r
  end.

(** [l.sort(comparefn)].  ECMA-262 fixes the result for a consistent
    comparison function: the stable sorted arrangement, which is what this
    insertion sort computes; for an inconsistent one the order is left to
    the implementation. *)
Fixpoint sort (l : list A) : list A :=
  match l with
  | [] => []
  | x :: r => insert x (sort r)
  end.

End Sort.

(** [l.find(p)] *)
Definition find {A : Type} (p : A -> bool) (l : list A) : option A :=
  List.find p l.

End JSArray.

(** ** Plain objects used as maps *)

Module JSObject.

(** The property names an object created by [{}] inherits from
    [Object.prototype]: the members ECMA-262 gives it, accessors
    included. *)
Definition prototypeNames : list string :=
  [ "constructor"; "__defineGetter__"; "__defineSetter__"; "hasOwnProperty";
    "__lookupGetter__"; "__lookupSetter__"; "isPrototypeOf";
    "propertyIsEnumerable"; "toString"; "valueOf"; "__proto__";
    "toLocaleString" ].

Definition inherited (k : string) : bool :=
  existsb (String.eqb k) prototypeNames.

(** What [o[k]] gives for an object [o] created by [{}] whose own
    properties are the entries of the map: the own property, else the
    member inherited under that name (a function, or the prototype itself
    for [__proto__]; never an array), else [undefined]. *)
Inductive property (A : Type) :=
| Own (a : A)
| Inherited
| Undefined.
Arguments Own {A} a.
Arguments Inherited {A}.
Arguments Undefined {A}.

Definition get {A : Type} (o : gmap string A) (k : string) : property A :=
  match o !! k with
  | Some a => Own a
  | None => if inherited k then Inherited else Undefined
  end.

End JSObject.

(** ** types.ts *)

Inductive ChanceType := oneInN.

Module RuneChance.
Record t := mk { type : ChanceType; n : number; display : string }.
End RuneChance.

(** [mode: 'multiplier'] *)
Inductive BoostMode := multiplierMode.
Inductive CapStatus := notCapped | capped | notMaxedYet | unknown.

Module RuneBoost.
Record t := mk {
  type : string;
  mode : BoostMode;
  cap : option number;
  capStatus : CapStatus;
  notes : option (list string)
}.
End RuneBoost.

Inductive Category := Starter | Magical | Space.

Module RuneRecord.
Record t := mk {
  id : string;
  name : string;
  category : Category;
  rarity : option string;
  hidden : bool;
  sourceNote : string;
  chance : RuneChance.t;
  boosts : list RuneBoost.t
}.
End RuneRecord.

(** [Scales = Record<string, number>]: the own properties of the object in
    the order [Object.entries] lists them; the keys of an object are
    pairwise distinct. *)
Definition Scales := list (string * number).

(** ** core/rune-core.ts *)

Import JSNumber JSString JSConv.

Record ParseResult := { value : number; warning : option string }.

(** The outcome of a call: a value, or a thrown [TypeError]. *)
Inductive completion (A : Type) :=
| Return (a : A)
| TypeError.
Arguments Return {A} a.
Arguments TypeError {A}.

Definition bind {A B : Type} (c : completion A) (f : A -> completion B)
  : completion B :=
  match c with
  | Return a => f a
  | TypeError => TypeError
  end.

(** A [for ... of] loop over [l] whose body may throw. *)
Fixpoint forOf {A S : Type} (body : S -> A -> completion S) (l : list A)
    (s : S) : completion S :=
  match l with
  | [] => Return s
  | a :: r => bind (body s a) (forOf body r)
  end.

(** [lowerCaseScaleMap] is a plain object used as a map from the lowercased
    suffix to the suffixes of that spelling: the field holds its own
    properties, and [JSObject.get] is the indexing [lowerCaseScaleMap[k]],
    which also sees the members inherited from [Object.prototype]. *)
Record ScaleUtils := {
  scaleEntries : list (string * number);
  lowerCaseScaleMap : gmap string (list string);
  conflictingLowerCaseSuffixes : gset string
}.

(** One turn of the loop that builds the lowercase mapping and detects
    conflicts.  An inherited member is truthy, so no array is stored for
    its name, and it has no [push]: the call throws. *)
Definition addSuffix (acc : gmap string (list string) * gset string)
    (entry : string * number)
  : completion (gmap string (list string) * gset string) :=
  let '(lowerCaseScaleMap, conflicting) := acc in
  let suffix := fst entry in
  let lower := toLowerCase suffix in
  match JSObject.get lowerCaseScaleMap lower with
  | JSObject.Inherited => TypeError
  | JSObject.Undefined =>
      let group := [suffix] in
      Return (<[lower := group]> lowerCaseScaleMap,
              if (1 <? length group)%nat then {[lower]} ∪ conflicting
              else conflicting)
  | JSObject.Own spellings =>
      let group := spellings ++ [suffix] in
      Return (<[lower := group]> lowerCaseScaleMap,
              if (1 <? length group)%nat then {[lower]} ∪ conflicting
              else conflicting)
  end.

Definition buildScaleUtils (scales : Scales) : completion ScaleUtils :=
  let scaleEntries :=
    JSArray.sort (fun a b => (snd b - snd a)%float)
      (List.filter (fun e => negb (String.eqb (fst e) "")) scales) in
  bind (forOf addSuffix scaleEntries (∅, ∅))
    (fun '(lowerCaseScaleMap, conflictingLowerCaseSuffixes) =>
       Return {| scaleEntries := ("", 1%float) :: scaleEntries;
                 lowerCaseScaleMap := lowerCaseScaleMap;
                 conflictingLowerCaseSuffixes :=
                   conflictingLowerCaseSuffixes |}).

(** The suffix-matching loop of [parseScaled]: the state
    [(numPart, suffix, multiplier)] after the loop. *)
Fixpoint matchSuffix (trimmed : string) (entries : list (string * number))
  : string * string * number :=
  match entries with
  | [] => (trimmed, "", 1%float)
  | (scaleSuffix, scaleMultiplier) :: rest =>
      if truthy scaleSuffix
         && endsWith (toLowerCase trimmed) (toLowerCase scaleSuffix)
      then
        let potentialNumPart :=
          slice0 trimmed (- Z.of_nat (String.length scaleSuffix)) in
        let num := parseFloat potentialNumPart in
        if negb (isNaN num) && isFinite num
        then (potentialNumPart, scaleSuffix, scaleMultiplier)
        else matchSuffix trimmed rest
      else matchSuffix trimmed rest
  end.

Definition quote : string := String (ascii_of_nat 34) EmptyString.

(** The text of the ambiguity warning. *)
Definition ambiguityWarning (suffix : string) (alternatives : list string)
  : string :=
  ("Ambiguous suffix " ++ quote ++ suffix ++ quote ++ " - could also mean: "
     ++ join ", " alternatives)%string.

Definition parseScaled (input : string) (su : ScaleUtils)
  : completion ParseResult :=
  let trimmed := trim input in
  if negb (truthy trimmed) then
    Return {| value := 0; warning := Some "Empty input" |}
  else if includes trimmed "e" || includes trimmed "E" then
    (* Try scientific notation first *)
    let num := parseFloat trimmed in
    if isNaN num || negb (isFinite num) then
      Return {| value := 0; warning := Some "Invalid scientific notation" |}
    else Return {| value := num; warning := None |}
  else
    (* Check for suffix notation *)
    let '(numPart, suffix, multiplier) :=
      matchSuffix trimmed (scaleEntries su) in
    if String.eqb suffix "" then
      (* If no suffix found, try parsing as raw number *)
      let num := parseFloat trimmed in
      if isNaN num || negb (isFinite num) then
        Return {| value := 0; warning := Some "Invalid number format" |}
      else Return {| value := num; warning := None |}
    else
      let baseNum := parseFloat numPart in
      if isNaN baseNum || negb (isFinite baseNum) then
        Return {| value := 0;
                  warning := Some "Invalid number part before suffix" |}
      else
        let result := (baseNum * multiplier)%float in
        if negb (isFinite result) then
          Return {| value := 0; warning := Some "Result too large" |}
        else
          (* Check for ambiguous suffix warning *)
          let lowerSuffix := toLowerCase suffix in
          if bool_decide (lowerSuffix ∈ conflictingLowerCaseSuffixes su) then
            match JSObject.get (lowerCaseScaleMap su) lowerSuffix with
            | JSObject.Own group =>
                let alternatives :=
                  List.filter (fun s => negb (String.eqb s suffix)) group in
                if (0 <? length alternatives)%nat then
                  Return {| value := result;
                            warning :=
                              Some (ambiguityWarning suffix alternatives) |}
                else Return {| value := result; warning := None |}
            | JSObject.Inherited | JSObject.Undefined =>
                (* no [filter] on an inherited member or on undefined *)
                TypeError
            end
          else Return {| value := result; warning := None |}.

(** The scan of [formatScaled] for the first suffix the absolute value
    reaches. *)
Fixpoint formatWith (num absNum : number) (sign : string)
    (entries : list (string * number)) : string :=
  match entries with
  | [] => toString num
  | (suffix, multiplier) :: rest =>
      if truthy suffix && ge absNum multiplier then
        let scaled := (absNum / multiplier)%float in
        let formatted := toPrecision scaled 3 in
        (sign ++ formatted ++ " " ++ suffix)%string
      else formatWith num absNum sign rest
  end.

Definition formatScaled (num : number) (su : ScaleUtils) : string :=
  if negb (isFinite num) || strict_eq num 0 then toString num
  else
    let absNum := Math_abs num in
    let sign := if lt num 0 then "-" else "" in
    (* For small numbers, don't use suffix *)
    if lt absNum 1000 then toString num
    else formatWith num absNum sign (scaleEntries su).

Definition timeSeconds (rps luck chanceN : number) : number :=
  if le rps 0 || le luck 0 || le chanceN 0 then infinity
  else (chanceN / (rps * luck))%float.

Inductive SortOrder := asc | desc.

Module ProcessOptions.
Record t := mk {
  text : option string;
  hideInstant : option bool;
  sort : option SortOrder
}.
(** The default value of the parameter: [{}]. *)
Definition empty : t := mk None None None.
End ProcessOptions.

(** [ProcessedRune extends RuneRecord]: the fields of the rune, an optional
    [time] and [isSpecial]. *)
Module ProcessedRune.
Record t := mk {
  rune : RuneRecord.t;
  time : option number;
  isSpecial : bool
}.
End ProcessedRune.

(** [a.time ?? Infinity] *)
Definition timeOrInfinity (r : ProcessedRune.t) : number :=
  default infinity (ProcessedRune.time r).

(** The comparison function [processRunes] sorts with. *)
Definition compareTime (order : SortOrder) (a b : ProcessedRune.t) : number :=
  let timeA := timeOrInfinity a in
  let timeB := timeOrInfinity b in
  match order with
  | asc => (timeA - timeB)%float
  | desc => (timeB - timeA)%float
  end.

Definition processRune (rps luck : number) (rune : RuneRecord.t)
  : ProcessedRune.t :=
  let time := timeSeconds rps luck (RuneChance.n (RuneRecord.chance rune)) in
  ProcessedRune.mk rune (Some time) false.

Definition matchesText (searchText : string) (r : ProcessedRune.t) : bool :=
  includes (toLowerCase (RuneRecord.name (ProcessedRune.rune r))) searchText
  || includes (toLowerCase (RuneRecord.sourceNote (ProcessedRune.rune r)))
       searchText.

Definition notInstant (r : ProcessedRune.t) : bool :=
  match ProcessedRune.time r with
  | None => true
  | Some t => ge t 1
  end.

(** The list [processRunes] has built when it reaches the sort. *)
Definition filterRunes (runes : list RuneRecord.t) (rps luck : number)
    (opts : ProcessOptions.t) : list ProcessedRune.t :=
  let processed := map (processRune rps luck) runes in
  (* Apply text filter *)
  let processed :=
    match ProcessOptions.text opts with
    | Some text =>
        if truthy text
        then List.filter (matchesText (toLowerCase text)) processed
        else processed
    | None => processed
    end in
  (* Apply hide instant filter *)
  match ProcessOptions.hideInstant opts with
  | Some true => List.filter notInstant processed
  | _ => processed
  end.

Definition processRunes (runes : list RuneRecord.t) (rps luck : number)
    (opts : ProcessOptions.t) : list ProcessedRune.t :=
  let processed := filterRunes runes rps luck opts in
  (* Apply sorting *)
  match ProcessOptions.sort opts with
  | Some order => JSArray.sort (compareTime order) processed
  | None => processed
  end.

Definition findNextUnderHour (processed : list ProcessedRune.t)
  : option string :=
  let candidate :=
    JSArray.find
      (fun r =>
         match ProcessedRune.time r with
         | Some t => ge t 1 && lt t 3600
         | None => false
         end) processed in
  option_map (fun r => RuneRecord.id (ProcessedRune.rune r)) candidate.

(** ** lib/formatters.ts *)

Module TimeUnit.
Record t := mk { name : string; seconds : number }.
End TimeUnit.

Definition TIME_UNITS : list TimeUnit.t :=
  [ TimeUnit.mk "year" (365.25 * 24 * 60 * 60)%float;
    TimeUnit.mk "day" (24 * 60 * 60)%float;
    TimeUnit.mk "hour" (60 * 60)%float;
    TimeUnit.mk "minute" 60%float;
    TimeUnit.mk "second" 1%float ].

(** The placeholder returned for absurdly large values, as the source file
    spells it. *)
Definition PLACEHOLDER : string := "â€¦".

(** The text of one part: the count and the unit, plural unless the count
    is one. *)
Definition partText (count : number) (unit : TimeUnit.t) : string :=
  let unitName :=
    if strict_eq count 1 then TimeUnit.name unit
    else (TimeUnit.name unit ++ "s")%string in
  (toString count ++ " " ++ unitName)%string.

(** The loop of [formatTimeHuman] over the units, with its [break]. *)
Fixpoint decompose (units : list TimeUnit.t) (remaining : number)
    (parts : list string) : list string :=
  match units with
  | [] => parts
  | unit :: rest =>
      if ge remaining (TimeUnit.seconds unit) then
        let count := Math_floor (remaining / TimeUnit.seconds unit)%float in
        let remaining' := remainder remaining (TimeUnit.seconds unit) in
        let parts' := parts ++ [partText count unit] in
        (* Limit to 3 units maximum *)
        if (3 <=? length parts')%nat then parts'
        else decompose rest remaining' parts'
      else decompose rest remaining parts
  end.

Definition formatTimeHuman (seconds : number) : string :=
  if negb (isFinite seconds) then "Never"
  else if lt seconds 1 then "Instant"
  else if gt seconds (1e15 * 365.25 * 24 * 60 * 60)%float then PLACEHOLDER
  else
    let parts := decompose TIME_UNITS (Math_floor seconds) [] in
    if (length parts =? 0)%nat then "Instant" else join ", " parts.

(** ** features/rune-calculator/RuneCalculatorPanel.tsx

    The values the panel derives from its state: each definition is the body
    of the corresponding [useMemo] or state updater, as a function of what
    it reads. *)

Module Panel.

(** [customTime]: [null] is [None]. *)
Definition customTime (customChanceInput : string) (scaleUtils : ScaleUtils)
    (rpsResult luckResult : ParseResult) : completion (option number) :=
  match parseScaled customChanceInput scaleUtils with
  | Return customResult =>
      if gt (value customResult) 0 then
        Return (Some (timeSeconds (value rpsResult) (value luckResult)
                        (value customResult)))
      else Return None
  | TypeError => TypeError
  end.

Definition hasValidInputs (rpsResult luckResult : ParseResult) : bool :=
  gt (value rpsResult) 0 && gt (value luckResult) 0.

(** The updater of [toggleObtainedRune]. *)
Definition toggleObtainedRune (prev : gset string) (runeId : string)
  : gset string :=
  let newSet := prev in
  if bool_decide (runeId ∈ newSet) then newSet ∖ {[runeId]}
  else {[runeId]} ∪ newSet.

Definition runeId (r : ProcessedRune.t) : string :=
  RuneRecord.id (ProcessedRune.rune r).

(** The three filters of [stats]. *)
Definition isObtained (obtainedRunes : gset string) (r : ProcessedRune.t)
  : bool :=
  bool_decide (runeId r ∈ obtainedRunes).

Definition isInstant (r : ProcessedRune.t) : bool :=
  match ProcessedRune.time r with
  | Some t => lt t 1
  | None => false
  end.

Definition isUnderHour (r : ProcessedRune.t) : bool :=
  match ProcessedRune.time r with
  | Some t => ge t 1 && lt t 3600
  | None => false
  end.

Record Stats := {
  obtained : nat;
  instant : nat;
  underHour : nat;
  total : nat
}.

Definition stats (processedRunes : list ProcessedRune.t)
    (obtainedRunes : gset string) : Stats :=
  {| obtained := length (List.filter (isObtained obtainedRunes) processedRunes);
     instant := length (List.filter isInstant processedRunes);
     underHour := length (List.filter isUnderHour processedRunes);
     total := length processedRunes |}.

(** The filter of the rune list: with [showOnlyTargets], a rune whose time
    is below one second or at least an hour is left out. *)
Definition isShown (showOnlyTargets : bool) (rune : ProcessedRune.t) : bool :=
  if showOnlyTargets
     && match ProcessedRune.time rune with
        | Some t => lt t 1 || ge t 3600
        | None => false
        end
  then false
  else true.

Definition shownRunes (showOnlyTargets : bool)
    (processedRunes : list ProcessedRune.t) : list ProcessedRune.t :=
  List.filter (isShown showOnlyTargets) processedRunes.

(** The dash a card shows for a missing time, as the source file spells
    it. *)
Definition DASH : string := "‚Äî".

(** The time a card shows. *)
Definition timeText (time : option number) : string :=
  match time with
  | Some t => formatTimeHuman t
  | None => DASH
  end.

End Panel.

(** ** Auxiliary notions of the proofs *)

(** A rounded value that is not zero: finite or infinite, of sign [s]. *)
Definition positive_result (s : bool) (x : spec_float) : Prop :=
  match x with
  | S754_finite s' _ _ | S754_infinity s' => s' = s
  | _ => False
  end.

(** ** Data of the repository's tests *)

(** [testScales] of the core's tests. *)
Definition testScales : Scales :=
  [ ("", 1%float); ("k", 1000%float); ("K", 1000%float);
    ("M", 1000000%float); ("B", 1000000000%float);
    ("T", 1000000000000%float) ].

(** [testRunes] of the core's tests. *)
Definition fastRune : RuneRecord.t :=
  RuneRecord.mk "fast" "Fast Rune" Starter None false "Quick to get"
    (RuneChance.mk oneInN 10%float "1/10") [].

Definition slowRune : RuneRecord.t :=
  RuneRecord.mk "slow" "Slow Rune" Magical None false "Takes a while"
    (RuneChance.mk oneInN 1000000%float "1/1M") [].

Definition testRunes : list RuneRecord.t := [fastRune; slowRune].

(** The loop of [buildScaleUtils] when no turn throws: one turn, and the
    utilities the whole loop leaves. *)
Definition addEntry (acc : gmap string (list string) * gset string)
    (entry : string * number) : gmap string (list string) * gset string :=
  let '(lowerCaseScaleMap, conflicting) := acc in
  let suffix := fst entry in
  let lower := toLowerCase suffix in
  let group := default [] (lowerCaseScaleMap !! lower) ++ [suffix] in
  (<[lower := group]> lowerCaseScaleMap,
   if (1 <? length group)%nat then {[lower]} ∪ conflicting else conflicting).

Definition builtUtils (scales : Scales) : ScaleUtils :=
  let scaleEntries :=
    JSArray.sort (fun a b => (snd b - snd a)%float)
      (List.filter (fun e => negb (String.eqb (fst e) "")) scales) in
  let '(lowerCaseScaleMap, conflictingLowerCaseSuffixes) :=
    fold_left addEntry scaleEntries (∅, ∅) in
  {| scaleEntries := ("", 1%float) :: scaleEntries;
     lowerCaseScaleMap := lowerCaseScaleMap;
     conflictingLowerCaseSuffixes := conflictingLowerCaseSuffixes |}.

(** Some suffix of the table lowercases to a name every plain object
    inherits. *)
Definition meetsInherited (scales : Scales) : bool :=
  existsb (fun e => JSObject.inherited (toLowerCase (fst e))) scales.

Module TestData.

Definition su : ScaleUtils := builtUtils testScales.

(** The ids of a processed list. *)
Definition ids (l : list ProcessedRune.t) : list string :=
  map (fun r => RuneRecord.id (ProcessedRune.rune r)) l.

(** A processed rune of the tests of [findNextUnderHour]. *)
Definition processed (id : string) (time : number) : ProcessedRune.t :=
  ProcessedRune.mk
    (RuneRecord.mk id "" Starter None false ""
       (RuneChance.mk oneInN 1%float "") [])
    (Some time) false.

End TestData.

(** ** Notions the properties are stated with *)

(** An integer that orders the numbers as they compare: the value in units
    of the smallest subnormal, and a bound beyond every finite value for
    the infinities. *)
Definition SFkey (x : spec_float) : Z :=
  match x with
  | S754_zero _ | S754_nan => 0
  | S754_infinity s => cond_Zopp s (2 ^ 2200)
  | S754_finite s m e => cond_Zopp s (Zpos m * 2 ^ (e - emin))
  end.

Definition groupOf (k : string) (L : list string) : list string :=
  List.filter (fun s => String.eqb (toLowerCase s) k) L.

Definition sortedEntries (scales : Scales) : list (string * number) :=
  JSArray.sort (fun a b => (snd b - snd a)%float)
    (List.filter (fun e => negb (String.eqb (fst e) "")) scales).

Inductive Failure :=
| EmptyInput | InvalidScientific | InvalidNumber | InvalidPrefix | TooLarge.

Definition failureMessage (f : Failure) : string :=
  match f with
  | EmptyInput => "Empty input"
  | InvalidScientific => "Invalid scientific notation"
  | InvalidNumber => "Invalid number format"
  | InvalidPrefix => "Invalid number part before suffix"
  | TooLarge => "Result too large"
  end.

(** The ways an input cannot be interpreted; [None] when it can. *)
Definition failure (input : string) (su : ScaleUtils) : option Failure :=
  let trimmed := trim input in
  if String.eqb trimmed "" then Some EmptyInput
  else if includes trimmed "e" || includes trimmed "E" then
    if isFinite (parseFloat trimmed) then None else Some InvalidScientific
  else
    let '(numPart, suffix, multiplier) :=
      matchSuffix trimmed (scaleEntries su) in
    if String.eqb suffix "" then
      if isFinite (parseFloat trimmed) then None else Some InvalidNumber
    else if isFinite (parseFloat numPart) then
      if isFinite (parseFloat numPart * multiplier)%float then None
      else Some TooLarge
    else Some InvalidPrefix.

(** The text before a suffix: [trimmed.slice(0, -scaleSuffix.length)]. *)
Definition stripSuffix (trimmed scaleSuffix : string) : string :=
  slice0 trimmed (- Z.of_nat (String.length scaleSuffix)).

(** A suffix is accepted for a text when it is not empty, the text ends
    with it whatever the case, and what stands before it parses as a
    finite number. *)
Definition accepts (trimmed scaleSuffix : string) : bool :=
  truthy scaleSuffix
  && endsWith (toLowerCase trimmed) (toLowerCase scaleSuffix)
  && isFinite (parseFloat (stripSuffix trimmed scaleSuffix)).

(** A table where a suffix is the end of another one. *)
Definition overlapScales : Scales :=
  [ ("", 1%float); ("kb", 1000%float); ("b", 1000000000%float) ].

(** A table whose two spellings of one suffix carry a huge multiplier. *)
Definition hugeScales : Scales :=
  [ ("", 1%float); ("k", 0x1p+1023%float); ("K", 0x1p+1023%float) ].

(** A rune whose chance is the [Infinity] that [JSON.parse] reads from
    [1e999]. *)
Definition endlessRune : RuneRecord.t :=
  RuneRecord.mk "endless" "Endless Rune" Space None false "Never drops"
    (RuneChance.mk oneInN infinity "1/Infinity") [].

Definition ascending : ProcessOptions.t := ProcessOptions.mk None None (Some asc).

(** The order a sort direction asks of two neighbours. *)
Definition inOrder (order : SortOrder) (a b : ProcessedRune.t) : bool :=
  match order with
  | asc => le (timeOrInfinity a) (timeOrInfinity b)
  | desc => ge (timeOrInfinity a) (timeOrInfinity b)
  end.

Definition sameTime (t : number) (r : ProcessedRune.t) : bool :=
  strict_eq (timeOrInfinity r) t.

Definition chanceN (rune : RuneRecord.t) : number :=
  RuneChance.n (RuneRecord.chance rune).

Definition nonEmptyEntries (scales : Scales) : list (string * number) :=
  List.filter (fun e => negb (String.eqb (fst e) "")) scales.

Definition descending (a b : string * number) : bool := ge (snd a) (snd b).
Definition strictlyDescending (a b : string * number) : bool :=
  gt (snd a) (snd b).
Definition sameMultiplier (m : number) (e : string * number) : bool :=
  strict_eq (snd e) m.

(** The threshold of [formatTimeHuman] for absurdly large values. *)
Definition absurdlyLarge : number := (1e15 * 365.25 * 24 * 60 * 60)%float.

(** The parts the loop of [formatTimeHuman] pushes when it is not cut at
    three, computed as the loop computes them, with the divisions and
    remainders of numbers. *)
Fixpoint allParts (units : list TimeUnit.t) (remaining : number)
  : list string :=
  match units with
  | [] => []
  | unit :: rest =>
      if ge remaining (TimeUnit.seconds unit) then
        partText (Math_floor (remaining / TimeUnit.seconds unit)%float) unit
        :: allParts rest (remainder remaining (TimeUnit.seconds unit))
      else allParts rest remaining
  end.







(** A character of a plain suffix: not white space, and not the [e] or [E]
    of scientific notation. *)
Definition plainChar (c : ascii) : bool :=
  negb (is_white c) && negb (Ascii.eqb c "e") && negb (Ascii.eqb c "E").

Definition plainSuffix (s : string) : bool := forallb plainChar (chars s).

(** A suffix that cannot be taken for the end of [s]: it is plain and,
    whatever the case, [s] does not end with it. *)
Definition apartFrom (s : string) (entry : string * number) : bool :=
  plainSuffix (fst entry)
  && negb (endsWith (toLowerCase s) (toLowerCase (fst entry))).

(** What the fixed notation of three digits must satisfy to be read back:
    it starts with a digit, holds digits and a point only, and reads as the
    number nearest to [n * 10 ^ (e - 2)], which is finite, under either
    sign. *)
Definition fixed_ok (n e : Z) : bool :=
  let ds := toPrecision_digits 3 n e in
  let v := of_decimal n (e - 2) in
  match ds with c :: _ => is_digit c | [] => false end
  && forallb (fun c => is_digit c || Ascii.eqb c ".") ds
  && isFinite v && isFinite (- v)%float
  && PrimFloat.Leibniz.eqb (parseFloat (str (ds ++ [" "%char]))) v
  && PrimFloat.Leibniz.eqb
       (parseFloat (str ("-"%char :: ds ++ [" "%char]))) (- v)%float.

(** The warning of a successful suffix parse. *)
Definition suffixWarning (su : ScaleUtils) (suffix : string) : option string :=
  if bool_decide (toLowerCase suffix ∈ conflictingLowerCaseSuffixes su) then
    let alternatives :=
      List.filter (fun s => negb (String.eqb s suffix))
        (default [] (lowerCaseScaleMap su !! toLowerCase suffix)) in
    if (0 <? length alternatives)%nat
    then Some (ambiguityWarning suffix alternatives)
    else None
  else None.

(** The result of [parseScaled] once a suffix is matched. *)
Definition suffixResult (su : ScaleUtils) (numPart suffix : string)
    (multiplier : number) : ParseResult :=
  let result := (parseFloat numPart * multiplier)%float in
  if isFinite result
  then {| value := result; warning := suffixWarning su suffix |}
  else {| value := 0; warning := Some "Result too large" |}.

(** The test of the scan of [formatScaled] on an entry. *)
Definition reached (absNum : number) (entry : string * number) : bool :=
  truthy (fst entry) && ge absNum (snd entry).

(** The three significant digits and the decimal exponent that
    [toPrecision(3)] prints for a positive finite number. *)
Definition digits3 (scaled : number) : Z * Z :=
  precision_digits 3 (fst (to_ratio scaled)) (snd (to_ratio scaled)).

(** [toPrecision(3)] prints in fixed notation. *)
Definition fixedNotation (scaled : number) : bool :=
  (-6 <=? snd (digits3 scaled)) && (snd (digits3 scaled) <=? 2).

(** The number nearest to the decimal of three significant digits. *)
Definition threeDigits (scaled : number) : number :=
  of_decimal (fst (digits3 scaled)) (snd (digits3 scaled) - 2).

(** The test table without its lower-case [k]. *)
Definition plainScales : Scales :=
  [ ("", 1%float); ("K", 1000%float); ("M", 1000000%float);
    ("B", 1000000000%float); ("T", 1000000000000%float) ].

(** [10 ^ e] as a fraction of two positive integers. *)
Definition num10 (e : Z) : Z := 10 ^ Z.max e 0.
Definition den10 (e : Z) : Z := 10 ^ Z.max (- e) 0.

(** The integers from [lo], [len] of them. *)
Definition range (lo len : nat) : list Z := map Z.of_nat (seq lo len).

(** The result of the scientific-notation path. *)
Definition scientificResult (trimmed : string) : ParseResult :=
  if isFinite (parseFloat trimmed)
  then {| value := parseFloat trimmed; warning := None |}
  else {| value := 0; warning := Some "Invalid scientific notation" |}.

(** A rounded value that is not negative: a zero, a finite number or an
    infinity of sign [+]. *)
Definition nonnegative_result (x : spec_float) : Prop :=
  match x with
  | S754_zero s | S754_infinity s | S754_finite s _ _ => s = false
  | S754_nan => False
  end.

(** The options the panel passes to [processRunes]. *)
Definition panelOptions (debouncedFilterText : string) (hideInstant : bool)
    (sortOrder : SortOrder) : ProcessOptions.t :=
  ProcessOptions.mk (Some debouncedFilterText) (Some hideInstant)
    (Some sortOrder).

(** What the two filters of [processRunes] keep. *)
Definition keptBy (text : option string) (hideInstant : option bool)
    (r : ProcessedRune.t) : bool :=
  match text with
  | Some text =>
      if truthy text then matchesText (toLowerCase text) r else true
  | None => true
  end
  && match hideInstant with
     | Some true => notInstant r
     | _ => true
     end.

(** The integer that orders a processed rune by its time. *)
Definition timeKey (r : ProcessedRune.t) : Z :=
  SFkey (Prim2SF (timeOrInfinity r)).

(** The last character of a string is a digit. *)
Definition endsWithDigit (s : string) : bool :=
  match rev (chars s) with
  | c :: _ => is_digit c
  | [] => false
  end.

(** What the text of a whole number below 1000 must satisfy to be read
    back: the number is finite and below 1000 in absolute value, and its
    text is not changed by [trim], is not empty, holds no [e] or [E], ends
    with a digit and reads as the number. *)
Definition whole_ok (n : Z) : bool :=
  let x := of_Z n in
  let t := toString x in
  isFinite x && lt (Math_abs x) 1000
  && String.eqb (trim t) t && truthy t
  && negb (includes t "e") && negb (includes t "E")
  && endsWithDigit t
  && PrimFloat.Leibniz.eqb (parseFloat t) x.

(** The text of a count of units: the count, a space and the unit, in the
    plural unless the count is one. *)
Definition countText (n : Z) (unit : string) : string :=
  (str (decimal n) ++ " " ++ unit ++ (if (n =? 1)%Z then "" else "s"))%string.

(** The text of [z] whole seconds, for less than an hour: the minutes and
    the seconds, a part that is zero being left out. *)
Definition minutesSeconds (z : Z) : string :=
  join ", "
    ((if 0 <? z / 60 then [countText (z / 60) "minute"] else [])
     ++ (if 0 <? z mod 60 then [countText (z mod 60) "second"] else [])).

(** The loop of [formatTimeHuman] on [z] whole seconds gives that text, and
    at least one part. *)
Definition duration_ok (z : Z) : bool :=
  let parts := decompose TIME_UNITS (of_Z z) [] in
  String.eqb (join ", " parts) (minutesSeconds z)
  && negb (length parts =? 0)%nat.

(** * Properties *)

(** ** Facts on binary64 arithmetic *)

Module FloatFacts.

Lemma digits2_bounds (p : positive) :
  2 ^ (Zpos (digits2_pos p) - 1) <= Zpos p < 2 ^ Zpos (digits2_pos p).
Proof.
  induction p as [p IH | p IH |]; cbn [digits2_pos].
  - rewrite Pos2Z.inj_succ, Z.pow_succ_r by lia.
    replace (Z.succ (Zpos (digits2_pos p)) - 1)
      with (Z.succ (Zpos (digits2_pos p) - 1)) by lia.
    rewrite Z.pow_succ_r by lia. lia.
  - rewrite Pos2Z.inj_succ, Z.pow_succ_r by lia.
    replace (Z.succ (Zpos (digits2_pos p)) - 1)
      with (Z.succ (Zpos (digits2_pos p) - 1)) by lia.
    rewrite Z.pow_succ_r by lia. lia.
  - cbn. lia.
Qed.

Lemma shr_1_m (mrs : shr_record) :
  0 <= shr_m mrs -> shr_m (shr_1 mrs) = shr_m mrs / 2.
Proof.
  destruct mrs as [m r s]; cbn [shr_m]; intros Hm.
  destruct m as [| [p | p |] | p]; cbn [shr_1 shr_m];
    try reflexivity; try lia.
  - apply Z.div_unique with 1; lia.
  - apply Z.div_unique with 0; lia.
Qed.

Lemma pow2_xO (p : positive) : 2 ^ Zpos p~0 = 2 ^ Zpos p * 2 ^ Zpos p.
Proof.
  rewrite (Pos2Z.inj_xO p). replace (2 * Zpos p) with (Zpos p + Zpos p) by lia.
  now rewrite Z.pow_add_r by lia.
Qed.

Lemma pow2_xI (p : positive) : 2 ^ Zpos p~1 = 2 * (2 ^ Zpos p * 2 ^ Zpos p).
Proof.
  rewrite (Pos2Z.inj_xI p).
  replace (2 * Zpos p + 1) with (Z.succ (Zpos p + Zpos p)) by lia.
  now rewrite Z.pow_succ_r, Z.pow_add_r by lia.
Qed.

Lemma iter_shr_1_m (p : positive) (mrs : shr_record) :
  0 <= shr_m mrs ->
  shr_m (SpecFloat.iter_pos shr_1 p mrs) = shr_m mrs / 2 ^ Zpos p.
Proof.
  revert mrs.
  induction p as [p IH | p IH |]; intros mrs Hm; cbn [SpecFloat.iter_pos].
  - assert (H1 : 0 <= shr_m (shr_1 mrs)).
    { rewrite shr_1_m by easy. apply Z.div_pos; lia. }
    assert (H2 : 0 <= shr_m (SpecFloat.iter_pos shr_1 p (shr_1 mrs))).
    { rewrite IH by easy. apply Z.div_pos; lia. }
    rewrite IH, IH, shr_1_m by easy.
    rewrite !Z.div_div by lia.
    now rewrite pow2_xI, Z.mul_assoc.
  - assert (H2 : 0 <= shr_m (SpecFloat.iter_pos shr_1 p mrs)).
    { rewrite IH by easy. apply Z.div_pos; lia. }
    rewrite IH, IH by easy.
    rewrite !Z.div_div by lia.
    now rewrite pow2_xO.
  - rewrite shr_1_m by easy. now rewrite Z.pow_1_r.
Qed.

Lemma shr_record_of_loc_m m l : shr_m (shr_record_of_loc m l) = m.
Proof. destruct l as [| []]; reflexivity. Qed.

(** Rounding a positive mantissa whose exponent is at least [emin] leaves a
    positive mantissa. *)
Lemma shr_fexp_pos (p : positive) (e : Z) (l : location) :
  emin <= e ->
  0 < shr_m (fst (shr_fexp prec emax (Zpos p) e l))
  /\ emin <= snd (shr_fexp prec emax (Zpos p) e l).
Proof.
  intros He. unfold shr_fexp, shr.
  pose proof (digits2_bounds p) as [Hlo Hhi].
  cbn [Zdigits2].
  set (d := Zpos (digits2_pos p)) in *.
  destruct (fexp prec emax (d + e) - e) as [| q | q] eqn:Hn; cbn [fst snd];
    rewrite ?shr_record_of_loc_m; try (split; lia).
  rewrite iter_shr_1_m by (rewrite shr_record_of_loc_m; lia).
  rewrite shr_record_of_loc_m.
  unfold fexp, SpecFloat.emin, prec, emax in *.
  assert (Hq : Zpos q = d - 53) by lia.
  split; [| lia].
  apply Z.div_str_pos. split; [apply Z.pow_pos_nonneg; lia |].
  etransitivity; [| exact Hlo].
  apply Z.pow_le_mono_r; lia.
Qed.

Lemma round_nearest_even_ge m l : m <= round_nearest_even m l.
Proof. destruct l as [| []]; cbn; try lia. destruct (Z.even m); lia. Qed.

Lemma binary_round_aux_pos (s : bool) (p : positive) (e : Z) (l : location) :
  emin <= e -> positive_result s (binary_round_aux prec emax s (Zpos p) e l).
Proof.
  intros He. unfold binary_round_aux.
  pose proof (shr_fexp_pos p e l He) as [H1 H2].
  destruct (shr_fexp prec emax (Zpos p) e l) as [mrs' e']; cbn [fst snd] in *.
  pose proof (round_nearest_even_ge (shr_m mrs') (loc_of_shr_record mrs')) as Hr.
  destruct (round_nearest_even (shr_m mrs') (loc_of_shr_record mrs'))
    as [| p' | p'] eqn:Hp; try lia.
  pose proof (shr_fexp_pos p' e' loc_Exact H2) as [H3 H4].
  destruct (shr_fexp prec emax (Zpos p') e' loc_Exact) as [mrs'' e''];
    cbn [fst snd] in *.
  destruct (shr_m mrs'') as [| m | m]; try lia.
  destruct (e'' <=? emax - prec); reflexivity.
Qed.

Lemma binary_round_pos (s : bool) (p : positive) (e : Z) :
  emin <= e -> positive_result s (binary_round prec emax s p e).
Proof.
  intros He. unfold binary_round, shl_align.
  destruct (fexp prec emax (Zpos (digits2_pos p) + e) - e) as [| q | q] eqn:Hn;
    apply binary_round_aux_pos; try lia.
  unfold fexp. lia.
Qed.

Lemma binary_round_aux_neg (p : Z) (e : Z) (l : location) :
  SFltb (S754_zero false) (binary_round_aux prec emax true p e l) = false.
Proof.
  unfold binary_round_aux.
  destruct (shr_fexp prec emax p e l) as [mrs' e'].
  destruct (shr_fexp prec emax _ e' loc_Exact) as [mrs'' e''].
  destruct (shr_m mrs''); try reflexivity.
  destruct (e'' <=? emax - prec); reflexivity.
Qed.

(** The sign of a normalised integer: the rounded value of [M * 2 ^ e] is
    positive exactly when [M] is. *)
Lemma binary_normalize_sign (M e : Z) :
  emin <= e ->
  SFltb (S754_zero false) (binary_normalize prec emax M e false) = (0 <? M).
Proof.
  intros He. destruct M as [| p | p]; cbn [binary_normalize].
  - reflexivity.
  - pose proof (binary_round_pos false p e He) as H.
    destruct (binary_round prec emax false p e); cbn in H; try easy;
      subst; reflexivity.
  - unfold binary_round. destruct (shl_align _ _ _).
    apply binary_round_aux_neg.
Qed.

Lemma iter_xO (d m : positive) : Zpos (Pos.iter xO m d) = Zpos m * 2 ^ Zpos d.
Proof.
  induction d as [| d IH] using Pos.peano_ind.
  - cbn. lia.
  - rewrite Pos.iter_succ, Pos2Z.inj_xO, IH, Pos2Z.inj_succ, Z.pow_succ_r; lia.
Qed.

Lemma shl_align_fst (m : positive) (e e' : Z) :
  e' <= e -> Zpos (fst (shl_align m e e')) = Zpos m * 2 ^ (e - e').
Proof.
  intros H. unfold shl_align.
  destruct (e' - e) as [| q | q] eqn:Hd; cbn [fst]; try lia.
  - replace (e - e') with 0 by lia. lia.
  - rewrite iter_xO. f_equal. f_equal. lia.
Qed.

Lemma bounded_inv (m : positive) (e : Z) :
  bounded prec emax m e = true ->
  emin <= e /\ Zpos (digits2_pos m) <= prec
  /\ (emin < e -> Zpos (digits2_pos m) = prec).
Proof.
  unfold bounded, canonical_mantissa, fexp, SpecFloat.emin, prec, emax.
  intros H. apply andb_prop in H as [H _]. apply Z.eqb_eq in H. lia.
Qed.

Lemma aligned_lt (m1 m2 : positive) (e1 e2 : Z) :
  bounded prec emax m1 e1 = true -> bounded prec emax m2 e2 = true ->
  e1 < e2 -> Zpos m1 < Zpos m2 * 2 ^ (e2 - e1).
Proof.
  intros H1 H2 Hlt.
  apply bounded_inv in H1 as (He1 & Hd1 & _).
  apply bounded_inv in H2 as (_ & _ & Hd2).
  pose proof (digits2_bounds m1) as [_ Hhi].
  pose proof (digits2_bounds m2) as [Hlo _].
  rewrite Hd2 in Hlo by lia.
  assert (Hp : Zpos m1 < 2 ^ prec).
  { eapply Z.lt_le_trans; [exact Hhi |]. apply Z.pow_le_mono_r; lia. }
  assert (Hq : 2 ^ 1 <= 2 ^ (e2 - e1)) by (apply Z.pow_le_mono_r; lia).
  unfold prec in *. change (2 ^ 53) with (2 ^ (53 - 1) * 2 ^ 1) in Hp.
  assert (0 < 2 ^ (53 - 1)) by easy.
  nia.
Qed.

(** Comparing two canonical mantissas brought to a common exponent gives
    the lexicographic comparison of exponent and mantissa. *)
Lemma aligned_compare (mx my : positive) (ex ey : Z) :
  bounded prec emax mx ex = true -> bounded prec emax my ey = true ->
  (Zpos mx * 2 ^ (ex - Z.min ex ey) ?= Zpos my * 2 ^ (ey - Z.min ex ey)) =
  match ex ?= ey with
  | Lt => Lt
  | Gt => Gt
  | Eq => Pos.compare_cont Eq mx my
  end.
Proof.
  intros Hx Hy.
  destruct (Z.compare_spec ex ey) as [Heq | Hlt | Hgt].
  - subst. rewrite Z.min_id, Z.sub_diag, !Z.mul_1_r. reflexivity.
  - rewrite Z.min_l by lia. rewrite Z.sub_diag, Z.mul_1_r.
    apply Z.compare_lt_iff. now apply aligned_lt.
  - rewrite Z.min_r by lia. rewrite Z.sub_diag, Z.mul_1_r.
    apply Z.compare_gt_iff. now apply aligned_lt.
Qed.

(** The difference of two numbers is positive exactly when the first is
    the greater. *)
Lemma SFsub_sign (x y : spec_float) :
  valid_binary x = true -> valid_binary y = true ->
  x <> S754_nan -> y <> S754_nan ->
  SFltb (S754_zero false) (SF64sub x y) = SFltb y x.
Proof.
  intros Vx Vy Nx Ny. unfold SF64sub.
  destruct x as [sx | sx | | sx mx ex], y as [sy | sy | | sy my ey];
    try easy; try (destruct sx, sy; reflexivity);
    try (destruct sx; reflexivity); try (destruct sy; reflexivity).
  cbn [valid_binary] in Vx, Vy.
  pose proof (bounded_inv _ _ Vx) as (Hex & _).
  pose proof (bounded_inv _ _ Vy) as (Hey & _).
  cbn [SFsub].
  rewrite binary_normalize_sign by lia.
  rewrite !shl_align_fst by lia.
  pose proof (aligned_compare my mx ey ex Vy Vx) as Hc.
  rewrite (Z.min_comm ey ex) in Hc.
  set (X := Zpos mx * 2 ^ (ex - Z.min ex ey)) in *.
  set (Y := Zpos my * 2 ^ (ey - Z.min ex ey)) in *.
  assert (HX : 0 < X) by (apply Z.mul_pos_pos; [easy | apply Z.pow_pos_nonneg; lia]).
  assert (HY : 0 < Y) by (apply Z.mul_pos_pos; [easy | apply Z.pow_pos_nonneg; lia]).
  unfold SFltb, SFcompare.
  destruct sx, sy; cbn [cond_Zopp].
  - destruct (Z.compare_spec Y X) as [E | L | G];
      destruct (ey ?= ex); try discriminate Hc; rewrite <- ?Hc; cbn;
      apply Z.ltb_lt || apply Z.ltb_ge; lia.
  - apply Z.ltb_ge; lia.
  - apply Z.ltb_lt; lia.
  - destruct (Z.compare_spec Y X) as [E | L | G];
      destruct (ey ?= ex); try discriminate Hc; rewrite <- ?Hc; cbn;
      apply Z.ltb_lt || apply Z.ltb_ge; lia.
Qed.

Lemma SFcompare_antisym (x y : spec_float) :
  SFcompare x y = option_map CompOpp (SFcompare y x).
Proof.
  destruct x as [sx | sx | | sx mx ex], y as [sy | sy | | sy my ey];
    try reflexivity; try (destruct sx, sy; reflexivity);
    try (destruct sx; reflexivity); try (destruct sy; reflexivity).
  cbn [SFcompare option_map].
  change (Pos.compare_cont Eq mx my) with (mx ?= my)%positive.
  change (Pos.compare_cont Eq my mx) with (my ?= mx)%positive.
  rewrite (Z.compare_antisym ex ey), (Pos.compare_antisym my mx).
  destruct sx, sy; try reflexivity;
    destruct (ex ?= ey); cbn; try reflexivity;
    destruct (my ?= mx)%positive; reflexivity.
Qed.

Lemma SFcompare_eq_l (x t y : spec_float) :
  SFcompare x t = Some Eq -> SFcompare y x = SFcompare y t.
Proof.
  intros H.
  destruct x as [sx | sx | | sx mx ex], t as [st | st | | st mt et];
    cbn in H; try discriminate H;
    try (destruct sx, st; discriminate H);
    try (destruct sx; discriminate H); try (destruct st; discriminate H).
  - destruct y as [sy | sy | | sy my ey]; reflexivity.
  - destruct sx, st; try discriminate H; reflexivity.
  - assert (sx = st /\ ex = et /\ mx = mt) as (-> & -> & ->); [| reflexivity].
    destruct sx, st; try discriminate H;
      destruct (Z.compare_spec ex et); try discriminate H;
      (split; [reflexivity | split; [assumption |]]).
    + destruct (Pos.compare_cont Eq mx mt) eqn:E; try discriminate H.
      now apply Pos.compare_eq.
    + destruct (Pos.compare_cont Eq mx mt) eqn:E; try discriminate H.
      now apply Pos.compare_eq.
Qed.

(** *** Primitive floats *)

Lemma not_nan_SF (a : float) : is_nan a = false -> Prim2SF a <> S754_nan.
Proof.
  unfold is_nan. rewrite FloatAxioms.eqb_spec. intros H E. rewrite E in H. discriminate H.
Qed.

Lemma SF_not_nan (a : float) : Prim2SF a <> S754_nan -> is_nan a = false.
Proof.
  unfold is_nan. rewrite FloatAxioms.eqb_spec. intros H.
  unfold SFeqb. pose proof (SFcompare_antisym (Prim2SF a) (Prim2SF a)) as E.
  destruct (Prim2SF a) as [s | s | | s m e]; try easy;
    try (destruct s; reflexivity).
  cbn. destruct s; rewrite Z.compare_refl;
    change (Pos.compare_cont Eq m m) with (Pos.compare m m);
    now rewrite Pos.compare_refl.
Qed.

(** [a - b > 0] exactly when [a > b], for numbers that are not NaN. *)
Lemma sub_pos (a b : float) :
  is_nan a = false -> is_nan b = false ->
  (0 <? a - b)%float = (b <? a)%float.
Proof.
  intros Ha Hb. rewrite !FloatAxioms.ltb_spec, FloatAxioms.sub_spec.
  change (Prim2SF 0) with (S754_zero false).
  apply SFsub_sign; auto using Prim2SF_valid, not_nan_SF.
Qed.

Lemma compare_some (a b : float) :
  is_nan a = false -> is_nan b = false ->
  exists c, SFcompare (Prim2SF a) (Prim2SF b) = Some c.
Proof.
  intros Ha Hb. apply not_nan_SF in Ha, Hb.
  destruct (Prim2SF a) as [s | s | | s m e], (Prim2SF b) as [s' | s' | | s' m' e'];
    try easy; cbn; eauto.
Qed.

(** The order is total on numbers that are not NaN. *)
Lemma ltb_false_leb (a b : float) :
  is_nan a = false -> is_nan b = false ->
  (b <? a)%float = false -> (a <=? b)%float = true.
Proof.
  intros Ha Hb. rewrite FloatAxioms.ltb_spec, FloatAxioms.leb_spec. unfold SFltb, SFleb.
  rewrite (SFcompare_antisym (Prim2SF a) (Prim2SF b)).
  destruct (compare_some b a Hb Ha) as [c ->].
  destruct c; cbn; easy.
Qed.

Lemma ltb_leb (a b : float) : (a <? b)%float = true -> (a <=? b)%float = true.
Proof.
  rewrite FloatAxioms.ltb_spec, FloatAxioms.leb_spec. unfold SFltb, SFleb.
  destruct (SFcompare _ _) as [[] |]; easy.
Qed.

Lemma ltb_eqb_l (x t y : float) :
  (x =? t)%float = true -> (y <? x)%float = (y <? t)%float.
Proof.
  rewrite FloatAxioms.eqb_spec, !FloatAxioms.ltb_spec. unfold SFeqb, SFltb. intros H.
  rewrite (SFcompare_eq_l (Prim2SF x) (Prim2SF t) (Prim2SF y)); [reflexivity |].
  destruct (SFcompare _ _) as [[] |]; easy.
Qed.

Lemma ltb_not_eqb (a b : float) :
  (a <? b)%float = true -> (a =? b)%float = false.
Proof.
  rewrite FloatAxioms.eqb_spec, FloatAxioms.ltb_spec. unfold SFeqb, SFltb.
  destruct (SFcompare _ _) as [[] |]; easy.
Qed.

Lemma SFcompare_eq_r (x t y : spec_float) :
  SFcompare x t = Some Eq -> SFcompare x y = SFcompare t y.
Proof.
  intros H. rewrite (SFcompare_antisym x y), (SFcompare_antisym t y).
  now rewrite (SFcompare_eq_l x t y H).
Qed.

Lemma ltb_eqb_r (x t y : float) :
  (x =? t)%float = true -> (x <? y)%float = (t <? y)%float.
Proof.
  rewrite FloatAxioms.eqb_spec, !FloatAxioms.ltb_spec. unfold SFeqb, SFltb. intros H.
  rewrite (SFcompare_eq_r (Prim2SF x) (Prim2SF t) (Prim2SF y)); [reflexivity |].
  destruct (SFcompare _ _) as [[] |]; easy.
Qed.

Lemma gtb_not_eqb (a b : float) :
  (b <? a)%float = true -> (a =? b)%float = false.
Proof.
  rewrite FloatAxioms.eqb_spec, FloatAxioms.ltb_spec. unfold SFeqb, SFltb.
  rewrite (SFcompare_antisym (Prim2SF a) (Prim2SF b)).
  destruct (SFcompare _ _) as [[] |]; easy.
Qed.

Lemma leb_neq_ltb (a b : float) :
  (a <=? b)%float = true -> (a =? b)%float = false -> (a <? b)%float = true.
Proof.
  rewrite FloatAxioms.eqb_spec, FloatAxioms.ltb_spec, FloatAxioms.leb_spec.
  unfold SFeqb, SFltb, SFleb.
  destruct (SFcompare _ _) as [[] |]; easy.
Qed.

(** *** Where NaN comes from *)

Lemma shr_fexp_nonneg (m e : Z) (l : location) :
  0 <= m -> 0 <= shr_m (fst (shr_fexp prec emax m e l)).
Proof.
  intros Hm. unfold shr_fexp, shr.
  destruct (fexp prec emax (Zdigits2 m + e) - e) as [| q | q]; cbn [fst];
    rewrite ?shr_record_of_loc_m; try assumption.
  rewrite iter_shr_1_m by now rewrite shr_record_of_loc_m.
  rewrite shr_record_of_loc_m. apply Z.div_pos; [assumption |].
  apply Z.pow_pos_nonneg; lia.
Qed.

Lemma binary_round_aux_not_nan (s : bool) (m e : Z) (l : location) :
  0 <= m -> binary_round_aux prec emax s m e l <> S754_nan.
Proof.
  intros Hm. unfold binary_round_aux.
  pose proof (shr_fexp_nonneg m e l Hm) as H1.
  destruct (shr_fexp prec emax m e l) as [mrs' e']; cbn [fst] in H1.
  pose proof (round_nearest_even_ge (shr_m mrs') (loc_of_shr_record mrs')) as Hr.
  assert (H2 : 0 <= round_nearest_even (shr_m mrs') (loc_of_shr_record mrs')) by lia.
  pose proof (shr_fexp_nonneg _ e' loc_Exact H2) as H3.
  destruct (shr_fexp prec emax _ e' loc_Exact) as [mrs'' e'']; cbn [fst] in H3.
  destruct (shr_m mrs'') as [| p | p]; try easy; try lia.
  now destruct (e'' <=? emax - prec).
Qed.

Lemma SFmul_not_nan (x y : spec_float) :
  SFltb (S754_zero false) x = true -> SFltb (S754_zero false) y = true ->
  SF64mul x y <> S754_nan
  /\ SFltb (SF64mul x y) (S754_zero false) = false.
Proof.
  unfold SF64mul.
  destruct x as [sx | [] | | [] mx ex], y as [sy | [] | | [] my ey];
    cbn; try discriminate; intros _ _; try (split; [discriminate | reflexivity]).
  split.
  - apply binary_round_aux_not_nan. lia.
  - unfold binary_round_aux.
    destruct (shr_fexp _ _ _ _ _) as [mrs' e'].
    destruct (shr_fexp _ _ _ _ _) as [mrs'' e''].
    destruct (shr_m mrs''); try reflexivity.
    destruct (_ <=? _); reflexivity.
Qed.

Lemma SFdiv_not_nan (x y : spec_float) :
  SFltb (S754_zero false) x = true ->
  (exists s m e, x = S754_finite s m e) ->
  y <> S754_nan ->
  SF64div x y <> S754_nan.
Proof.
  intros _ (s & m & e & ->) Hy. unfold SF64div.
  destruct y as [sy | sy | | sy my ey]; cbn [SFdiv]; try easy.
  unfold SFdiv_core_binary.
  set (m' := match _ - _ with 0 => _ | Zpos _ => _ | Zneg _ => _ end).
  assert (Hm' : 0 <= m').
  { unfold m'. destruct (_ - _); try lia. apply Z.shiftl_nonneg. lia. }
  pose proof (Z_div_mod m' (Zpos my) eq_refl) as Hdm.
  destruct (Z.div_eucl m' (Zpos my)) as [q r].
  apply binary_round_aux_not_nan. nia.
Qed.

Lemma finite_key_bounds (m : positive) (e : Z) :
  bounded prec emax m e = true ->
  0 < Zpos m * 2 ^ (e - emin) < 2 ^ 2200.
Proof.
  intros H. pose proof (bounded_inv m e H) as (He & Hd & _).
  unfold bounded in H. apply andb_prop in H as [_ H]. apply Z.leb_le in H.
  pose proof (digits2_bounds m) as [_ Hhi].
  unfold prec, emax, SpecFloat.emin in *.
  assert (H1 : 0 < 2 ^ (e - (3 - 1024 - 53))) by (apply Z.pow_pos_nonneg; lia).
  split; [lia |].
  assert (H2 : Zpos m < 2 ^ 53).
  { eapply Z.lt_le_trans; [exact Hhi |]. apply Z.pow_le_mono_r; lia. }
  assert (H3 : 2 ^ (e - (3 - 1024 - 53)) <= 2 ^ 2045)
    by (apply Z.pow_le_mono_r; lia).
  apply Z.lt_le_trans with (2 ^ 53 * 2 ^ 2045); [nia |].
  rewrite <- Z.pow_add_r by lia. apply Z.pow_le_mono_r; lia.
Qed.

Lemma finite_key_compare (mx my : positive) (ex ey : Z) :
  bounded prec emax mx ex = true -> bounded prec emax my ey = true ->
  (Zpos mx * 2 ^ (ex - emin) ?= Zpos my * 2 ^ (ey - emin)) =
  match ex ?= ey with
  | Lt => Lt
  | Gt => Gt
  | Eq => Pos.compare_cont Eq mx my
  end.
Proof.
  intros Hx Hy. rewrite <- (aligned_compare mx my ex ey Hx Hy).
  pose proof (bounded_inv mx ex Hx) as (Hex & _).
  pose proof (bounded_inv my ey Hy) as (Hey & _).
  set (ez := Z.min ex ey).
  assert (Hp : 0 < 2 ^ (ez - emin)) by (apply Z.pow_pos_nonneg; unfold ez; lia).
  rewrite (Zmult_compare_compat_r (Zpos mx * 2 ^ (ex - ez))
             (Zpos my * 2 ^ (ey - ez)) (2 ^ (ez - emin))) by lia.
  rewrite <- !Z.mul_assoc, <- !Z.pow_add_r by (unfold ez; lia).
  replace (ex - ez + (ez - emin)) with (ex - emin) by lia.
  replace (ey - ez + (ez - emin)) with (ey - emin) by lia.
  reflexivity.
Qed.

(** Comparison of numbers is comparison of their keys. *)
Lemma SFcompare_key (x y : spec_float) :
  valid_binary x = true -> valid_binary y = true ->
  x <> S754_nan -> y <> S754_nan ->
  SFcompare x y = Some (SFkey x ?= SFkey y).
Proof.
  intros Vx Vy Nx Ny.
  assert (HB : 0 < 2 ^ 2200) by now apply Z.pow_pos_nonneg.
  destruct x as [sx | sx | | sx mx ex], y as [sy | sy | | sy my ey];
    try easy; cbn [valid_binary] in *;
    try (pose proof (finite_key_bounds _ _ Vx) as [Hx1 Hx2]);
    try (pose proof (finite_key_bounds _ _ Vy) as [Hy1 Hy2]);
    cbn [SFcompare SFkey]; f_equal;
    try (set (B := 2 ^ 2200) in *;
         repeat match goal with s : bool |- _ => destruct s end;
         cbn [cond_Zopp]; symmetry;
         solve [ apply Z.compare_refl
               | apply Z.compare_lt_iff; lia
               | apply Z.compare_gt_iff; lia ]).
  pose proof (finite_key_compare mx my ex ey Vx Vy) as Hc.
  destruct sx, sy; cbn [cond_Zopp].
  - rewrite Z.compare_opp, (Z.compare_antisym _ (Zpos my * _)), Hc.
    now destruct (ex ?= ey).
  - symmetry. apply Z.compare_lt_iff. lia.
  - symmetry. apply Z.compare_gt_iff. lia.
  - rewrite Hc. reflexivity.
Qed.

Lemma leb_key (a b : float) :
  is_nan a = false -> is_nan b = false ->
  (a <=? b)%float = (SFkey (Prim2SF a) <=? SFkey (Prim2SF b)).
Proof.
  intros Ha Hb. rewrite FloatAxioms.leb_spec. unfold SFleb.
  rewrite SFcompare_key by auto using Prim2SF_valid, not_nan_SF.
  unfold Z.leb. now destruct (_ ?= _).
Qed.

(** The order on numbers that are not NaN is transitive. *)
Lemma leb_trans (a b c : float) :
  is_nan a = false -> is_nan b = false -> is_nan c = false ->
  (a <=? b)%float = true -> (b <=? c)%float = true -> (a <=? c)%float = true.
Proof.
  intros Ha Hb Hc. rewrite !leb_key by assumption.
  rewrite !Z.leb_le. lia.
Qed.

End FloatFacts.

(** ** Facts on the sort *)

Module SortFacts.
Import JSArray.

Section Generic.
Context {A : Type}.
Variable comparefn : A -> A -> number.
Variable good : A -> Prop.

Lemma insert_perm (x : A) (l : list A) :
  Permutation (insert comparefn x l) (x :: l).
Proof.
  induction l as [| y r IH]; cbn [insert]; [reflexivity |].
  destruct (sorts_after comparefn x y); [| reflexivity].
  rewrite IH. apply perm_swap.
Qed.

Lemma sort_perm (l : list A) : Permutation (sort comparefn l) l.
Proof.
  induction l as [| x r IH]; cbn [sort]; [reflexivity |].
  rewrite insert_perm. now constructor.
Qed.

Lemma sort_good (l : list A) : Forall good l -> Forall good (sort comparefn l).
Proof.
  intros H. eapply Permutation_Forall; [| exact H].
  symmetry. apply sort_perm.
Qed.

Section Sorted.
Variable R : A -> A -> Prop.
Hypothesis before_R :
  forall x y, good x -> good y -> sorts_after comparefn x y = false -> R x y.
Hypothesis after_R :
  forall x y, good x -> good y -> sorts_after comparefn x y = true -> R y x.

Lemma insert_sorted (x : A) (l : list A) :
  good x -> Forall good l -> Sorted R l -> Sorted R (insert comparefn x l).
Proof.
  intros Gx Gl Hs.
  induction l as [| y r IH]; cbn [insert].
  - repeat constructor.
  - apply Forall_cons_iff in Gl as [Gy Gr].
    apply Sorted_inv in Hs as [Hr Hy].
    destruct (sorts_after comparefn x y) eqn:E.
    + constructor; [now apply IH |].
      destruct r as [| z r']; cbn [insert].
      * constructor. now apply after_R.
      * destruct (sorts_after comparefn x z).
        -- constructor. now apply HdRel_inv in Hy.
        -- constructor. now apply after_R.
    + constructor; [now constructor |].
      constructor. now apply before_R.
Qed.

Lemma sort_sorted (l : list A) :
  Forall good l -> Sorted R (sort comparefn l).
Proof.
  induction l as [| x r IH]; cbn [sort]; intros G; [constructor |].
  apply Forall_cons_iff in G as [Gx Gr].
  apply insert_sorted; auto using sort_good.
Qed.

End Sorted.

Section StronglySorted.
Variable R : A -> A -> Prop.
Hypothesis before_R :
  forall x y, good x -> good y -> sorts_after comparefn x y = false -> R x y.
Hypothesis after_R :
  forall x y, good x -> good y -> sorts_after comparefn x y = true -> R y x.
Hypothesis trans_R :
  forall x y z, good x -> good y -> good z -> R x y -> R y z -> R x z.

(** With a transitive order every element is in order with all that
    follow it, not only with the next. *)
Lemma sort_strongly_sorted (l : list A) :
  Forall good l -> StronglySorted R (sort comparefn l).
Proof.
  intros G.
  set (R' := fun a b => good a /\ good b /\ R a b).
  assert (HS : Sorted R' (sort comparefn l)).
  { apply sort_sorted; [| | exact G]; intros x y Gx Gy H; unfold R'; auto. }
  assert (HT : Relations_1.Transitive R').
  { intros x y z (Gx & Gy & Hxy) (_ & Gz & Hyz). unfold R'. eauto. }
  apply (Sorted_StronglySorted HT) in HS.
  induction HS as [| a r Hr IH Ha]; constructor; [exact IH |].
  eapply List.Forall_impl; [| exact Ha]. now intros b (_ & _ & Hab).
Qed.

End StronglySorted.

Section Stable.
Variable P : A -> bool.
Hypothesis passed_over :
  forall x y, good x -> good y ->
    sorts_after comparefn x y = true -> P x = true -> P y = false.

Lemma insert_filter (x : A) (l : list A) :
  good x -> Forall good l ->
  List.filter P (insert comparefn x l) = List.filter P (x :: l).
Proof.
  intros Gx Gl.
  induction l as [| y r IH]; cbn [insert]; [reflexivity |].
  apply Forall_cons_iff in Gl as [Gy Gr].
  destruct (sorts_after comparefn x y) eqn:E; [| reflexivity].
  cbn [List.filter] in *. rewrite (IH Gr).
  destruct (P x) eqn:Px; [| reflexivity].
  now rewrite (passed_over x y Gx Gy E Px).
Qed.

Lemma sort_filter (l : list A) :
  Forall good l -> List.filter P (sort comparefn l) = List.filter P l.
Proof.
  induction l as [| x r IH]; cbn [sort]; intros G; [reflexivity |].
  apply Forall_cons_iff in G as [Gx Gr].
  rewrite insert_filter by auto using sort_good.
  cbn [List.filter]. now rewrite IH.
Qed.

End Stable.
End Generic.
End SortFacts.

Import FloatFacts.

(** ** Facts on decimals *)

Module DecimalFacts.

Lemma digits10_fuel_spec (fuel : nat) (n : Z) :
  0 < n -> n < 2 ^ Z.of_nat fuel ->
  10 ^ (digits10_fuel fuel n - 1) <= n < 10 ^ digits10_fuel fuel n
  /\ 0 < digits10_fuel fuel n.
Proof.
  revert n. induction fuel as [| fuel IH]; intros n Hn Hlt.
  - cbn in Hlt. lia.
  - cbn [digits10_fuel]. destruct (Z.leb_spec n 0) as [? | _]; [lia |].
    destruct (Z.lt_ge_cases n 10) as [Hs | Hb].
    + assert (E : n / 10 = 0) by (apply Z.div_small; lia).
      rewrite E.
      replace (digits10_fuel fuel 0) with 0 by now destruct fuel.
      cbn. lia.
    + assert (Hq : 0 < n / 10) by (apply Z.div_str_pos; lia).
      assert (Hq2 : n / 10 < 2 ^ Z.of_nat fuel).
      { rewrite Nat2Z.inj_succ, Z.pow_succ_r in Hlt by lia.
        apply Z.div_lt_upper_bound; lia. }
      destruct (IH (n / 10) Hq Hq2) as [[Hlo Hhi] Hpos].
      set (d := digits10_fuel fuel (n / 10)) in *.
      replace (1 + d - 1) with (Z.succ (d - 1)) by lia.
      replace (1 + d) with (Z.succ d) by lia.
      rewrite !Z.pow_succ_r by lia.
      pose proof (Z.div_mod n 10 ltac:(lia)) as Hdm.
      pose proof (Z.mod_pos_bound n 10 ltac:(lia)) as Hm.
      lia.
Qed.

Lemma digits10_spec (n : Z) :
  0 < n -> 10 ^ (digits10 n - 1) <= n < 10 ^ digits10 n /\ 0 < digits10 n.
Proof.
  intros Hn. unfold digits10. apply digits10_fuel_spec; [assumption |].
  rewrite Nat2Z.inj_succ, Z2Nat.id by apply Z.log2_nonneg.
  now apply Z.log2_spec.
Qed.


Lemma num10_pos e : 0 < num10 e.
Proof. apply Z.pow_pos_nonneg; lia. Qed.

Lemma den10_pos e : 0 < den10 e.
Proof. apply Z.pow_pos_nonneg; lia. Qed.

(** [10 ^ (e + 1) = 10 * 10 ^ e], on fractions. *)
Lemma pow10_succ (e : Z) : num10 (e + 1) * den10 e = 10 * num10 e * den10 (e + 1).
Proof.
  unfold num10, den10.
  destruct (Z.lt_ge_cases e 0) as [Hn | Hp].
  - rewrite (Z.max_r e 0), (Z.max_r (e + 1) 0), (Z.max_l (- e) 0) by lia.
    rewrite (Z.max_l (- (e + 1)) 0) by lia.
    replace (- e) with (Z.succ (- (e + 1))) by lia.
    rewrite Z.pow_succ_r by lia. cbn. lia.
  - rewrite (Z.max_l e 0), (Z.max_l (e + 1) 0), (Z.max_r (- e) 0) by lia.
    rewrite (Z.max_r (- (e + 1)) 0) by lia.
    replace (e + 1) with (Z.succ e) by lia.
    rewrite Z.pow_succ_r by lia. cbn. lia.
Qed.

Lemma pow10_le_spec (e N D : Z) :
  pow10_le e N D = true <-> num10 e * D <= N * den10 e.
Proof.
  unfold pow10_le, num10, den10.
  destruct (Z.leb_spec 0 e) as [Hp | Hn].
  - rewrite (Z.max_l e 0), (Z.max_r (- e) 0) by lia.
    rewrite Z.leb_le. cbn. lia.
  - rewrite (Z.max_r e 0), (Z.max_l (- e) 0) by lia.
    rewrite Z.leb_le. cbn. lia.
Qed.

Lemma pow10_sub (a b : Z) :
  0 <= a -> 0 <= b -> num10 (a - b) * 10 ^ b = 10 ^ a * den10 (a - b).
Proof.
  intros Ha Hb. unfold num10, den10.
  destruct (Z.le_ge_cases b a) as [H | H].
  - rewrite (Z.max_l (a - b) 0), (Z.max_r (- (a - b)) 0) by lia.
    rewrite Z.pow_0_r, Z.mul_1_r, <- Z.pow_add_r by lia. f_equal. lia.
  - rewrite (Z.max_r (a - b) 0), (Z.max_l (- (a - b)) 0) by lia.
    rewrite Z.pow_0_r, Z.mul_1_l, <- Z.pow_add_r by lia. f_equal. lia.
Qed.

(** [floor_log10 N D] is the decimal exponent of [N / D]. *)
Lemma floor_log10_spec (N D : Z) :
  0 < N -> 0 < D ->
  let e := floor_log10 N D in
  num10 e * D <= N * den10 e /\ N * den10 (e + 1) < num10 (e + 1) * D.
Proof.
  intros HN HD.
  destruct (digits10_spec N HN) as [[HNlo HNhi] HNpos].
  destruct (digits10_spec D HD) as [[HDlo HDhi] HDpos].
  set (dN := digits10 N) in *. set (dD := digits10 D) in *.
  assert (Hup : N * den10 (dN - dD + 1) < num10 (dN - dD + 1) * D).
  { pose proof (pow10_sub dN (dD - 1) ltac:(lia) ltac:(lia)) as H.
    replace (dN - (dD - 1)) with (dN - dD + 1) in H by lia.
    pose proof (num10_pos (dN - dD + 1)). pose proof (den10_pos (dN - dD + 1)).
    nia. }
  assert (Hlow : num10 (dN - dD - 1) * D <= N * den10 (dN - dD - 1)).
  { pose proof (pow10_sub (dN - 1) dD ltac:(lia) ltac:(lia)) as H.
    replace (dN - 1 - dD) with (dN - dD - 1) in H by lia.
    pose proof (num10_pos (dN - dD - 1)). pose proof (den10_pos (dN - dD - 1)).
    nia. }
  unfold floor_log10. fold dN dD.
  destruct (pow10_le (dN - dD) N D) eqn:E; cbv zeta.
  - apply pow10_le_spec in E. split; assumption.
  - split; [assumption |].
    replace (dN - dD - 1 + 1) with (dN - dD) by lia.
    apply Z.nle_gt. intros H. apply pow10_le_spec in H. congruence.
Qed.

Lemma scale10_spec (N D t : Z) : scale10 N D t = (N * den10 t, D * num10 t).
Proof.
  unfold scale10, num10, den10.
  destruct (Z.leb_spec 0 t) as [H | H].
  - rewrite (Z.max_l t 0), (Z.max_r (- t) 0) by lia. cbn. f_equal. lia.
  - rewrite (Z.max_r t 0), (Z.max_l (- t) 0) by lia. cbn. f_equal. lia.
Qed.

(** The three digits [toPrecision] prints: [n] has three digits, and
    [n * 10 ^ (e - 2)] is within half a unit of its last digit of
    [N / D]. *)
Lemma precision_digits_3 (N D n e : Z) :
  0 < N -> 0 < D ->
  precision_digits 3 N D = (n, e) ->
  100 <= n <= 999
  /\ Z.abs (2 * N * den10 (e - 2) - 2 * n * D * num10 (e - 2))
     <= D * num10 (e - 2).
Proof.
  intros HN HD. unfold precision_digits.
  pose proof (floor_log10_spec N D HN HD) as [Hlo Hhi].
  set (e0 := floor_log10 N D) in *. cbv zeta in Hlo, Hhi.
  replace (e0 - 3 + 1) with (e0 - 2) by lia.
  rewrite scale10_spec.
  set (t := e0 - 2).
  pose proof (num10_pos t) as Pn. pose proof (den10_pos t) as Pd.
  pose proof (num10_pos e0). pose proof (den10_pos e0).
  pose proof (num10_pos (e0 + 1)). pose proof (den10_pos (e0 + 1)).
  pose proof (num10_pos (t + 1)). pose proof (den10_pos (t + 1)).
  pose proof (pow10_succ t) as S1.
  pose proof (pow10_succ (t + 1)) as S2.
  pose proof (pow10_succ e0) as S3.
  replace (t + 1 + 1) with e0 in S2 by (unfold t; lia).
  assert (K2 : num10 e0 * den10 t = 100 * num10 t * den10 e0).
  { apply (Z.mul_cancel_r _ _ (den10 (t + 1))); [lia |].
    transitivity (num10 e0 * den10 (t + 1) * den10 t); [ring |].
    rewrite S2.
    transitivity (10 * den10 e0 * (num10 (t + 1) * den10 t)); [ring |].
    rewrite S1. ring. }
  assert (K3 : num10 (e0 + 1) * den10 t = 1000 * num10 t * den10 (e0 + 1)).
  { apply (Z.mul_cancel_r _ _ (den10 e0)); [lia |].
    transitivity (num10 (e0 + 1) * den10 e0 * den10 t); [ring |].
    rewrite S3.
    transitivity (10 * den10 (e0 + 1) * (num10 e0 * den10 t)); [ring |].
    rewrite K2. ring. }
  set (a := N * den10 t). set (b := D * num10 t).
  assert (Hb : 0 < b) by (unfold b; apply Z.mul_pos_pos; lia).
  assert (Ha1 : 100 * b <= a).
  { unfold a, b.
    apply (Z.mul_le_mono_pos_r _ _ (den10 e0)); [lia |].
    transitivity (num10 e0 * D * den10 t).
    - apply Z.eq_le_incl.
      transitivity (D * (100 * num10 t * den10 e0)); [ring |].
      rewrite <- K2. ring.
    - transitivity (N * den10 e0 * den10 t).
      + apply Z.mul_le_mono_nonneg_r; lia.
      + apply Z.eq_le_incl. ring. }
  assert (Ha2 : a < 1000 * b).
  { unfold a, b.
    apply (Z.mul_lt_mono_pos_r (den10 (e0 + 1))); [lia |].
    apply Z.lt_le_trans with (num10 (e0 + 1) * D * den10 t).
    - replace (N * den10 t * den10 (e0 + 1))
        with (N * den10 (e0 + 1) * den10 t) by ring.
      apply Z.mul_lt_mono_pos_r; lia.
    - apply Z.eq_le_incl.
      transitivity (D * (num10 (e0 + 1) * den10 t)); [ring |].
      rewrite K3. ring. }
  pose proof (Z.div_mod (2 * a + b) (2 * b) ltac:(lia)) as Hdm.
  pose proof (Z.mod_pos_bound (2 * a + b) (2 * b) ltac:(lia)) as Hm.
  set (q := (2 * a + b) / (2 * b)) in *.
  assert (Hq : 100 <= q <= 1000) by nia.
  change (10 ^ 3) with 1000. change (10 ^ (3 - 1)) with 100.
  destruct (Z.eqb_spec q 1000) as [E | E]; intros [= <- <-].
  - split; [lia |].
    replace (e0 + 1 - 2) with (t + 1) by (unfold t; lia).
    (* 100 * 10 ^ (t + 1) = 1000 * 10 ^ t *)
    apply (Z.mul_le_mono_pos_r _ _ (den10 t * num10 t)); [nia |].
    unfold a, b in *. nia.
  - split; [lia |]. fold t. unfold a, b in *. nia.
Qed.

End DecimalFacts.

(** ** The time formula *)

Lemma leb_false_pos (x : float) :
  is_nan x = false -> (x <=? 0)%float = false ->
  SFltb (S754_zero false) (Prim2SF x) = true.
Proof.
  intros Hn. rewrite FloatAxioms.leb_spec. apply not_nan_SF in Hn.
  change (Prim2SF 0) with (S754_zero false).
  destruct (Prim2SF x) as [s | [] | | [] m e]; cbn; easy.
Qed.

Lemma is_finite_SF (x : float) :
  is_finite x = true ->
  (exists s, Prim2SF x = S754_zero s) \/ exists s m e, Prim2SF x = S754_finite s m e.
Proof.
  unfold is_finite, is_nan, is_infinity.
  rewrite !FloatAxioms.eqb_spec, abs_spec.
  change (Prim2SF infinity) with (S754_infinity false).
  destruct (Prim2SF x) as [s | s | | s m e]; cbn; eauto; try discriminate.
  destruct s; discriminate.
Qed.

(** The time is never NaN when rate and luck are not, and the chance is
    finite. *)
Lemma timeSeconds_not_nan (rps luck n : number) :
  isNaN rps = false -> isNaN luck = false -> isFinite n = true ->
  isNaN (timeSeconds rps luck n) = false.
Proof.
  unfold isNaN, isFinite, timeSeconds, le. intros Hr Hl Hn.
  destruct (rps <=? 0)%float eqn:Er; [reflexivity |].
  destruct (luck <=? 0)%float eqn:El; [reflexivity |].
  destruct (n <=? 0)%float eqn:En; [reflexivity |].
  cbn [orb].
  assert (Hnn : is_nan n = false).
  { unfold is_finite in Hn. now destruct (is_nan n). }
  apply SF_not_nan. rewrite div_spec, mul_spec.
  pose proof (leb_false_pos _ Hr Er) as Pr.
  pose proof (leb_false_pos _ Hl El) as Pl.
  pose proof (leb_false_pos _ Hnn En) as Pn.
  destruct (SFmul_not_nan _ _ Pr Pl) as [Hm _].
  apply SFdiv_not_nan; try assumption.
  destruct (is_finite_SF _ Hn) as [[s E] | H]; [| assumption].
  rewrite E in Pn. discriminate Pn.
Qed.

(** ** The scale table *)

Lemma groupOf_app k L1 L2 : groupOf k (L1 ++ L2) = (groupOf k L1 ++ groupOf k L2)%list.
Proof. unfold groupOf. apply List.filter_app. Qed.

Lemma fold_addEntry (l : list (string * number)) :
  forall m c, fold_left addEntry l (∅, ∅) = (m, c) ->
  (forall k, m !! k =
     match groupOf k (map fst l) with [] => None | g => Some g end)
  /\ (forall k, k ∈ c <-> (1 < length (groupOf k (map fst l)))%nat).
Proof.
  induction l as [| e l IH] using rev_ind; intros m c H.
  - cbn in H. injection H as <- <-. split; intros k.
    + apply lookup_empty.
    + cbn. split; [set_solver | lia].
  - rewrite fold_left_app in H. cbn [fold_left] in H.
    destruct (fold_left addEntry l (∅, ∅)) as [m0 c0].
    destruct (IH m0 c0 eq_refl) as [Hm Hc]. clear IH.
    unfold addEntry in H. injection H as <- <-.
    rewrite map_app. cbn [map].
    set (lower := toLowerCase (fst e)).
    assert (Hd : default [] (m0 !! lower) = groupOf lower (map fst l)).
    { rewrite Hm. now destruct (groupOf lower (map fst l)). }
    rewrite Hd.
    assert (Hg : forall k, groupOf k (map fst l ++ [fst e]) =
      if String.eqb lower k then (groupOf k (map fst l) ++ [fst e])%list
      else groupOf k (map fst l)).
    { intros k. rewrite groupOf_app. unfold groupOf at 2. cbn [List.filter].
      fold lower. destruct (String.eqb lower k); [reflexivity | apply app_nil_r]. }
    split; intros k; rewrite Hg.
    + destruct (String.eqb_spec lower k) as [<- | Hne].
      * rewrite lookup_insert_eq.
        now destruct (groupOf lower (map fst l)).
      * rewrite lookup_insert_ne by assumption. apply Hm.
    + destruct (Nat.ltb_spec 1 (length (groupOf lower (map fst l) ++ [fst e])))
        as [L | L]; rewrite length_app in L; cbn [length] in L;
        destruct (String.eqb_spec lower k) as [<- | Hne];
        rewrite ?length_app; cbn [length];
        rewrite ?elem_of_union, ?elem_of_singleton, Hc.
      * split; [lia | auto].
      * split; [| tauto]. intros [E | E]; [congruence | assumption].
      * lia.
      * reflexivity.
Qed.

Lemma builtUtils_entries scales :
  scaleEntries (builtUtils scales) = ("", 1%float) :: sortedEntries scales.
Proof.
  unfold builtUtils. fold (sortedEntries scales).
  now destruct (fold_left addEntry (sortedEntries scales) (∅, ∅)).
Qed.

Lemma builtUtils_groups scales :
  let su := builtUtils scales in
  let L := map fst (sortedEntries scales) in
  (forall k, lowerCaseScaleMap su !! k =
     match groupOf k L with [] => None | g => Some g end)
  /\ (forall k, k ∈ conflictingLowerCaseSuffixes su <->
                (1 < length (groupOf k L))%nat).
Proof.
  unfold builtUtils. fold (sortedEntries scales).
  destruct (fold_left addEntry (sortedEntries scales) (∅, ∅)) as [m c] eqn:E.
  cbn. now apply fold_addEntry.
Qed.

Lemma sortedEntries_perm (scales : Scales) :
  Permutation (sortedEntries scales)
    (List.filter (fun e => negb (String.eqb (fst e) "")) scales).
Proof. apply SortFacts.sort_perm. Qed.

(** *** The loop that can throw *)

Lemma get_own {A : Type} (m : gmap string A) (k : string) (a : A) :
  m !! k = Some a -> JSObject.get m k = JSObject.Own a.
Proof. intros H. unfold JSObject.get. now rewrite H. Qed.

Lemma get_own_inv {A : Type} (m : gmap string A) (k : string) (a : A) :
  JSObject.get m k = JSObject.Own a -> m !! k = Some a.
Proof.
  unfold JSObject.get. destruct (m !! k); [congruence |].
  now destruct (JSObject.inherited k).
Qed.

Lemma forOf_addSuffix (l : list (string * number)) :
  forall m c, (forall k, JSObject.inherited k = true -> m !! k = None) ->
  forOf addSuffix l (m, c) =
    if existsb (fun e => JSObject.inherited (toLowerCase (fst e))) l
    then TypeError else Return (fold_left addEntry l (m, c)).
Proof.
  induction l as [| e l IH]; intros m c Hm; [reflexivity |].
  cbn [forOf existsb fold_left].
  unfold addSuffix at 1, addEntry at 2, JSObject.get.
  destruct (JSObject.inherited (toLowerCase (fst e))) eqn:E.
  - now rewrite (Hm _ E).
  - cbn [orb].
    assert (Hm' : forall g k, JSObject.inherited k = true ->
                    <[toLowerCase (fst e) := g]> m !! k = None).
    { intros g k Hk. rewrite lookup_insert_ne; [now apply Hm |].
      intros Heq. congruence. }
    destruct (m !! toLowerCase (fst e)) as [g |]; cbn [bind default];
      now rewrite IH by apply Hm'.
Qed.

Lemma existsb_perm {A : Type} (p : A -> bool) (l l' : list A) :
  Permutation l l' -> existsb p l = existsb p l'.
Proof.
  induction 1; cbn; try congruence.
  now destruct (p x), (p y).
Qed.

Lemma existsb_filter {A : Type} (p q : A -> bool) (l : list A) :
  (forall a, p a = true -> q a = true) ->
  existsb p (List.filter q l) = existsb p l.
Proof.
  intros H. induction l as [| a l IH]; [reflexivity |].
  cbn. destruct (q a) eqn:Q; cbn; rewrite IH; [reflexivity |].
  destruct (p a) eqn:P; [| reflexivity].
  rewrite (H _ P) in Q. discriminate Q.
Qed.

(** [buildScaleUtils] throws exactly when a suffix lowercases to an
    inherited name, and builds [builtUtils] otherwise. *)
Lemma buildScaleUtils_spec (scales : Scales) :
  buildScaleUtils scales =
    if meetsInherited scales then TypeError else Return (builtUtils scales).
Proof.
  unfold buildScaleUtils, builtUtils, meetsInherited.
  fold (sortedEntries scales).
  rewrite forOf_addSuffix by (intros k _; apply lookup_empty).
  rewrite (existsb_perm _ _ _ (sortedEntries_perm scales)).
  rewrite existsb_filter.
  - destruct (existsb _ scales); [reflexivity |]. cbn [bind].
    now destruct (fold_left addEntry (sortedEntries scales) (∅, ∅)).
  - intros [s m] H. cbn [fst] in *. now destruct s.
Qed.

Lemma buildScaleUtils_built (scales : Scales) (su : ScaleUtils) :
  buildScaleUtils scales = Return su -> su = builtUtils scales.
Proof.
  rewrite buildScaleUtils_spec.
  destruct (meetsInherited scales); [discriminate | congruence].
Qed.

Lemma builtUtils_get (scales : Scales) (k : string) :
  JSObject.get (lowerCaseScaleMap (builtUtils scales)) k =
    match groupOf k (map fst (sortedEntries scales)) with
    | [] => if JSObject.inherited k then JSObject.Inherited
            else JSObject.Undefined
    | g => JSObject.Own g
    end.
Proof.
  destruct (builtUtils_groups scales) as [Hm _].
  unfold JSObject.get. rewrite Hm.
  now destruct (groupOf k (map fst (sortedEntries scales))).
Qed.

Lemma lower_idem (c : ascii) : lower (lower c) = lower c.
Proof. destruct c as [[] [] [] [] [] [] [] []]; reflexivity. Qed.

Lemma toLowerCase_idem (s : string) :
  toLowerCase (toLowerCase s) = toLowerCase s.
Proof.
  unfold toLowerCase, chars, str.
  rewrite list_ascii_of_string_of_list_ascii, map_map.
  f_equal. apply map_ext. intros c. apply lower_idem.
Qed.

(** Of the inherited names, a lowercased suffix can only be one of the two
    that have no capital letter. *)
Lemma inherited_lowercase (s : string) :
  JSObject.inherited (toLowerCase s) = true <->
  toLowerCase s = "constructor" \/ toLowerCase s = "__proto__".
Proof.
  split.
  - intros H. apply existsb_exists in H. destruct H as [n [Hin E]].
    apply String.eqb_eq in E. pose proof (toLowerCase_idem s) as I.
    rewrite E in I |- *.
    repeat (destruct Hin as [<- | Hin];
            [first [now left | now right | vm_compute in I; discriminate I] |]).
    destruct Hin.
  - intros [-> | ->]; reflexivity.
Qed.

Lemma meetsInherited_spec (scales : Scales) :
  meetsInherited scales = true <->
  exists s, In s (map fst scales)
            /\ (toLowerCase s = "constructor" \/ toLowerCase s = "__proto__").
Proof.
  unfold meetsInherited. rewrite existsb_exists. split.
  - intros [e [Hin H]]. exists (fst e). split; [now apply in_map |].
    now apply inherited_lowercase.
  - intros [s [Hin H]]. apply in_map_iff in Hin.
    destruct Hin as [e [<- Hin]]. exists e. split; [assumption |].
    now apply inherited_lowercase.
Qed.

Lemma meetsInherited_none (scales : Scales) :
  meetsInherited scales = false <->
  forall s, In s (map fst scales) ->
            toLowerCase s <> "constructor" /\ toLowerCase s <> "__proto__".
Proof.
  split.
  - intros H s Hin. split; intros E;
      (assert (T : meetsInherited scales = true)
         by (apply meetsInherited_spec; exists s; tauto));
      congruence.
  - intros H. destruct (meetsInherited scales) eqn:E; [| reflexivity].
    apply meetsInherited_spec in E. destruct E as [s [Hin E]].
    destruct (H s Hin). tauto.
Qed.

(** ** The parser returns, and returns finite values *)

Lemma not_finite (x : number) : isNaN x || negb (isFinite x) = negb (isFinite x).
Proof.
  unfold isNaN, isFinite, is_finite. now destruct (is_nan x).
Qed.

Lemma truthy_eqb (s : string) : truthy s = negb (String.eqb s "").
Proof. now destruct s. Qed.

Lemma parseScaled_finite (input : string) (su : ScaleUtils) (r : ParseResult) :
  parseScaled input su = Return r -> isFinite (value r) = true.
Proof.
  unfold parseScaled. rewrite !not_finite.
  repeat match goal with
  | |- context [if ?c then _ else _] => destruct c eqn:?
  | |- context [let '(_, _) := ?p in _] => destruct p as [[? ?] ?] eqn:?
  | |- context [JSObject.get ?m ?k] => destruct (JSObject.get m k) eqn:?
  end;
  intros H; try discriminate H; injection H as <-; cbn [value];
  try reflexivity;
  match goal with
  | H : negb (isFinite ?x) = false |- isFinite ?x = true =>
      now apply negb_false_iff in H
  end.
Qed.

Lemma parseScaled_returns (input : string) (scales : Scales) :
  exists r, parseScaled input (builtUtils scales) = Return r.
Proof.
  destruct (builtUtils_groups scales) as [Hm Hc].
  unfold parseScaled.
  repeat match goal with
  | |- context [if ?c then _ else _] => destruct c eqn:?
  | |- context [let '(_, _) := ?p in _] => destruct p as [[? ?] ?] eqn:?
  end; eauto.
  all: match goal with
  | H : bool_decide _ = true |- _ => apply bool_decide_eq_true in H;
      apply Hc in H
  end.
  all: rewrite builtUtils_get.
  all: match goal with
  | H : (1 < length ?g)%nat |- _ => destruct g; [cbn in H; lia |]
  end.
  all: destruct (0 <? _)%nat; eauto.
Qed.

(** ** The suffix-matching loop *)

Lemma is_finite_not_nan (x : number) : isFinite x = true -> isNaN x = false.
Proof.
  unfold isFinite, isNaN, is_finite. now destruct (is_nan x).
Qed.

Lemma matchSuffix_cons (trimmed : string) (s : string) (m : number)
    (rest : list (string * number)) :
  matchSuffix trimmed ((s, m) :: rest) =
  if accepts trimmed s then (stripSuffix trimmed s, s, m)
  else matchSuffix trimmed rest.
Proof.
  cbn [matchSuffix]. unfold accepts. fold (stripSuffix trimmed s).
  destruct (truthy s && endsWith _ _); cbn [andb]; [| reflexivity].
  destruct (isFinite (parseFloat (stripSuffix trimmed s))) eqn:F.
  - now rewrite (is_finite_not_nan _ F).
  - now rewrite andb_false_r.
Qed.

Lemma matchSuffix_first (trimmed s : string) (m : number)
    (pre post : list (string * number)) :
  Forall (fun e => accepts trimmed (fst e) = false) pre ->
  accepts trimmed s = true ->
  matchSuffix trimmed (pre ++ (s, m) :: post) = (stripSuffix trimmed s, s, m).
Proof.
  intros Hpre Hs.
  induction Hpre as [| [s' m'] pre H _ IH]; cbn [app];
    rewrite matchSuffix_cons.
  - now rewrite Hs.
  - cbn [fst] in H. now rewrite H.
Qed.

Lemma matchSuffix_none (trimmed : string) (entries : list (string * number)) :
  Forall (fun e => accepts trimmed (fst e) = false) entries ->
  matchSuffix trimmed entries = (trimmed, "", 1%float).
Proof.
  induction 1 as [| [s' m'] pre H _ IH]; [reflexivity |].
  rewrite matchSuffix_cons. cbn [fst] in H. now rewrite H.
Qed.

(** What the loop returns is either the initial state or an accepted
    entry, the first one. *)
Lemma matchSuffix_inv (trimmed : string) (entries : list (string * number)) :
  (matchSuffix trimmed entries = (trimmed, "", 1%float)
   /\ Forall (fun e => accepts trimmed (fst e) = false) entries)
  \/ exists pre s m post,
       entries = (pre ++ (s, m) :: post)%list
       /\ Forall (fun e => accepts trimmed (fst e) = false) pre
       /\ accepts trimmed s = true
       /\ matchSuffix trimmed entries = (stripSuffix trimmed s, s, m).
Proof.
  induction entries as [| [s m] rest IH].
  - left. split; [reflexivity | constructor].
  - rewrite matchSuffix_cons. destruct (accepts trimmed s) eqn:E.
    + right. exists [], s, m, rest. repeat split; auto.
    + destruct IH as [[H1 H2] | (pre & s' & m' & post & -> & H1 & H2 & H3)].
      * left. split; [assumption | now constructor].
      * right. exists ((s, m) :: pre), s', m', post.
        repeat split; auto.
Qed.

Lemma accepts_nonempty (trimmed s : string) : accepts trimmed s = true -> s <> "".
Proof.
  unfold accepts. intros H ->. discriminate H.
Qed.

(** C2: for every input string and every scale table (the utilities
    buildScaleUtils returns for a table), parseScaled returns a result and
    raises no error; and whenever the input cannot be interpreted (it is empty after trimming,
    its scientific notation does not parse, no plain number parses, the
    numeric prefix before a matched suffix does not parse, or the product
    is not finite) the returned value is 0 and the warning is the
    descriptive text of that failure, which is not empty. *)
Theorem parseScaled_degrades (input : string) (scales : Scales)
    (su : ScaleUtils) :
  buildScaleUtils scales = Return su ->
  exists r,
    parseScaled input su = Return r
    /\ forall f, failure input su = Some f ->
         value r = 0%float
         /\ warning r = Some (failureMessage f)
         /\ failureMessage f <> "".
Proof.
  intros Hsu. apply buildScaleUtils_built in Hsu. subst su.
  destruct (parseScaled_returns input scales) as [r Hr].
  exists r. split; [assumption |].
  revert Hr. unfold parseScaled, failure.
  rewrite truthy_eqb, !not_finite, negb_involutive.
  destruct (String.eqb (trim input) "").
  { intros H f F; simplify_eq; cbn; (split; [reflexivity | split; [reflexivity | discriminate]]). }
  destruct (includes (trim input) "e" || includes (trim input) "E").
  { destruct (isFinite (parseFloat (trim input))); cbn [negb];
      intros H f F; simplify_eq; cbn; (split; [reflexivity | split; [reflexivity | discriminate]]). }
  destruct (matchSuffix (trim input) _) as [[numPart suffix] m].
  rewrite ?not_finite.
  destruct (String.eqb suffix "").
  { destruct (isFinite (parseFloat (trim input))); cbn [negb];
      intros H f F; simplify_eq; cbn; (split; [reflexivity | split; [reflexivity | discriminate]]). }
  destruct (isFinite (parseFloat numPart)); cbn [negb].
  2: { intros H f F; simplify_eq; cbn; (split; [reflexivity | split; [reflexivity | discriminate]]). }
  destruct (isFinite (parseFloat numPart * m)%float); cbn [negb].
  { intros _ f H. discriminate H. }
  intros H f F; simplify_eq; cbn; (split; [reflexivity | split; [reflexivity | discriminate]]).
Qed.

Lemma parseScaled_degrades_witness :
  buildScaleUtils testScales = Return TestData.su
  /\ exists r,
       parseScaled "abc" TestData.su = Return r
       /\ forall f, failure "abc" TestData.su = Some f ->
            value r = 0%float
            /\ warning r = Some (failureMessage f)
            /\ failureMessage f <> "".
Proof.
  split; [vm_compute; reflexivity |].
  apply (parseScaled_degrades "abc" testScales). vm_compute. reflexivity.
Defined.

(** C10: for every input string and every scale table (the utilities
    buildScaleUtils returns for a table), the value parseScaled returns is
    a finite number, neither NaN nor an infinity, on every path. *)
Theorem parseScaled_value_finite (input : string) (scales : Scales)
    (su : ScaleUtils) :
  buildScaleUtils scales = Return su ->
  exists r,
    parseScaled input su = Return r
    /\ isFinite (value r) = true
    /\ isNaN (value r) = false.
Proof.
  intros Hsu. apply buildScaleUtils_built in Hsu. subst su.
  destruct (parseScaled_returns input scales) as [r Hr].
  exists r. split; [assumption |].
  pose proof (parseScaled_finite _ _ _ Hr) as F.
  split; [assumption | now apply is_finite_not_nan].
Qed.

Lemma parseScaled_value_finite_witness :
  buildScaleUtils testScales = Return TestData.su
  /\ exists r,
       parseScaled "1e999" TestData.su = Return r
       /\ isFinite (value r) = true
       /\ isNaN (value r) = false.
Proof.
  split; [vm_compute; reflexivity |].
  apply (parseScaled_value_finite "1e999" testScales). vm_compute. reflexivity.
Defined.

(** ** First match and ambiguity *)

Lemma in_sorted_suffixes (scales : Scales) (s : string) :
  In s (map fst (sortedEntries scales)) <-> s <> "" /\ In s (map fst scales).
Proof.
  rewrite (Permutation_in' (eq_refl s)
             (Permutation_map fst (sortedEntries_perm scales))).
  rewrite !in_map_iff. split.
  - intros ([s' m] & <- & H). apply filter_In in H as [H1 H2]. cbn in *.
    split.
    + intros ->. discriminate H2.
    + now exists (s', m).
  - intros [Hne ([s' m] & <- & H)]. exists (s', m). split; [reflexivity |].
    apply filter_In. split; [assumption |]. cbn in *.
    now destruct (String.eqb_spec s' "").
Qed.

Lemma NoDup_map_filter {A B : Type} (f : A -> B) (P : A -> bool) (l : list A) :
  List.NoDup (map f l) -> List.NoDup (map f (List.filter P l)).
Proof.
  induction l as [| a l IH]; cbn; intros H; [constructor |].
  apply List.NoDup_cons_iff in H as [H1 H2].
  destruct (P a); cbn; auto.
  apply List.NoDup_cons_iff. split; [| auto].
  intros Hin. apply H1. apply in_map_iff in Hin as (x & E & Hx).
  apply filter_In in Hx as [Hx _]. apply in_map_iff. eauto.
Qed.

Lemma sorted_suffixes_NoDup (scales : Scales) :
  List.NoDup (map fst scales) -> List.NoDup (map fst (sortedEntries scales)).
Proof.
  intros H.
  eapply Permutation_NoDup.
  - symmetry. apply Permutation_map, sortedEntries_perm.
  - now apply NoDup_map_filter.
Qed.

Lemma entries_after (a b : string * number) :
  isNaN (snd a) = false -> isNaN (snd b) = false ->
  JSArray.sorts_after (fun a b => (snd b - snd a)%float) a b
  = lt (snd a) (snd b).
Proof.
  intros Ha Hb. unfold JSArray.sorts_after, gt, lt. now apply sub_pos.
Qed.

Lemma nonEmptyEntries_not_nan (scales : Scales) :
  Forall (fun e => isNaN (snd e) = false) scales ->
  Forall (fun e => isNaN (snd e) = false) (nonEmptyEntries scales).
Proof.
  intros Hnan. apply List.Forall_forall. intros e He.
  apply filter_In in He as [He _].
  rewrite List.Forall_forall in Hnan. now apply Hnan.
Qed.

(** The table is in descending order of multipliers. *)
Lemma sortedEntries_strongly_sorted (scales : Scales) :
  Forall (fun e => isNaN (snd e) = false) scales ->
  StronglySorted (fun a b => descending a b = true) (sortedEntries scales).
Proof.
  intros Hnan.
  apply (SortFacts.sort_strongly_sorted _ (fun e => isNaN (snd e) = false));
    [| | | now apply nonEmptyEntries_not_nan].
  - intros x y Gx Gy. rewrite entries_after by assumption.
    unfold descending, lt, ge. now apply ltb_false_leb.
  - intros x y Gx Gy. rewrite entries_after by assumption.
    unfold descending, lt, ge. apply ltb_leb.
  - intros x y z Gx Gy Gz. unfold descending, ge. intros H1 H2.
    now apply (leb_trans (snd z) (snd y) (snd x)).
Qed.

(** Entries of equal multiplier keep their order of insertion. *)
Lemma sortedEntries_stable (scales : Scales) (m : number) :
  Forall (fun e => isNaN (snd e) = false) scales ->
  List.filter (sameMultiplier m) (sortedEntries scales)
  = List.filter (sameMultiplier m) (nonEmptyEntries scales).
Proof.
  intros Hnan.
  apply (SortFacts.sort_filter _ (fun e => isNaN (snd e) = false));
    [| now apply nonEmptyEntries_not_nan].
  intros x y Gx Gy. rewrite entries_after by assumption.
  unfold sameMultiplier, strict_eq, lt. intros Hlt Hx.
  rewrite (ltb_eqb_r _ _ _ Hx) in Hlt. now apply gtb_not_eqb.
Qed.

Lemma StronglySorted_app_r {A : Type} (R : A -> A -> Prop) (l1 l2 : list A) :
  StronglySorted R (l1 ++ l2) -> StronglySorted R l2.
Proof.
  induction l1 as [| a l1 IH]; cbn [app]; [easy |].
  intros H. apply StronglySorted_inv in H as [H _]. auto.
Qed.

Lemma StronglySorted_NoDup_neq {A : Type} (R : A -> A -> Prop) (l : list A) :
  List.NoDup l -> StronglySorted R l ->
  StronglySorted (fun a b => R a b /\ a <> b) l.
Proof.
  induction 2 as [| a l Hs IH Ha]; [constructor |].
  apply List.NoDup_cons_iff in H as [Hnot Hl].
  constructor; [auto |].
  rewrite List.Forall_forall in *. intros b Hb. split; [auto |].
  intros ->. contradiction.
Qed.

Lemma StronglySorted_impl_in {A : Type} (R R' : A -> A -> Prop) (l : list A) :
  (forall a b, In a l -> In b l -> R a b -> R' a b) ->
  StronglySorted R l -> StronglySorted R' l.
Proof.
  intros H Hs. induction Hs as [| a l Hs IH Ha]; [constructor |].
  constructor.
  - apply IH. intros x y Hx Hy. apply H; now right.
  - rewrite List.Forall_forall in *. intros b Hb.
    apply H; [now left | now right | auto].
Qed.

Lemma others_nonempty (suffix : string) (g : list string) :
  List.NoDup g -> (1 < length g)%nat ->
  List.filter (fun s => negb (String.eqb s suffix)) g <> [].
Proof.
  intros Hnd Hlen.
  destruct g as [| a [| b t]]; cbn [length] in Hlen; try lia.
  apply List.NoDup_cons_iff in Hnd as [Hab _].
  cbn [List.filter].
  destruct (String.eqb_spec a suffix) as [-> | Ha]; cbn [negb]; [| easy].
  destruct (String.eqb_spec b suffix) as [-> | Hb]; cbn [negb]; [| easy].
  exfalso. apply Hab. now left.
Qed.

(** Once the first accepted entry of the table is known, so is the result. *)
Lemma parseScaled_suffix (input : string) (scales : Scales)
    (pre post : list (string * number)) (s : string) (m : number) :
  let su := builtUtils scales in
  let trimmed := trim input in
  trimmed <> "" ->
  includes trimmed "e" = false -> includes trimmed "E" = false ->
  sortedEntries scales = (pre ++ (s, m) :: post)%list ->
  accepts trimmed s = true ->
  Forall (fun e => accepts trimmed (fst e) = false) pre ->
  parseScaled input su
  = Return (suffixResult su (stripSuffix trimmed s) s m).
Proof.
  intros su trimmed Hne He HE Hsorted Hs Hpre.
  assert (Hm : matchSuffix trimmed (scaleEntries su)
               = (stripSuffix trimmed s, s, m)).
  { unfold su. rewrite builtUtils_entries, Hsorted.
    apply (matchSuffix_first trimmed s m (("", 1%float) :: pre) post);
      [| assumption].
    constructor; [reflexivity | assumption]. }
  destruct (builtUtils_groups scales) as [Hmap Hc]. fold su in Hmap, Hc.
  unfold parseScaled, suffixResult, suffixWarning. fold trimmed.
  rewrite truthy_eqb. apply String.eqb_neq in Hne. rewrite Hne, He, HE.
  cbn [negb orb]. rewrite Hm.
  pose proof (accepts_nonempty _ _ Hs) as Hs'.
  apply String.eqb_neq in Hs'. rewrite Hs'.
  unfold accepts in Hs. apply andb_prop in Hs as [_ Hfin].
  rewrite not_finite, Hfin. cbn [negb]. cbv zeta.
  destruct (isFinite (parseFloat (stripSuffix trimmed s) * m)); cbn [negb];
    [| reflexivity].
  destruct (bool_decide _) eqn:B; [| reflexivity].
  apply bool_decide_eq_true in B. apply Hc in B.
  unfold JSObject.get. rewrite Hmap.
  destruct (groupOf _ _) as [| a g]; [cbn in B; lia |].
  cbn [default]. now destruct (0 <? _)%nat.
Qed.

(** C5: in suffix matching, parseScaled takes the first entry of the table,
    in its descending order of multipliers, that is accepted for the
    trimmed text (the text ends with the suffix whatever the case, and what
    stands before it parses as a finite number), and stops there, whatever
    the length of the suffixes that follow: the loop ends in the state of
    that entry, the result is computed from it, and every entry after it
    has a multiplier that is not larger. *)
Theorem parseScaled_first_match (input : string) (scales : Scales)
    (su : ScaleUtils)
    (pre post : list (string * number)) (s : string) (m : number) :
  let trimmed := trim input in
  buildScaleUtils scales = Return su ->
  trimmed <> "" ->
  includes trimmed "e" = false -> includes trimmed "E" = false ->
  sortedEntries scales = (pre ++ (s, m) :: post)%list ->
  accepts trimmed s = true ->
  Forall (fun e => accepts trimmed (fst e) = false) pre ->
  matchSuffix trimmed (scaleEntries su) = (stripSuffix trimmed s, s, m)
  /\ parseScaled input su
     = Return (suffixResult su (stripSuffix trimmed s) s m)
  /\ (Forall (fun e => isNaN (snd e) = false) scales ->
      Forall (fun e => ge m (snd e) = true) post).
Proof.
  intros trimmed Hsu. apply buildScaleUtils_built in Hsu. subst su.
  set (su := builtUtils scales).
  intros Hne He HE Hsorted Hs Hpre.
  split; [| split].
  - unfold su. rewrite builtUtils_entries, Hsorted.
    apply (matchSuffix_first trimmed s m (("", 1%float) :: pre) post);
      [| assumption].
    constructor; [reflexivity | assumption].
  - now apply (parseScaled_suffix input scales pre post s m).
  - intros Hnan.
    pose proof (sortedEntries_strongly_sorted scales Hnan) as HS.
    rewrite Hsorted in HS. apply StronglySorted_app_r in HS.
    apply StronglySorted_inv in HS as [_ HS]. exact HS.
Qed.

Lemma parseScaled_first_match_witness :
  buildScaleUtils overlapScales = Return (builtUtils overlapScales)
  /\ matchSuffix (trim "5kb") (scaleEntries (builtUtils overlapScales))
  = (stripSuffix (trim "5kb") "b", "b", 1000000000%float)
  /\ parseScaled "5kb" (builtUtils overlapScales)
     = Return (suffixResult (builtUtils overlapScales)
                 (stripSuffix (trim "5kb") "b") "b" 1000000000%float)
  /\ (Forall (fun e => isNaN (snd e) = false) overlapScales ->
      Forall (fun e => ge 1000000000%float (snd e) = true)
        [("kb", 1000%float)]).
Proof.
  split; [vm_compute; reflexivity |].
  apply (parseScaled_first_match "5kb" overlapScales (builtUtils overlapScales)
           [] [("kb", 1000%float)] "b" 1000000000%float).
  - vm_compute; reflexivity.
  - discriminate.
  - vm_compute; reflexivity.
  - vm_compute; reflexivity.
  - vm_compute; reflexivity.
  - vm_compute; reflexivity.
  - constructor.
Defined.

(** The longest textual match is not the one taken. *)
Example parseScaled_not_longest_match :
  accepts "5kb" "kb" = true
  /\ accepts "5kb" "b" = true
  /\ parseFloat (stripSuffix "5kb" "kb") = 5%float
  /\ bind (buildScaleUtils overlapScales) (parseScaled "5kb")
     = Return {| value := 5000000000%float; warning := None |}.
Proof. vm_compute. repeat split. Qed.

(** C6, amended: when parseScaled matches a suffix whose lowercased form
    belongs to an ambiguous group of the table and the product of the
    numeric prefix and the multiplier of the suffix is finite, the value
    returned is that product and the warning names the matched suffix and
    lists the other suffixes of the group, which are the other keys of the
    table of the same lowercased form; there is at least one.  (The keys of
    a table are pairwise distinct.) *)
Theorem parseScaled_ambiguous (input : string) (scales : Scales)
    (su : ScaleUtils) (numPart suffix : string) (m : number) :
  let trimmed := trim input in
  buildScaleUtils scales = Return su ->
  List.NoDup (map fst scales) ->
  trimmed <> "" ->
  includes trimmed "e" = false -> includes trimmed "E" = false ->
  matchSuffix trimmed (scaleEntries su) = (numPart, suffix, m) ->
  suffix <> "" ->
  toLowerCase suffix ∈ conflictingLowerCaseSuffixes su ->
  isFinite (parseFloat numPart * m)%float = true ->
  exists alternatives,
    alternatives <> []
    /\ (forall s, In s alternatives <->
          s <> suffix /\ s <> "" /\ In s (map fst scales)
          /\ toLowerCase s = toLowerCase suffix)
    /\ parseScaled input su =
       Return {| value := (parseFloat numPart * m)%float;
                 warning := Some (ambiguityWarning suffix alternatives) |}.
Proof.
  intros trimmed Hsu. apply buildScaleUtils_built in Hsu. subst su.
  set (su := builtUtils scales).
  intros Hnd Hne He HE Hm Hs Hconf Hfin.
  destruct (builtUtils_groups scales) as [Hmap Hc]. fold su in Hmap, Hc.
  apply Hc in Hconf as Hlen.
  set (L := map fst (sortedEntries scales)) in *.
  set (g := groupOf (toLowerCase suffix) L) in *.
  exists (List.filter (fun s => negb (String.eqb s suffix)) g).
  assert (Hg : List.NoDup g) by (apply List.NoDup_filter, sorted_suffixes_NoDup, Hnd).
  pose proof (others_nonempty suffix g Hg Hlen) as Halt.
  split; [assumption |]. split.
  - intros s. rewrite filter_In. unfold g, groupOf. rewrite filter_In.
    unfold L. rewrite in_sorted_suffixes.
    destruct (String.eqb_spec s suffix), (String.eqb_spec (toLowerCase s) (toLowerCase suffix));
      cbn [negb]; intuition congruence.
  - (* the accepted prefix is finite *)
    assert (Hbase : isFinite (parseFloat numPart) = true).
    { destruct (matchSuffix_inv trimmed (scaleEntries su))
        as [[H1 _] | (pre & s' & m' & post & _ & _ & Hacc & H1)];
        rewrite H1 in Hm; simplify_eq.
      unfold accepts in Hacc. now apply andb_prop in Hacc as [_ ?]. }
    unfold parseScaled. fold trimmed.
    rewrite truthy_eqb. apply String.eqb_neq in Hne. rewrite Hne, He, HE.
    cbn [negb orb]. rewrite Hm.
    apply String.eqb_neq in Hs. rewrite Hs.
    rewrite not_finite, Hbase. cbn [negb]. rewrite Hfin. cbn [negb].
    rewrite bool_decide_eq_true_2 by (apply Hc; exact Hlen).
    unfold JSObject.get. rewrite Hmap. fold L. fold g.
    destruct g as [| a t] eqn:Eg; [cbn in Hlen; lia |].
    destruct (List.filter _ (a :: t)) as [| b t'] eqn:Ef; [contradiction |].
    reflexivity.
Qed.

Lemma parseScaled_ambiguous_witness :
  buildScaleUtils testScales = Return TestData.su
  /\ exists alternatives,
    alternatives <> []
    /\ (forall s, In s alternatives <->
          s <> "k" /\ s <> "" /\ In s (map fst testScales)
          /\ toLowerCase s = toLowerCase "k")
    /\ parseScaled "1.5k" TestData.su =
       Return {| value := (parseFloat "1.5" * 1000)%float;
                 warning := Some (ambiguityWarning "k" alternatives) |}.
Proof.
  split; [vm_compute; reflexivity |].
  apply (parseScaled_ambiguous "1.5k" testScales TestData.su
           "1.5" "k" 1000%float).
  - vm_compute; reflexivity.
  - repeat constructor; cbn; intuition discriminate.
  - discriminate.
  - vm_compute; reflexivity.
  - vm_compute; reflexivity.
  - vm_compute; reflexivity.
  - discriminate.
  - apply (bool_decide_unpack _). vm_compute. exact I.
  - vm_compute; reflexivity.
Defined.

Example parseScaled_ambiguous_example :
  bind (buildScaleUtils testScales) (parseScaled "1.5k")
  = Return {| value := 1500%float;
              warning := Some (ambiguityWarning "k" ["K"]) |}
  /\ ambiguityWarning "k" ["K"]
     = ("Ambiguous suffix " ++ quote ++ "k" ++ quote
        ++ " - could also mean: K")%string.
Proof. vm_compute. split; reflexivity. Qed.

(** C6, as stated, fails when the product overflows: the suffix of an
    ambiguous group is matched, and the result is 0 with the warning of the
    overflow. *)
Lemma parseScaled_ambiguous_overflow :
  exists su,
    buildScaleUtils hugeScales = Return su
    /\ matchSuffix (trim "10k") (scaleEntries su)
       = ("10", "k", 0x1p+1023%float)
    /\ bool_decide ("k" ∈ conflictingLowerCaseSuffixes su) = true
    /\ parseScaled "10k" su
       = Return {| value := 0%float; warning := Some "Result too large" |}.
Proof.
  exists (builtUtils hugeScales). vm_compute. repeat split.
Qed.

(** ** Rune processing *)

Lemma timeSeconds_guard (rps luck n : number) :
  le rps 0 = true \/ le luck 0 = true \/ le n 0 = true ->
  timeSeconds rps luck n = infinity.
Proof.
  unfold timeSeconds. intros [H | [H | H]]; rewrite H; now rewrite ?orb_true_r.
Qed.

(** C1: timeSeconds(rps, luck, n) is Infinity whenever rps <= 0 or
    luck <= 0 or n <= 0, and n / (rps * luck) otherwise;
    timeSeconds(10, 2, 1000000) is 50000. *)
Theorem timeSeconds_spec (rps luck n : number) :
  (le rps 0 = true \/ le luck 0 = true \/ le n 0 = true ->
   timeSeconds rps luck n = infinity)
  /\ (le rps 0 = false -> le luck 0 = false -> le n 0 = false ->
      timeSeconds rps luck n = (n / (rps * luck))%float)
  /\ timeSeconds 10 2 1000000 = 50000%float.
Proof.
  split; [apply timeSeconds_guard |].
  unfold timeSeconds. split; [now intros -> -> -> | reflexivity].
Qed.

Lemma filterRunes_incl (runes : list RuneRecord.t) (rps luck : number)
    (opts : ProcessOptions.t) (r : ProcessedRune.t) :
  In r (filterRunes runes rps luck opts) ->
  In r (map (processRune rps luck) runes).
Proof.
  unfold filterRunes.
  destruct (ProcessOptions.text opts) as [text |],
    (ProcessOptions.hideInstant opts) as [[] |];
    try destruct (truthy text);
    rewrite ?filter_In; tauto.
Qed.

Lemma processRunes_incl (runes : list RuneRecord.t) (rps luck : number)
    (opts : ProcessOptions.t) (r : ProcessedRune.t) :
  In r (processRunes runes rps luck opts) ->
  In r (map (processRune rps luck) runes).
Proof.
  unfold processRunes. intros H. apply (filterRunes_incl _ _ _ opts).
  destruct (ProcessOptions.sort opts) as [order |]; [| assumption].
  eapply Permutation_in; [apply SortFacts.sort_perm | exact H].
Qed.

(** C9, amended: every ProcessedRune that processRunes returns comes from
    a rune of the list and has its time field defined, equal to
    timeSeconds(rate, luck, chance.n); when the time is not computable
    (rate <= 0, luck <= 0 or chance.n <= 0) the field is Infinity. *)
Theorem processRunes_time_defined (runes : list RuneRecord.t)
    (rps luck : number) (opts : ProcessOptions.t) (r : ProcessedRune.t) :
  In r (processRunes runes rps luck opts) ->
  In (ProcessedRune.rune r) runes
  /\ ProcessedRune.time r
     = Some (timeSeconds rps luck (chanceN (ProcessedRune.rune r)))
  /\ (le rps 0 = true \/ le luck 0 = true
      \/ le (chanceN (ProcessedRune.rune r)) 0 = true ->
      ProcessedRune.time r = Some infinity).
Proof.
  intros H. apply processRunes_incl, in_map_iff in H as (rune & <- & Hin).
  cbn. repeat split; [assumption |].
  intros Hc. f_equal. now apply timeSeconds_guard.
Qed.

Lemma processRunes_time_defined_witness :
  In fastRune testRunes
  /\ ProcessedRune.time (processRune 0 1 fastRune)
     = Some (timeSeconds 0 1 (chanceN fastRune))
  /\ (le 0 0 = true \/ le 1 0 = true \/ le (chanceN fastRune) 0 = true ->
      ProcessedRune.time (processRune 0 1 fastRune) = Some infinity).
Proof.
  apply (processRunes_time_defined testRunes 0 1 ProcessOptions.empty
           (processRune 0 1 fastRune)).
  vm_compute. left. reflexivity.
Defined.

(** C9, as stated, fails: the time is [Infinity], not undefined. *)
Lemma processRunes_time_not_omitted :
  le 0 0 = true
  /\ map ProcessedRune.time (processRunes testRunes 0 1 ProcessOptions.empty)
     = [Some infinity; Some infinity].
Proof. vm_compute. split; reflexivity. Qed.

(** *** The sort of [processRunes] *)

Lemma compareTime_after (order : SortOrder) (a b : ProcessedRune.t) :
  isNaN (timeOrInfinity a) = false -> isNaN (timeOrInfinity b) = false ->
  JSArray.sorts_after (compareTime order) a b =
  match order with
  | asc => lt (timeOrInfinity b) (timeOrInfinity a)
  | desc => lt (timeOrInfinity a) (timeOrInfinity b)
  end.
Proof.
  intros Ha Hb. unfold JSArray.sorts_after, compareTime, gt, lt.
  destruct order; now apply sub_pos.
Qed.

Lemma filterRunes_not_nan (runes : list RuneRecord.t) (rps luck : number)
    (opts : ProcessOptions.t) :
  isNaN rps = false -> isNaN luck = false ->
  Forall (fun rune => isFinite (chanceN rune) = true) runes ->
  Forall (fun r => isNaN (timeOrInfinity r) = false)
    (filterRunes runes rps luck opts).
Proof.
  intros Hr Hl Hn. apply List.Forall_forall. intros r Hin.
  apply filterRunes_incl, in_map_iff in Hin as (rune & <- & Hin).
  cbn. apply timeSeconds_not_nan; try assumption.
  rewrite List.Forall_forall in Hn. now apply Hn.
Qed.

(** C8, amended: for rate and luck that are not NaN and runes whose
    chance.n is finite, with sort asc (respectively desc) the list returned
    by processRunes is a permutation of the filtered list, non-decreasing
    (respectively non-increasing) in time, every entry being in order with
    all that follow it, and the sort is stable: the entries of any one time
    keep their relative order. *)
Theorem processRunes_sorted (runes : list RuneRecord.t) (rps luck : number)
    (opts : ProcessOptions.t) (order : SortOrder) :
  ProcessOptions.sort opts = Some order ->
  isNaN rps = false -> isNaN luck = false ->
  Forall (fun rune => isFinite (chanceN rune) = true) runes ->
  let filtered := filterRunes runes rps luck opts in
  let out := processRunes runes rps luck opts in
  Permutation out filtered
  /\ StronglySorted (fun a b => inOrder order a b = true) out
  /\ forall t, List.filter (sameTime t) out = List.filter (sameTime t) filtered.
Proof.
  intros Hsort Hr Hl Hn filtered out.
  pose proof (filterRunes_not_nan runes rps luck opts Hr Hl Hn) as Hgood.
  fold filtered in Hgood.
  unfold out, processRunes. fold filtered. rewrite Hsort.
  split; [apply SortFacts.sort_perm |]. split.
  - apply (SortFacts.sort_strongly_sorted (compareTime order)
             (fun r => isNaN (timeOrInfinity r) = false));
      [| | | exact Hgood].
    + intros x y Gx Gy. rewrite compareTime_after by assumption.
      unfold inOrder, lt, le, ge. destruct order; now apply ltb_false_leb.
    + intros x y Gx Gy. rewrite compareTime_after by assumption.
      unfold inOrder, lt, le, ge. destruct order; apply ltb_leb.
    + intros x y z Gx Gy Gz. unfold inOrder, le, ge.
      destruct order; intros H1 H2.
      * now apply (leb_trans _ (timeOrInfinity y)).
      * now apply (leb_trans _ (timeOrInfinity y)).
  - intros t.
    apply (SortFacts.sort_filter (compareTime order)
             (fun r => isNaN (timeOrInfinity r) = false)); [| exact Hgood].
    intros x y Gx Gy. rewrite compareTime_after by assumption.
    unfold sameTime, strict_eq, lt. destruct order; intros Hlt Hx.
    + rewrite (ltb_eqb_l _ _ _ Hx) in Hlt. now apply ltb_not_eqb.
    + rewrite (ltb_eqb_r _ _ _ Hx) in Hlt. now apply gtb_not_eqb.
Qed.

Lemma processRunes_sorted_witness :
  let filtered := filterRunes testRunes 1 1 ascending in
  let out := processRunes testRunes 1 1 ascending in
  Permutation out filtered
  /\ StronglySorted (fun a b => inOrder asc a b = true) out
  /\ forall t, List.filter (sameTime t) out = List.filter (sameTime t) filtered.
Proof.
  apply (processRunes_sorted testRunes 1 1 ascending asc).
  - reflexivity.
  - reflexivity.
  - reflexivity.
  - repeat constructor.
Defined.

(** C8, as stated, fails when a time is NaN: no arrangement is in order. *)
Lemma processRunes_nan_unsorted :
  map ProcessedRune.time
    (processRunes [endlessRune; fastRune] 0x1p+600 0x1p+600 ascending)
  = [Some nan; Some 0%float]
  /\ le nan 0 = false /\ le 0 nan = false.
Proof. vm_compute. repeat split. Qed.

(** ** Order of the table entries; durations *)

(** C4, amended: for every suffix table whose multipliers are not NaN,
    buildScaleUtils throws a TypeError when some suffix of the table
    lowercases to constructor or to __proto__ (the lowercase map is a plain
    object, and the member it inherits under that name has no push); for
    every other table it returns, and the entries it builds start with the
    pair of the empty suffix and 1; the remaining pairs are the entries of
    the table with a non-empty suffix, sorted descending by multiplier
    (every pair has a multiplier at least as large as all that follow),
    those of equal multiplier in their order of insertion; and when no two
    entries share a multiplier the order is strictly descending. *)
Theorem buildScaleUtils_entries_sorted (scales : Scales) :
  Forall (fun e => isNaN (snd e) = false) scales ->
  ((exists s, In s (map fst scales)
              /\ (toLowerCase s = "constructor"
                  \/ toLowerCase s = "__proto__")) ->
   buildScaleUtils scales = TypeError)
  /\ ((forall s, In s (map fst scales) ->
         toLowerCase s <> "constructor" /\ toLowerCase s <> "__proto__") ->
      exists su rest,
        buildScaleUtils scales = Return su
        /\ scaleEntries su = ("", 1%float) :: rest
        /\ Permutation rest (nonEmptyEntries scales)
        /\ StronglySorted (fun a b => descending a b = true) rest
        /\ (forall m, List.filter (sameMultiplier m) rest
                      = List.filter (sameMultiplier m)
                          (nonEmptyEntries scales))
        /\ (List.NoDup (map fst scales) ->
            (forall a b, In a scales -> In b scales ->
                         strict_eq (snd a) (snd b) = true -> a = b) ->
            StronglySorted (fun a b => strictlyDescending a b = true) rest)).
Proof.
  intros Hnan. split.
  { intros H. apply meetsInherited_spec in H.
    now rewrite buildScaleUtils_spec, H. }
  intros H. apply meetsInherited_none in H.
  exists (builtUtils scales), (sortedEntries scales).
  split; [now rewrite buildScaleUtils_spec, H |]. clear H.
  pose proof (sortedEntries_strongly_sorted scales Hnan) as Hsorted.
  split; [apply builtUtils_entries |].
  split; [apply sortedEntries_perm |].
  split; [exact Hsorted |].
  split; [intros m; now apply sortedEntries_stable |].
  intros Hnd Hdistinct.
  assert (Hnd' : List.NoDup (sortedEntries scales)).
  { apply (List.NoDup_map_inv fst). now apply sorted_suffixes_NoDup. }
  eapply StronglySorted_impl_in;
    [| exact (StronglySorted_NoDup_neq _ _ Hnd' Hsorted)].
  intros a b Ha Hb [Hab Hne]. cbv beta in *.
  unfold descending, strictlyDescending, ge, gt in *.
  apply leb_neq_ltb; [assumption |].
  destruct (snd b =? snd a)%float eqn:E; [| reflexivity].
  exfalso. apply Hne. symmetry. apply Hdistinct; [| | exact E].
  - eapply (Permutation_in b (sortedEntries_perm scales)) in Hb.
    now apply filter_In in Hb.
  - eapply (Permutation_in a (sortedEntries_perm scales)) in Ha.
    now apply filter_In in Ha.
Qed.

Lemma buildScaleUtils_entries_sorted_witness :
  exists su rest,
    buildScaleUtils overlapScales = Return su
    /\ scaleEntries su = ("", 1%float) :: rest
    /\ Permutation rest (nonEmptyEntries overlapScales)
    /\ StronglySorted (fun a b => descending a b = true) rest
    /\ (forall m, List.filter (sameMultiplier m) rest
                  = List.filter (sameMultiplier m)
                      (nonEmptyEntries overlapScales))
    /\ (List.NoDup (map fst overlapScales) ->
        (forall a b, In a overlapScales -> In b overlapScales ->
                     strict_eq (snd a) (snd b) = true -> a = b) ->
        StronglySorted (fun a b => strictlyDescending a b = true) rest).
Proof.
  apply (buildScaleUtils_entries_sorted overlapScales).
  - repeat constructor.
  - intros s Hin. cbn in Hin.
    repeat (destruct Hin as [<- | Hin]; [vm_compute; split; discriminate |]).
    destruct Hin.
Defined.

(** C4, as stated, fails: equal multipliers stay side by side. *)
Lemma buildScaleUtils_not_strict :
  exists su,
    buildScaleUtils testScales = Return su
    /\ scaleEntries su
       = [ ("", 1%float); ("T", 1000000000000%float);
           ("B", 1000000000%float); ("M", 1000000%float);
           ("k", 1000%float); ("K", 1000%float) ]
    /\ strictlyDescending ("k", 1000%float) ("K", 1000%float) = false.
Proof.
  exists TestData.su. vm_compute. repeat split.
Qed.

(** A table with a suffix that lowercases to the name of an inherited
    member is not built. *)
Example buildScaleUtils_throws :
  buildScaleUtils [("", 1%float); ("Constructor", 1000%float)] = TypeError
  /\ buildScaleUtils [("__proto__", 1000%float)] = TypeError
  /\ buildScaleUtils [("toString", 1000%float)]
     = Return (builtUtils [("toString", 1000%float)]).
Proof. vm_compute. repeat split. Qed.

(** *** formatTimeHuman *)


Lemma decompose_take (units : list TimeUnit.t) (remaining : number)
    (parts : list string) :
  (length parts < 3)%nat ->
  decompose units remaining parts
  = take 3 (parts ++ allParts units remaining).
Proof.
  revert remaining parts.
  induction units as [| unit rest IH]; intros remaining parts Hlen;
    cbn [decompose allParts].
  - rewrite app_nil_r. symmetry. apply take_ge. lia.
  - destruct (ge remaining (TimeUnit.seconds unit)); [| now apply IH].
    set (pt := partText _ unit).
    destruct (Nat.leb_spec 3 (length (parts ++ [pt]))) as [L | L];
      rewrite length_app in L; cbn [length] in L.
    + set (tl := allParts rest _).
      replace (parts ++ pt :: tl)%list with ((parts ++ [pt]) ++ tl)%list
        by now rewrite <- app_assoc.
      rewrite take_app_length'; [reflexivity |].
      rewrite length_app. cbn [length]. lia.
    + rewrite IH by (rewrite length_app; cbn [length]; lia).
      now rewrite <- app_assoc.
Qed.

(** ** Facts on strings; the fixed notation read back *)

Module StringFacts.

Lemma chars_app (a b : string) : chars (a ++ b) = (chars a ++ chars b)%list.
Proof.
  unfold chars. induction a as [| c a IH]; [reflexivity |].
  change (list_ascii_of_string (String c a ++ b))
    with (c :: list_ascii_of_string (a ++ b)).
  rewrite IH. reflexivity.
Qed.

Lemma str_app (a b : list ascii) : str (a ++ b) = (str a ++ str b)%string.
Proof.
  unfold str. induction a as [| c a IH]; [reflexivity |].
  change (string_of_list_ascii ((c :: a) ++ b))
    with (String c (string_of_list_ascii (a ++ b))).
  rewrite IH. reflexivity.
Qed.

Lemma str_chars (s : string) : str (chars s) = s.
Proof. apply string_of_list_ascii_of_string. Qed.

Lemma chars_str (l : list ascii) : chars (str l) = l.
Proof. apply list_ascii_of_string_of_list_ascii. Qed.

Lemma length_chars (s : string) : String.length s = length (chars s).
Proof.
  unfold chars. induction s as [| c s IH]; [reflexivity |].
  cbn [String.length list_ascii_of_string length]. now rewrite IH.
Qed.

Lemma toLowerCase_app (a b : string) :
  toLowerCase (a ++ b) = (toLowerCase a ++ toLowerCase b)%string.
Proof.
  unfold toLowerCase. now rewrite chars_app, map_app, str_app.
Qed.

Lemma is_prefix_app (p q : list ascii) : is_prefix p (p ++ q) = true.
Proof.
  induction p as [| c p IH]; cbn; [reflexivity |].
  now rewrite Ascii.eqb_refl, IH.
Qed.

Lemma endsWith_app (a b : string) : endsWith (a ++ b) b = true.
Proof.
  unfold endsWith. rewrite chars_app, rev_app_distr. apply is_prefix_app.
Qed.

Lemma slice0_app (a b : string) :
  b <> "" -> slice0 (a ++ b) (- Z.of_nat (String.length b)) = a.
Proof.
  intros Hb. unfold slice0.
  assert (Hlen : (0 < String.length b)%nat) by (destruct b; cbn; [easy | lia]).
  destruct (Z.ltb_spec (- Z.of_nat (String.length b)) 0) as [_ | H]; [| lia].
  rewrite !length_chars, chars_app, length_app.
  rewrite Z.max_l by lia.
  replace (Z.to_nat _) with (length (chars a)) by lia.
  rewrite take_app_length. apply str_chars.
Qed.

Lemma includes_char (l : list ascii) (c : ascii) :
  includes_chars l [c] = existsb (Ascii.eqb c) l.
Proof.
  induction l as [| d l IH]; cbn; [reflexivity |].
  rewrite IH. now destruct (Ascii.eqb c d).
Qed.

Lemma drop_white_id (c : ascii) (l : list ascii) :
  is_white c = false -> drop_white (c :: l) = c :: l.
Proof. intros H. cbn. now rewrite H. Qed.

End StringFacts.

Module FixedNotation.

Lemma in_range (lo len : nat) (z : Z) :
  Z.of_nat lo <= z < Z.of_nat lo + Z.of_nat len -> In z (range lo len).
Proof.
  intros H. unfold range. apply in_map_iff. exists (Z.to_nat z).
  split; [lia |]. apply in_seq. lia.
Qed.

Lemma fixed_ok_all :
  forallb (fun n => forallb (fun k => fixed_ok n (Z.of_nat k - 6)) (seq 0 9))
    (range 100 900) = true.
Proof. vm_compute. reflexivity. Qed.

Lemma fixed_ok_spec (n e : Z) :
  100 <= n <= 999 -> -6 <= e <= 2 -> fixed_ok n e = true.
Proof.
  intros Hn He.
  pose proof fixed_ok_all as H.
  rewrite forallb_forall in H.
  specialize (H n (in_range 100 900 n ltac:(lia))).
  rewrite forallb_forall in H.
  specialize (H (Z.to_nat (e + 6)) ltac:(apply in_seq; lia)).
  now replace (Z.of_nat (Z.to_nat (e + 6)) - 6) with e in H by lia.
Qed.

End FixedNotation.

(** ** Formatting, then parsing *)

Module RoundTrip.
Import StringFacts FixedNotation DecimalFacts.

Lemma formatWith_first (num absNum : number) (sign s : string) (m : number)
    (pre post : list (string * number)) :
  Forall (fun e => reached absNum e = false) pre ->
  reached absNum (s, m) = true ->
  formatWith num absNum sign (pre ++ (s, m) :: post)
  = (sign ++ toPrecision (absNum / m)%float 3 ++ " " ++ s)%string.
Proof.
  intros Hpre Hs. unfold reached in *. cbn [fst snd] in Hs.
  induction Hpre as [| [s' m'] pre H _ IH]; cbn [app formatWith].
  - now rewrite Hs.
  - cbn [fst snd] in H. now rewrite H.
Qed.

Lemma abs_large_nonzero (x : number) :
  lt (Math_abs x) 1000 = false -> strict_eq x 0 = false.
Proof.
  unfold lt, Math_abs, strict_eq.
  rewrite FloatAxioms.ltb_spec, FloatAxioms.eqb_spec, abs_spec.
  change (Prim2SF 0) with (S754_zero false).
  destruct (Prim2SF x) as [s | s | | s m e]; try reflexivity;
    try (destruct s; reflexivity).
  intros H. vm_compute in H. discriminate H.
Qed.

Lemma positive_finite_SF (x : number) :
  isFinite x = true -> lt 0 x = true ->
  exists m e, Prim2SF x = S754_finite false m e.
Proof.
  intros Hf Hp. unfold lt in Hp. rewrite FloatAxioms.ltb_spec in Hp.
  change (Prim2SF 0) with (S754_zero false) in Hp.
  destruct (is_finite_SF x Hf) as [[s E] | (s & m & e & E)];
    rewrite E in Hp; [discriminate Hp |].
  destruct s; [discriminate Hp |]. eauto.
Qed.

Lemma to_ratio_pos (x : number) (m : positive) (e : Z) :
  Prim2SF x = S754_finite false m e ->
  0 < fst (to_ratio x) /\ 0 < snd (to_ratio x).
Proof.
  intros E. unfold to_ratio. rewrite E.
  destruct (0 <=? e) eqn:He; cbn [fst snd].
  - split; [| lia]. apply Z.mul_pos_pos; [lia |].
    apply Z.pow_pos_nonneg; lia.
  - split; [lia |]. apply Z.pow_pos_nonneg; lia.
Qed.

Lemma toPrecision_fixed (scaled : number) :
  isFinite scaled = true -> lt 0 scaled = true ->
  fixedNotation scaled = true ->
  100 <= fst (digits3 scaled) <= 999
  /\ -6 <= snd (digits3 scaled) <= 2
  /\ toPrecision scaled 3
     = str (toPrecision_digits 3 (fst (digits3 scaled)) (snd (digits3 scaled))).
Proof.
  intros Hf Hp Hfix.
  destruct (positive_finite_SF scaled Hf Hp) as (m & e & E).
  destruct (to_ratio_pos scaled m e E) as [HN HD].
  unfold fixedNotation in Hfix. apply andb_prop in Hfix as [H1 H2].
  apply Z.leb_le in H1, H2.
  unfold toPrecision. rewrite E. unfold digits3 in *.
  destruct (to_ratio scaled) as [N D]; cbn [fst snd] in *.
  destruct (precision_digits 3 N D) as [n e'] eqn:P; cbn [fst snd] in *.
  destruct (precision_digits_3 N D n e' HN HD P) as [Hn _].
  repeat split; lia || reflexivity.
Qed.

Lemma leibniz_eq (a b : float) : PrimFloat.Leibniz.eqb a b = true -> a = b.
Proof. apply FloatAxioms.Leibniz.eqb_spec. Qed.

Lemma digit_not_white (c : ascii) : is_digit c = true -> is_white c = false.
Proof.
  unfold is_digit, is_white. intros H. apply andb_prop in H as [H1 H2].
  apply Z.leb_le in H1, H2.
  destruct (Z.leb_spec 9 (code c)), (Z.leb_spec (code c) 13),
    (Z.eqb_spec (code c) 32); cbn; lia || reflexivity.
Qed.

Lemma trim_nonwhite (L : list ascii) :
  match L with c :: _ => is_white c = false | [] => True end ->
  match rev L with d :: _ => is_white d = false | [] => True end ->
  trim (str L) = str L.
Proof.
  intros H1 H2. unfold trim. rewrite chars_str.
  destruct L as [| c l]; [reflexivity |].
  rewrite drop_white_id by assumption.
  destruct (rev (c :: l)) as [| d r] eqn:E.
  - apply (f_equal (@rev _)) in E. rewrite rev_involutive in E. discriminate E.
  - rewrite drop_white_id by assumption. rewrite <- E. now rewrite rev_involutive.
Qed.

Lemma existsb_false {A : Type} (p : A -> bool) (l : list A) :
  Forall (fun x => p x = false) l -> existsb p l = false.
Proof.
  induction 1 as [| x l H _ IH]; cbn; [reflexivity | now rewrite H, IH].
Qed.

Lemma plainChar_inv (c : ascii) :
  plainChar c = true ->
  is_white c = false /\ Ascii.eqb "e" c = false /\ Ascii.eqb "E" c = false.
Proof.
  unfold plainChar. rewrite (Ascii.eqb_sym c "e"), (Ascii.eqb_sym c "E").
  destruct (is_white c), (Ascii.eqb "e" c), (Ascii.eqb "E" c); cbn; intuition.
Qed.

Lemma digit_or_point_inv (c : ascii) :
  is_digit c || Ascii.eqb c "." = true ->
  Ascii.eqb "e" c = false /\ Ascii.eqb "E" c = false.
Proof.
  intros H. apply orb_prop in H as [H | H].
  - unfold is_digit in H. apply andb_prop in H as [H1 H2].
    apply Z.leb_le in H1, H2.
    split; apply Ascii.eqb_neq; intros <-; vm_compute in H2; now apply H2.
  - apply Ascii.eqb_eq in H as ->. now split.
Qed.

Lemma lower_white (c : ascii) : is_white (lower c) = is_white c.
Proof.
  destruct c as [[] [] [] [] [] [] [] []]; reflexivity.
Qed.

Lemma is_prefix_before (p a b : list ascii) (c : ascii) :
  Forall (fun x => Ascii.eqb x c = false) p ->
  is_prefix p (a ++ c :: b) = true -> is_prefix p a = true.
Proof.
  intros Hp. revert a.
  induction Hp as [| x p Hx _ IH]; intros a H; [reflexivity |].
  destruct a as [| y a]; cbn [app is_prefix] in *.
  - rewrite Hx in H. discriminate H.
  - apply andb_prop in H as [H1 H2]. rewrite H1. cbn [andb]. now apply IH.
Qed.

(** A plain suffix that ends a text ending with a space and [s] ends [s]. *)
Lemma endsWith_plain (P s s' : list ascii) :
  Forall (fun c => plainChar c = true) s' ->
  endsWith (toLowerCase (str ((P ++ [" "%char]) ++ s))) (toLowerCase (str s'))
  = true ->
  endsWith (toLowerCase (str s)) (toLowerCase (str s')) = true.
Proof.
  intros Hs'. unfold endsWith, toLowerCase.
  rewrite !chars_str, !map_app, !rev_app_distr. cbn [map rev app].
  change (lower " ") with " "%char.
  apply is_prefix_before.
  apply Forall_rev, Forall_map.
  eapply List.Forall_impl; [| exact Hs']. intros c Hc. cbn.
  apply plainChar_inv in Hc as (Hw & _).
  apply Ascii.eqb_neq. intros E.
  rewrite <- lower_white, E in Hw. discriminate Hw.
Qed.

End RoundTrip.



Import StringFacts FixedNotation DecimalFacts RoundTrip.

(** X26: let x be finite with an absolute value of at least 1000,
    and let the scan of formatScaled stop at the entry (s, m) of the table.
    If the scaled value |x| / m is a positive finite number that
    toPrecision(3) prints in fixed notation, the suffix s holds no white
    space and no e or E, every suffix before s in the table holds none
    either and is not, whatever the case, an ending of s, and s is not
    ambiguous, then the text is the
    sign, the three digits, a space and the suffix; what the parser reads
    before the suffix is the number nearest to those three digits, with the
    sign of x; parseScaled returns that number times m with no warning (or
    0 and the overflow warning when the product is not finite); and the
    three digits are within half a unit of their last place of |x| / m. *)
Theorem format_parse_round_trip (x : number) (scales : Scales)
    (su : ScaleUtils)
    (pre post : list (string * number)) (s : string) (m : number) :
  let absNum := Math_abs x in
  let scaled := (absNum / m)%float in
  let text := formatScaled x su in
  let digits := if lt x 0 then (- threeDigits scaled)%float
                else threeDigits scaled in
  buildScaleUtils scales = Return su ->
  isFinite x = true -> lt absNum 1000 = false ->
  sortedEntries scales = (pre ++ (s, m) :: post)%list ->
  Forall (fun e => reached absNum e = false) pre ->
  reached absNum (s, m) = true ->
  isFinite scaled = true -> lt 0 scaled = true ->
  fixedNotation scaled = true ->
  plainSuffix s = true ->
  Forall (fun e => apartFrom s e = true) pre ->
  toLowerCase s ∉ conflictingLowerCaseSuffixes su ->
  text = ((if lt x 0 then "-" else "") ++ toPrecision scaled 3 ++ " " ++ s)%string
  /\ parseFloat (stripSuffix text s) = digits
  /\ parseScaled text su
     = Return (if isFinite (digits * m)%float
               then {| value := (digits * m)%float; warning := None |}
               else {| value := 0; warning := Some "Result too large" |})
  /\ Z.abs (2 * fst (to_ratio scaled) * den10 (snd (digits3 scaled) - 2)
            - 2 * fst (digits3 scaled) * snd (to_ratio scaled)
              * num10 (snd (digits3 scaled) - 2))
     <= snd (to_ratio scaled) * num10 (snd (digits3 scaled) - 2).
Proof.
  intros absNum scaled text digits Hsu.
  apply buildScaleUtils_built in Hsu. subst su.
  set (su := builtUtils scales) in *.
  intros Hfin Hbig Hsorted Hpre Hreach Hsf Hsp Hfix Hplain Hapart Hunamb.
  (* what formatScaled prints *)
  assert (Htext : text = ((if lt x 0 then "-" else "")
                          ++ toPrecision scaled 3 ++ " " ++ s)%string).
  { unfold text, formatScaled. rewrite Hfin, (abs_large_nonzero x Hbig).
    cbn [negb orb]. fold absNum. rewrite Hbig.
    unfold su. rewrite builtUtils_entries, Hsorted.
    cbn [formatWith truthy andb].
    now apply formatWith_first. }
  destruct (toPrecision_fixed scaled Hsf Hsp Hfix) as (Hn & He & Hprint).
  set (n := fst (digits3 scaled)) in *. set (e := snd (digits3 scaled)) in *.
  pose proof (fixed_ok_spec n e Hn He) as Hok. unfold fixed_ok in Hok.
  set (ds := toPrecision_digits 3 n e) in *.
  fold (threeDigits scaled) in *.
  change (of_decimal n (e - 2)) with (threeDigits scaled) in Hok.
  repeat (apply andb_prop in Hok as [Hok ?]).
  match goal with H : PrimFloat.Leibniz.eqb _ (- _)%float = true |- _ =>
    apply leibniz_eq in H; rename H into Hneg end.
  match goal with H : PrimFloat.Leibniz.eqb _ _ = true |- _ =>
    apply leibniz_eq in H; rename H into Hpos end.
  match goal with H : forallb _ ds = true |- _ => rename H into Hchars end.
  match goal with H : isFinite (- _)%float = true |- _ => rename H into Hfneg end.
  match goal with H : isFinite (threeDigits _) = true |- _ => rename H into Hfpos end.
  rename Hok into Hhead.
  (* the text as a list of characters *)
  set (sg := if lt x 0 then ["-"%char] else []).
  set (P := str (sg ++ ds ++ [" "%char])).
  set (L := ((sg ++ ds ++ [" "%char]) ++ chars s)%list).
  assert (HtextL : text = str L).
  { rewrite Htext, Hprint. unfold L.
    rewrite <- !app_assoc, !str_app, str_chars.
    unfold sg. now destruct (lt x 0). }
  (* no earlier entry is accepted: its suffix is not an ending of s, and the
     space before s is not one of its characters *)
  assert (Hacc : Forall (fun e => accepts text (fst e) = false) pre).
  { eapply List.Forall_impl; [| exact Hapart].
    intros [s' m'] Ha. unfold apartFrom in Ha. cbn [fst] in *.
    apply andb_prop in Ha as [Hplain' Hends]. unfold accepts.
    destruct (endsWith (toLowerCase text) (toLowerCase s')) eqn:E;
      [| now rewrite andb_false_r].
    exfalso. rewrite HtextL in E. unfold L in E.
    rewrite <- (str_chars s'), (app_assoc sg ds) in E.
    apply endsWith_plain in E.
    - rewrite !str_chars in E. rewrite E in Hends. discriminate Hends.
    - apply List.Forall_forall. intros c Hc. unfold plainSuffix in Hplain'.
      rewrite forallb_forall in Hplain'. now apply Hplain'. }
  assert (HtextP : text = (P ++ s)%string).
  { rewrite HtextL. unfold L, P. now rewrite str_app, str_chars. }
  assert (Hsne : s <> "").
  { unfold reached in Hreach. cbn [fst] in Hreach. intros ->. discriminate Hreach. }
  assert (HP : parseFloat P = digits /\ isFinite (parseFloat P) = true).
  { unfold P, sg, digits. destruct (lt x 0); cbn [app].
    - rewrite Hneg. now split.
    - rewrite Hpos. now split. }
  assert (Hstrip : stripSuffix text s = P).
  { unfold stripSuffix. rewrite HtextP. now apply slice0_app. }
  (* the characters of the text *)
  assert (HS : Forall (fun c => plainChar c = true) (chars s)).
  { apply List.Forall_forall. intros c Hc. unfold plainSuffix in Hplain.
    rewrite forallb_forall in Hplain. now apply Hplain. }
  assert (Hds : Forall (fun c => is_digit c || Ascii.eqb c "." = true) ds).
  { apply List.Forall_forall. intros c Hc.
    rewrite forallb_forall in Hchars. now apply Hchars. }
  assert (Htrim : trim text = text).
  { rewrite HtextL. apply trim_nonwhite.
    - unfold L, sg. destruct (lt x 0); [reflexivity |].
      cbn [app]. destruct ds as [| c ds']; [discriminate Hhead |].
      cbn [app]. now apply digit_not_white.
    - unfold L. rewrite rev_app_distr.
      destruct (chars s) as [| c0 cs] eqn:Ec using rev_ind.
      + exfalso. apply Hsne. rewrite <- (str_chars s), Ec. reflexivity.
      + rewrite rev_app_distr. cbn [rev app].
        apply Forall_app in HS as [_ HS]. apply Forall_inv in HS.
        now apply plainChar_inv in HS. }
  assert (Hno : forall c, c = "e"%char \/ c = "E"%char ->
                          includes text (str [c]) = false).
  { intros c Hc. unfold includes. rewrite HtextL, !chars_str, includes_char.
    apply existsb_false. unfold L.
    repeat apply Forall_app_2.
    - unfold sg. destruct (lt x 0); repeat constructor.
      destruct Hc as [-> | ->]; reflexivity.
    - eapply Forall_impl; [exact Hds |]. intros a Ha.
      apply digit_or_point_inv in Ha. destruct Hc as [-> | ->]; tauto.
    - repeat constructor. destruct Hc as [-> | ->]; reflexivity.
    - eapply Forall_impl; [exact HS |]. intros a Ha.
      apply plainChar_inv in Ha. destruct Hc as [-> | ->]; tauto. }
  assert (Haccept : accepts text s = true).
  { unfold accepts. rewrite Hstrip, (proj2 HP).
    rewrite HtextP at 1. rewrite toLowerCase_app, endsWith_app.
    destruct s; [contradiction | reflexivity]. }
  split; [exact Htext |].
  split; [rewrite Hstrip; apply HP |].
  split.
  - pose proof (parseScaled_suffix text scales pre post s m) as R.
    cbv zeta in R. fold su in R. rewrite Htrim in R.
    rewrite R; try assumption.
    + unfold suffixResult, suffixWarning. rewrite Hstrip, (proj1 HP).
      rewrite bool_decide_eq_false_2 by assumption. reflexivity.
    + rewrite HtextL. intros Heq. apply (f_equal String.length) in Heq.
      rewrite length_chars, chars_str in Heq. unfold L in Heq.
      rewrite !length_app in Heq. cbn [length String.length] in Heq. lia.
    + apply (Hno "e"%char). now left.
    + apply (Hno "E"%char). now right.
  - destruct (positive_finite_SF scaled Hsf Hsp) as (mt & et & E).
    destruct (to_ratio_pos scaled mt et E) as [HN HD].
    unfold n, e, digits3 in *.
    destruct (precision_digits 3 _ _) as [n' e'] eqn:Pd. cbn [fst snd].
    now apply (precision_digits_3 _ _ n' e' HN HD).
Qed.

Lemma format_parse_round_trip_witness :
  let x := 1234500000%float in
  let s := "B" in
  let m := 1000000000%float in
  let su := builtUtils plainScales in
  let absNum := Math_abs x in
  let scaled := (absNum / m)%float in
  let text := formatScaled x su in
  let digits := if lt x 0 then (- threeDigits scaled)%float
                else threeDigits scaled in
  buildScaleUtils plainScales = Return su
  /\ text = ((if lt x 0 then "-" else "") ++ toPrecision scaled 3 ++ " " ++ s)%string
  /\ parseFloat (stripSuffix text s) = digits
  /\ parseScaled text su
     = Return (if isFinite (digits * m)%float
               then {| value := (digits * m)%float; warning := None |}
               else {| value := 0; warning := Some "Result too large" |})
  /\ Z.abs (2 * fst (to_ratio scaled) * den10 (snd (digits3 scaled) - 2)
            - 2 * fst (digits3 scaled) * snd (to_ratio scaled)
              * num10 (snd (digits3 scaled) - 2))
     <= snd (to_ratio scaled) * num10 (snd (digits3 scaled) - 2).
Proof.
  split; [vm_compute; reflexivity |].
  apply (format_parse_round_trip 1234500000%float plainScales
           (builtUtils plainScales)
           [("T", 1000000000000%float)]
           [("M", 1000000%float); ("K", 1000%float)]
           "B" 1000000000%float).
  - vm_compute; reflexivity.
  - vm_compute; reflexivity.
  - vm_compute; reflexivity.
  - vm_compute; reflexivity.
  - constructor; [vm_compute; reflexivity | constructor].
  - vm_compute; reflexivity.
  - vm_compute; reflexivity.
  - vm_compute; reflexivity.
  - vm_compute; reflexivity.
  - vm_compute; reflexivity.
  - constructor; [vm_compute; reflexivity | constructor].
  - apply (bool_decide_unpack _). vm_compute. exact I.
Defined.

(** The round trip on the number of the repository's test. *)
Example format_parse_example :
  exists su,
    buildScaleUtils plainScales = Return su
    /\ formatScaled 1234500000 su = "1.23 B"
    /\ parseScaled "1.23 B" su
       = Return {| value := 1230000000; warning := None |}.
Proof. exists (builtUtils plainScales). vm_compute. repeat split. Qed.

(** The conditions on the suffixes are needed: a suffix with the letter e
    sends the text to the scientific branch, and a suffix that ends with an
    earlier suffix of the table is read as that one. *)
Example format_parse_needs_plain :
  (exists su,
     buildScaleUtils [("De", 1e33%float)] = Return su
     /\ formatScaled 2e33 su = "2.00 De"
     /\ parseScaled "2.00 De" su = Return {| value := 2; warning := None |})
  /\ (exists su,
        buildScaleUtils overlapScales = Return su
        /\ formatScaled 5000 su = "5.00 kb"
        /\ parseScaled "5.00 kb" su
           = Return {| value := 5000000000; warning := None |}).
Proof.
  split; [exists (builtUtils [("De", 1e33%float)])
         | exists (builtUtils overlapScales)];
    vm_compute; repeat split.
Qed.

(** The scaled value of an entry reaches 1000 when the number is just
    below the multiplier of the entry before it, and at the top of the
    table. *)
Example format_parse_top_of_table :
  exists su,
    buildScaleUtils plainScales = Return su
    /\ formatScaled 1000000000000000 su = "1.00e+3 T"
    /\ parseScaled "1.00e+3 T" su
       = Return {| value := 1000; warning := None |}.
Proof. exists (builtUtils plainScales). vm_compute. repeat split. Qed.

(** C3 fails on the code: 999999 is finite and the table K, M, B, T has no
    ambiguous suffix; the scan of formatScaled stops at K with the scaled
    value 999.999, which toPrecision(3) rounds to 1000 and prints in
    exponential notation; parseScaled reads the text as scientific
    notation, leaves the suffix out and returns 1000 with no warning, where
    999999 to three significant digits is 1.00e+6. *)
Theorem format_parse_round_trip_fails :
  exists su,
    buildScaleUtils plainScales = Return su
    /\ isFinite 999999 = true
    /\ elements (conflictingLowerCaseSuffixes su) = []
    /\ (Math_abs 999999 / 1000)%float = 999.999%float
    /\ toPrecision 999.999 3 = "1.00e+3"
    /\ formatScaled 999999 su = "1.00e+3 K"
    /\ parseScaled "1.00e+3 K" su
       = Return {| value := 1000; warning := None |}
    /\ toPrecision 999999 3 = "1.00e+6".
Proof. exists (builtUtils plainScales). vm_compute. repeat split. Qed.

(** ** The repository's tests, evaluated on the model *)

Module RepositoryTests.

Import TestData.

Example test_buildScaleUtils :
  buildScaleUtils testScales = Return su
  /\ scaleEntries su
     = [ ("", 1%float); ("T", 1000000000000%float); ("B", 1000000000%float);
         ("M", 1000000%float); ("k", 1000%float); ("K", 1000%float) ]
  /\ JSObject.get (lowerCaseScaleMap su) "k" = JSObject.Own ["k"; "K"]
  /\ bool_decide ("k" ∈ conflictingLowerCaseSuffixes su) = true.
Proof. vm_compute. repeat split. Qed.

Example test_parseScaled_numbers :
  parseScaled "123" su = Return {| value := 123; warning := None |}
  /\ parseScaled "0" su = Return {| value := 0; warning := None |}
  /\ parseScaled "1e9" su = Return {| value := 1e9; warning := None |}
  /\ parseScaled "1.5E6" su = Return {| value := 1.5e6; warning := None |}
  /\ parseScaled "499.99T" su
     = Return {| value := 499.99e12; warning := None |}.
Proof. vm_compute. repeat split. Qed.

Example test_parseScaled_suffix :
  parseScaled "1.5k" su
  = Return {| value := 1500; warning := Some (ambiguityWarning "k" ["K"]) |}
  /\ parseScaled "1k" su
     = Return {| value := 1000; warning := Some (ambiguityWarning "k" ["K"]) |}
  /\ includes (ambiguityWarning "k" ["K"]) "Ambiguous suffix" = true.
Proof. vm_compute. repeat split. Qed.

Example test_parseScaled_invalid :
  parseScaled "" su = Return {| value := 0; warning := Some "Empty input" |}
  /\ parseScaled "abc" su
     = Return {| value := 0; warning := Some "Invalid number format" |}
  /\ parseScaled "1.5x" su = Return {| value := 1.5; warning := None |}.
Proof. vm_compute. repeat split. Qed.

Example test_formatScaled :
  formatScaled 123 su = "123"
  /\ formatScaled 999 su = "999"
  /\ formatScaled 1200000000 su = "1.20 B"
  /\ formatScaled 1.2345e9 su = "1.23 B".
Proof. vm_compute. repeat split. Qed.

Example test_timeSeconds :
  timeSeconds 10 2 1000000 = 50000%float
  /\ timeSeconds 1 1 100 = 100%float
  /\ timeSeconds 0 1 100 = infinity
  /\ timeSeconds 1 0 100 = infinity
  /\ timeSeconds (-1) 1 100 = infinity.
Proof. vm_compute. repeat split. Qed.

Example test_processRunes :
  map ProcessedRune.time (processRunes testRunes 1 1 ProcessOptions.empty)
  = [Some 10%float; Some 1000000%float]
  /\ map ProcessedRune.isSpecial
       (processRunes testRunes 1 1 ProcessOptions.empty) = [false; false]
  /\ ids (processRunes testRunes 1 1
            (ProcessOptions.mk (Some "fast") None None)) = ["fast"]
  /\ ids (processRunes testRunes 100 1
            (ProcessOptions.mk None (Some true) None)) = ["slow"]
  /\ ids (processRunes testRunes 1 1
            (ProcessOptions.mk None None (Some asc))) = ["fast"; "slow"]
  /\ ids (processRunes testRunes 1 1
            (ProcessOptions.mk None None (Some desc))) = ["slow"; "fast"].
Proof. vm_compute. repeat split. Qed.

Example test_findNextUnderHour :
  findNextUnderHour
    [processed "instant" 0.5; processed "target" 1800; processed "long" 7200]
  = Some "target"
  /\ findNextUnderHour [processed "instant" 0.5; processed "long" 7200]
     = None.
Proof. vm_compute. repeat split. Qed.

Example test_formatTimeHuman :
  formatTimeHuman 0.5 = "Instant"
  /\ formatTimeHuman 0 = "Instant"
  /\ formatTimeHuman 45 = "45 seconds"
  /\ formatTimeHuman 1 = "1 second"
  /\ formatTimeHuman 90 = "1 minute, 30 seconds"
  /\ formatTimeHuman 125 = "2 minutes, 5 seconds"
  /\ formatTimeHuman 3665 = "1 hour, 1 minute, 5 seconds"
  /\ formatTimeHuman 7325 = "2 hours, 2 minutes, 5 seconds"
  /\ formatTimeHuman (24 * 60 * 60 + 3665) = "1 day, 1 hour, 1 minute"
  /\ formatTimeHuman infinity = "Never"
  /\ formatTimeHuman neg_infinity = "Never"
  /\ formatTimeHuman 1e30 = PLACEHOLDER.
Proof. vm_compute. repeat split. Qed.

End RepositoryTests.

(** * Further properties *)

Import Panel.

(** ** Signs and the order of numbers *)

Module OrderFacts.

Lemma binary_round_aux_nonneg (m e : Z) (l : location) :
  0 <= m -> nonnegative_result (binary_round_aux prec emax false m e l).
Proof.
  intros Hm. unfold binary_round_aux.
  pose proof (shr_fexp_nonneg m e l Hm) as H1.
  destruct (shr_fexp prec emax m e l) as [mrs' e']; cbn [fst] in H1.
  pose proof (round_nearest_even_ge (shr_m mrs') (loc_of_shr_record mrs')) as Hr.
  assert (H2 : 0 <= round_nearest_even (shr_m mrs') (loc_of_shr_record mrs'))
    by lia.
  pose proof (shr_fexp_nonneg _ e' loc_Exact H2) as H3.
  destruct (shr_fexp prec emax _ e' loc_Exact) as [mrs'' e'']; cbn [fst] in H3.
  destruct (shr_m mrs'') as [| p | p]; try reflexivity; try lia.
  now destruct (e'' <=? emax - prec).
Qed.

Lemma SFmul_nonneg (x y : spec_float) :
  SFltb (S754_zero false) x = true -> SFltb (S754_zero false) y = true ->
  nonnegative_result (SF64mul x y).
Proof.
  unfold SF64mul.
  destruct x as [sx | [] | | [] mx ex], y as [sy | [] | | [] my ey];
    cbn; try discriminate; intros _ _; try reflexivity.
  apply binary_round_aux_nonneg. lia.
Qed.

Lemma SFdiv_nonneg (m : positive) (e : Z) (y : spec_float) :
  nonnegative_result y ->
  nonnegative_result (SF64div (S754_finite false m e) y).
Proof.
  unfold SF64div.
  destruct y as [sy | sy | | sy my ey]; cbn [SFdiv nonnegative_result];
    try easy; intros ->; try reflexivity.
  cbn [xorb]. unfold SFdiv_core_binary.
  set (m' := match _ - _ with 0 => _ | Zpos _ => _ | Zneg _ => _ end).
  assert (Hm' : 0 <= m').
  { unfold m'. destruct (_ - _); try lia. apply Z.shiftl_nonneg. lia. }
  pose proof (Z_div_mod m' (Zpos my) eq_refl) as Hdm.
  destruct (Z.div_eucl m' (Zpos my)) as [q r].
  apply binary_round_aux_nonneg. nia.
Qed.

Lemma nonnegative_leb (x : float) :
  nonnegative_result (Prim2SF x) -> (0 <=? x)%float = true.
Proof.
  rewrite FloatAxioms.leb_spec. change (Prim2SF 0) with (S754_zero false).
  destruct (Prim2SF x) as [s | s | | s m e]; cbn; try easy; now intros ->.
Qed.

Lemma ltb_key (a b : float) :
  is_nan a = false -> is_nan b = false ->
  (a <? b)%float = (SFkey (Prim2SF a) <? SFkey (Prim2SF b)).
Proof.
  intros Ha Hb. rewrite FloatAxioms.ltb_spec. unfold SFltb.
  rewrite SFcompare_key by auto using Prim2SF_valid, not_nan_SF.
  unfold Z.ltb. now destruct (_ ?= _).
Qed.

(** On numbers that are not NaN, [a < b] is the negation of [b <= a]. *)
Lemma ltb_negb_leb (a b : float) :
  is_nan a = false -> is_nan b = false ->
  (a <? b)%float = negb (b <=? a)%float.
Proof.
  intros Ha Hb. rewrite ltb_key, leb_key by assumption.
  apply Z.ltb_antisym.
Qed.

Lemma leb_ltb_trans (a b c : float) :
  is_nan a = false -> is_nan b = false -> is_nan c = false ->
  (a <=? b)%float = true -> (b <? c)%float = true -> (a <? c)%float = true.
Proof.
  intros Ha Hb Hc. rewrite !ltb_key, leb_key by assumption.
  rewrite !Z.ltb_lt, Z.leb_le. lia.
Qed.

Lemma leb_refl (a : float) : is_nan a = false -> (a <=? a)%float = true.
Proof.
  intros Ha. rewrite leb_key by assumption. apply Z.leb_refl.
Qed.

End OrderFacts.

Import OrderFacts.

(** ** White space around the input *)

Module TrimFacts.

Lemma drop_white_all (ws : list ascii) :
  Forall (fun c => is_white c = true) ws -> drop_white ws = [].
Proof.
  induction 1 as [| c ws Hc _ IH]; [reflexivity |].
  cbn [drop_white]. now rewrite Hc.
Qed.

Lemma drop_white_app_l (ws l : list ascii) :
  Forall (fun c => is_white c = true) ws ->
  drop_white (ws ++ l) = drop_white l.
Proof.
  induction 1 as [| c ws Hc _ IH]; [reflexivity |].
  cbn [app drop_white]. now rewrite Hc.
Qed.

(** The characters [trim] keeps. *)
Definition trimmed_chars (l : list ascii) : list ascii :=
  rev (drop_white (rev (drop_white l))).

Lemma trim_chars (s : string) : trim s = str (trimmed_chars (chars s)).
Proof. reflexivity. Qed.

Lemma drop_white_split (l : list ascii) :
  exists ws, Forall (fun c => is_white c = true) ws
             /\ l = (ws ++ drop_white l)%list.
Proof.
  induction l as [| c l (ws & Hws & E)]; [now exists [] |].
  cbn [drop_white]. destruct (is_white c) eqn:Hc.
  - exists (c :: ws). split; [now constructor |]. cbn [app]. now f_equal.
  - now exists [].
Qed.

Lemma drop_white_head (l : list ascii) :
  match drop_white l with
  | [] => True
  | c :: _ => is_white c = false
  end.
Proof.
  induction l as [| c l IH]; [exact I |].
  cbn [drop_white]. now destruct (is_white c) eqn:Hc.
Qed.

Lemma drop_white_fixed (l : list ascii) :
  match l with [] => True | c :: _ => is_white c = false end ->
  drop_white l = l.
Proof.
  destruct l as [| c l]; [reflexivity |]. intros Hc.
  cbn [drop_white]. now rewrite Hc.
Qed.

(** What [trim] removes is white space at both ends. *)
Lemma trimmed_chars_split (l : list ascii) :
  exists ws1 ws2,
    Forall (fun c => is_white c = true) ws1
    /\ Forall (fun c => is_white c = true) ws2
    /\ l = (ws1 ++ trimmed_chars l ++ ws2)%list.
Proof.
  destruct (drop_white_split l) as (ws1 & H1 & E1).
  destruct (drop_white_split (rev (drop_white l))) as (ws2 & H2 & E2).
  exists ws1, (rev ws2). split; [assumption |]. split.
  - now apply Forall_rev.
  - unfold trimmed_chars. rewrite <- rev_app_distr, <- E2, rev_involutive.
    exact E1.
Qed.

(** What [trim] keeps starts and ends with a character that is not white
    space. *)
Lemma trimmed_chars_ends (l : list ascii) :
  match trimmed_chars l with [] => True | c :: _ => is_white c = false end
  /\ match rev (trimmed_chars l) with
     | [] => True
     | c :: _ => is_white c = false
     end.
Proof.
  unfold trimmed_chars. rewrite rev_involutive. split; [| apply drop_white_head].
  destruct (drop_white_split (rev (drop_white l))) as (ws & Hws & E).
  pose proof (drop_white_head l) as Hd.
  pose proof (drop_white_head (rev (drop_white l))) as Hr.
  set (d := drop_white l) in *. set (r := drop_white (rev d)) in *.
  assert (Ed : d = (rev r ++ rev ws)%list).
  { rewrite <- rev_app_distr, <- E. now rewrite rev_involutive. }
  destruct (rev r) as [| c t] eqn:Er; [exact I |].
  rewrite Ed in Hd. exact Hd.
Qed.

Lemma trimmed_chars_fixed (l : list ascii) :
  match l with [] => True | c :: _ => is_white c = false end ->
  match rev l with [] => True | c :: _ => is_white c = false end ->
  trimmed_chars l = l.
Proof.
  intros H1 H2. unfold trimmed_chars.
  rewrite (drop_white_fixed l H1), (drop_white_fixed (rev l) H2).
  apply rev_involutive.
Qed.

Lemma trimmed_chars_white (ws : list ascii) :
  Forall (fun c => is_white c = true) ws -> trimmed_chars ws = [].
Proof.
  intros H. unfold trimmed_chars. now rewrite (drop_white_all ws H).
Qed.

(** White space added at either end does not change what [trim] keeps. *)
Lemma trimmed_chars_padded (ws1 l ws2 : list ascii) :
  Forall (fun c => is_white c = true) ws1 ->
  Forall (fun c => is_white c = true) ws2 ->
  trimmed_chars (ws1 ++ l ++ ws2) = trimmed_chars l.
Proof.
  intros H1 H2.
  destruct (trimmed_chars_split l) as (w1 & w2 & Hw1 & Hw2 & E).
  pose proof (trimmed_chars_ends l) as [Hh Ht].
  set (t := trimmed_chars l) in *.
  rewrite E at 1. clearbody t. clear E.
  unfold trimmed_chars.
  assert (EQ : (ws1 ++ (w1 ++ t ++ w2) ++ ws2
                = (ws1 ++ w1) ++ t ++ (w2 ++ ws2))%list)
    by now rewrite <- !app_assoc.
  rewrite EQ.
  rewrite drop_white_app_l by now apply Forall_app_2.
  destruct t as [| c t].
  - cbn [app]. rewrite (drop_white_all (w2 ++ ws2)) by now apply Forall_app_2.
    reflexivity.
  - cbn [app]. rewrite (drop_white_id c _ Hh).
    change (c :: t ++ w2 ++ ws2)%list with ((c :: t) ++ (w2 ++ ws2))%list.
    rewrite rev_app_distr.
    rewrite drop_white_app_l by now apply Forall_rev, Forall_app_2.
    rewrite (drop_white_fixed _ Ht).
    apply rev_involutive.
Qed.

Lemma trim_padded (ws1 ws2 : list ascii) (input : string) :
  Forall (fun c => is_white c = true) ws1 ->
  Forall (fun c => is_white c = true) ws2 ->
  trim (str (ws1 ++ chars input ++ ws2)) = trim input.
Proof.
  intros H1 H2. rewrite !trim_chars, chars_str.
  now rewrite trimmed_chars_padded.
Qed.

Lemma trim_idempotent (input : string) : trim (trim input) = trim input.
Proof.
  rewrite (trim_chars input), trim_chars, chars_str. f_equal.
  apply trimmed_chars_fixed; apply trimmed_chars_ends.
Qed.

Lemma trim_white (input : string) :
  Forall (fun c => is_white c = true) (chars input) -> trim input = "".
Proof.
  intros H. rewrite trim_chars. now rewrite trimmed_chars_white.
Qed.

(** A character that is not white space survives [trim]. *)
Lemma trimmed_chars_keeps (c : ascii) (l : list ascii) :
  is_white c = false -> In c l -> In c (trimmed_chars l).
Proof.
  intros Hc Hin.
  destruct (trimmed_chars_split l) as (w1 & w2 & Hw1 & Hw2 & E).
  rewrite E in Hin.
  rewrite !in_app_iff in Hin.
  rewrite List.Forall_forall in Hw1, Hw2.
  destruct Hin as [Hin | [Hin | Hin]]; [| assumption |].
  - apply Hw1 in Hin. congruence.
  - apply Hw2 in Hin. congruence.
Qed.

End TrimFacts.

Import TrimFacts.

(** X1: for every input made of white space only (the empty string
    included) and whatever the scale utilities, parseScaled returns the
    value 0 with the warning Empty input. *)
Theorem parseScaled_blank (input : string) (su : ScaleUtils) :
  Forall (fun c => is_white c = true) (chars input) ->
  parseScaled input su
  = Return {| value := 0%float; warning := Some "Empty input" |}.
Proof.
  intros H. unfold parseScaled. now rewrite (trim_white input H).
Qed.

Lemma parseScaled_blank_witness :
  parseScaled "  " TestData.su
  = Return {| value := 0%float; warning := Some "Empty input" |}.
Proof.
  apply (parseScaled_blank "  " TestData.su).
  repeat constructor.
Defined.

(** X2: white space around the input is ignored: parseScaled returns for
    an input padded with white space on either side what it returns for the
    input, and for the trimmed input what it returns for the input. *)
Theorem parseScaled_padding (input : string) (ws1 ws2 : list ascii)
    (su : ScaleUtils) :
  Forall (fun c => is_white c = true) ws1 ->
  Forall (fun c => is_white c = true) ws2 ->
  parseScaled (str (ws1 ++ chars input ++ ws2)) su = parseScaled input su
  /\ parseScaled (trim input) su = parseScaled input su.
Proof.
  intros H1 H2. unfold parseScaled.
  now rewrite (trim_padded ws1 ws2 input H1 H2), trim_idempotent.
Qed.

Lemma parseScaled_padding_witness :
  parseScaled (str ([" "%char] ++ chars "1.5M" ++ [" "%char; " "%char]))
    TestData.su
  = parseScaled "1.5M" TestData.su
  /\ parseScaled (trim "1.5M") TestData.su = parseScaled "1.5M" TestData.su.
Proof.
  apply (parseScaled_padding "1.5M" [" "%char] [" "%char; " "%char]
           TestData.su); repeat constructor.
Defined.

Lemma includes_letter (c : ascii) (s : string) :
  In c (chars s) -> includes s (str [c]) = true.
Proof.
  intros H. unfold includes. rewrite chars_str, includes_char.
  apply existsb_exists. exists c. split; [assumption | apply Ascii.eqb_refl].
Qed.

(** X3: an input that holds the letter e or E anywhere, in a suffix too,
    is read as scientific notation, whatever the table: the result is the
    number parseFloat reads from the trimmed input, with no warning, when
    that number is finite, and otherwise 0 with the warning Invalid
    scientific notation.  So a suffix that holds an e is never applied. *)
Theorem parseScaled_letter_e (input : string) (c : ascii) (su : ScaleUtils) :
  In c (chars input) -> c = "e"%char \/ c = "E"%char ->
  parseScaled input su = Return (scientificResult (trim input)).
Proof.
  intros Hin Hc.
  assert (Hw : is_white c = false) by (destruct Hc as [-> | ->]; reflexivity).
  assert (Ht : In c (chars (trim input))).
  { rewrite trim_chars, chars_str. now apply trimmed_chars_keeps. }
  assert (Hne : truthy (trim input) = true).
  { destruct (trim input); [destruct Ht | reflexivity]. }
  apply includes_letter in Ht.
  unfold parseScaled, scientificResult. rewrite Hne, not_finite. cbn [negb].
  assert (He : includes (trim input) "e" || includes (trim input) "E" = true).
  { destruct Hc as [-> | ->]; change (str ["e"%char]) with "e" in Ht;
      change (str ["E"%char]) with "E" in Ht; rewrite Ht;
      [reflexivity | apply orb_true_r]. }
  rewrite He. now destruct (isFinite (parseFloat (trim input))).
Qed.

Lemma parseScaled_letter_e_witness :
  parseScaled "2De" (builtUtils [("De", 1e33%float)])
  = Return (scientificResult (trim "2De")).
Proof.
  apply (parseScaled_letter_e "2De" "e"%char
           (builtUtils [("De", 1e33%float)])).
  - vm_compute. auto.
  - now left.
Defined.

Example parseScaled_suffix_with_e :
  bind (buildScaleUtils [("", 1%float); ("De", 1e33%float)])
    (parseScaled "2De")
  = Return {| value := 2%float; warning := None |}.
Proof. vm_compute. reflexivity. Qed.

(** ** Inputs without a digit *)

Lemma span_digits_no_digit (l : list ascii) :
  Forall (fun c => is_digit c = false) l -> span_digits l = ([], l).
Proof.
  intros H. destruct H as [| c l Hc _]; [reflexivity |].
  cbn [span_digits]. now rewrite Hc.
Qed.

Lemma parse_unsigned_no_digit (l : list ascii) :
  Forall (fun c => is_digit c = false) l ->
  parse_unsigned l = nan \/ parse_unsigned l = infinity.
Proof.
  intros H. unfold parse_unsigned.
  destruct (is_prefix (chars "Infinity") l); [now right |]. left.
  rewrite (span_digits_no_digit l H).
  destruct H as [| c l Hc Hl]; [reflexivity |].
  destruct (Ascii.eqb_spec c ".") as [-> | Hne].
  - now rewrite (span_digits_no_digit l Hl).
  - destruct c as [[] [] [] [] [] [] [] []]; try reflexivity.
    now contradiction Hne.
Qed.

Lemma parseFloat_no_digit (s : string) :
  Forall (fun c => is_digit c = false) (chars s) ->
  isFinite (parseFloat s) = false.
Proof.
  intros H. unfold parseFloat.
  destruct (drop_white_split (chars s)) as (ws & _ & E).
  assert (Hd : Forall (fun c => is_digit c = false) (drop_white (chars s))).
  { rewrite E in H. now apply Forall_app in H as [_ H]. }
  assert (Hcases : forall l, Forall (fun c => is_digit c = false) l ->
            isFinite (parse_unsigned l) = false
            /\ isFinite (- parse_unsigned l)%float = false).
  { intros l Hl. destruct (parse_unsigned_no_digit l Hl) as [-> | ->];
      split; reflexivity. }
  destruct (drop_white (chars s)) as [| c r]; [now apply Hcases |].
  pose proof (Hcases (c :: r) Hd) as [H1 _].
  apply List.Forall_cons_iff in Hd as [_ Hr].
  pose proof (Hcases r Hr) as [H2 H3].
  destruct c as [[] [] [] [] [] [] [] []]; assumption.
Qed.

Lemma slice0_chars (s : string) (e : Z) :
  exists n, chars (slice0 s e) = take n (chars s).
Proof.
  unfold slice0. rewrite chars_str. eauto.
Qed.

Lemma take_Forall {A : Type} (P : A -> Prop) (n : nat) (l : list A) :
  Forall P l -> Forall P (take n l).
Proof.
  intros H. revert n. induction H as [| a l Ha _ IH]; intros [| n];
    cbn [take]; constructor; auto.
Qed.

(** X4: an input that holds no digit never parses: whatever the scale
    utilities, parseScaled returns 0 with one of the warnings Empty input,
    Invalid scientific notation and Invalid number format. *)
Theorem parseScaled_needs_digit (input : string) (su : ScaleUtils) :
  Forall (fun c => is_digit c = false) (chars input) ->
  exists w,
    parseScaled input su
    = Return {| value := 0%float; warning := Some w |}
    /\ (w = "Empty input" \/ w = "Invalid scientific notation"
        \/ w = "Invalid number format").
Proof.
  intros H.
  assert (Ht : Forall (fun c => is_digit c = false) (chars (trim input))).
  { rewrite trim_chars, chars_str.
    destruct (trimmed_chars_split (chars input)) as (w1 & w2 & _ & _ & E).
    rewrite E in H. apply Forall_app in H as [_ H].
    now apply Forall_app in H as [H _]. }
  pose proof (parseFloat_no_digit _ Ht) as Hnum.
  unfold parseScaled. rewrite !not_finite.
  destruct (truthy (trim input)); cbn [negb]; [| eauto].
  destruct (includes (trim input) "e" || includes (trim input) "E").
  { rewrite Hnum. cbn [negb]. eauto 6. }
  rewrite matchSuffix_none.
  - cbv beta iota zeta. cbn [String.eqb].
    rewrite ?not_finite, Hnum. cbn [negb]. eauto 6.
  - apply List.Forall_forall. intros [s m] _. cbn [fst]. unfold accepts.
    rewrite parseFloat_no_digit; [apply andb_false_r |].
    unfold stripSuffix.
    destruct (slice0_chars (trim input) (- Z.of_nat (String.length s)))
      as [n ->].
    now apply take_Forall.
Qed.

Lemma parseScaled_needs_digit_witness :
  exists w,
    parseScaled "M" TestData.su
    = Return {| value := 0%float; warning := Some w |}
    /\ (w = "Empty input" \/ w = "Invalid scientific notation"
        \/ w = "Invalid number format").
Proof.
  apply (parseScaled_needs_digit "M" TestData.su).
  repeat constructor.
Defined.

(** ** The warnings of parseScaled *)

(** X5: for every input and every table (the utilities buildScaleUtils
    returns for it), the warning parseScaled returns is null, Empty input, Invalid scientific notation, Invalid number
    format, Result too large, or an ambiguity warning that lists at least
    one alternative; the warning Invalid number part before suffix is never
    returned, since the loop keeps a suffix only when the text before it
    parses as a finite number. *)
Theorem parseScaled_warnings (input : string) (scales : Scales)
    (su : ScaleUtils) :
  buildScaleUtils scales = Return su ->
  exists r,
    parseScaled input su = Return r
    /\ (warning r = None
        \/ warning r = Some "Empty input"
        \/ warning r = Some "Invalid scientific notation"
        \/ warning r = Some "Invalid number format"
        \/ warning r = Some "Result too large"
        \/ exists suffix alternatives,
             alternatives <> []
             /\ warning r = Some (ambiguityWarning suffix alternatives))
    /\ warning r <> Some "Invalid number part before suffix".
Proof.
  intros Hsu. apply buildScaleUtils_built in Hsu. subst su.
  destruct (parseScaled_returns input scales) as [r Hr].
  exists r. split; [assumption |].
  revert Hr. unfold parseScaled. rewrite !not_finite.
  destruct (truthy (trim input)); cbn [negb].
  2: { intros [= <-]. cbn. split; [tauto | discriminate]. }
  destruct (includes (trim input) "e" || includes (trim input) "E").
  { destruct (isFinite (parseFloat (trim input))); cbn [negb];
      intros [= <-]; cbn; (split; [tauto | discriminate]). }
  destruct (matchSuffix_inv (trim input)
              (scaleEntries (builtUtils scales)))
    as [[H1 _] | (pre & s & m & post & _ & _ & Hacc & H1)]; rewrite H1;
    cbv beta iota zeta.
  { cbn [String.eqb].
    destruct (isFinite (parseFloat (trim input))); cbn [negb];
      intros [= <-]; cbn; (split; [tauto | discriminate]). }
  pose proof (accepts_nonempty _ _ Hacc) as Hs.
  apply String.eqb_neq in Hs. rewrite Hs.
  unfold accepts in Hacc. apply andb_prop in Hacc as [_ Hfin].
  rewrite not_finite, Hfin. cbn [negb].
  destruct (isFinite (parseFloat (stripSuffix (trim input) s) * m));
    cbn [negb].
  2: { intros [= <-]. cbn. split; [tauto | discriminate]. }
  destruct (bool_decide _).
  2: { intros [= <-]. cbn. split; [tauto | discriminate]. }
  destruct (JSObject.get _ _) as [group | |]; [| discriminate | discriminate].
  destruct (List.filter _ group) as [| a alternatives] eqn:F; cbn [length Nat.ltb Nat.leb].
  { intros [= <-]. cbn. split; [tauto | discriminate]. }
  intros [= <-]. cbn [warning]. split.
  - do 5 right. exists s, (a :: alternatives). split; [discriminate | reflexivity].
  - unfold ambiguityWarning. intros [= H].
Qed.

Lemma parseScaled_warnings_witness :
  buildScaleUtils testScales = Return TestData.su
  /\ exists r,
    parseScaled "1.5k" TestData.su = Return r
    /\ (warning r = None
        \/ warning r = Some "Empty input"
        \/ warning r = Some "Invalid scientific notation"
        \/ warning r = Some "Invalid number format"
        \/ warning r = Some "Result too large"
        \/ exists suffix alternatives,
             alternatives <> []
             /\ warning r = Some (ambiguityWarning suffix alternatives))
    /\ warning r <> Some "Invalid number part before suffix".
Proof.
  split; [vm_compute; reflexivity |].
  apply (parseScaled_warnings "1.5k" testScales). vm_compute. reflexivity.
Defined.

(** ** The lowercase map and the conflicts *)

Lemma groupOf_perm (k : string) (L1 L2 : list string) :
  Permutation L1 L2 -> Permutation (groupOf k L1) (groupOf k L2).
Proof.
  intros H. unfold groupOf.
  induction H as [| x l l' _ IH | x y l | l l' l'' _ IH1 _ IH2];
    cbn [List.filter].
  - constructor.
  - destruct (String.eqb _ k); [now constructor | assumption].
  - destruct (String.eqb (toLowerCase x) k), (String.eqb (toLowerCase y) k);
      try reflexivity. apply perm_swap.
  - now transitivity (List.filter (fun s => String.eqb (toLowerCase s) k) l').
Qed.

(** X6: buildScaleUtils throws a TypeError exactly when some suffix of the
    table lowercases to constructor or to __proto__, names the plain object
    lowerCaseScaleMap inherits; otherwise the lowercase map and the
    conflict set it builds are exact.  For every key k, with the spellings
    of k being the non-empty suffixes of the table whose lowercase form is
    k: k is in conflictingLowerCaseSuffixes exactly when k has at least two
    spellings; lowerCaseScaleMap[k] is undefined exactly when k has no
    spelling and is no inherited name; it is an inherited member exactly
    when k is an inherited name; and otherwise it is a non-empty list, a
    permutation of the spellings of k. *)
Theorem buildScaleUtils_conflicts (scales : Scales) :
  (buildScaleUtils scales = TypeError <->
   exists s, In s (map fst scales)
             /\ (toLowerCase s = "constructor"
                 \/ toLowerCase s = "__proto__"))
  /\ forall su, buildScaleUtils scales = Return su ->
     forall k,
       let spellings := groupOf k (map fst (nonEmptyEntries scales)) in
       let found := JSObject.get (lowerCaseScaleMap su) k in
       (k ∈ conflictingLowerCaseSuffixes su <-> (1 < length spellings)%nat)
       /\ (found = JSObject.Undefined <->
           spellings = [] /\ JSObject.inherited k = false)
       /\ (found = JSObject.Inherited <-> JSObject.inherited k = true)
       /\ (spellings <> [] -> exists g, found = JSObject.Own g)
       /\ (forall g, found = JSObject.Own g ->
             g <> [] /\ Permutation g spellings
             /\ Forall (fun s => toLowerCase s = k) g).
Proof.
  split.
  { rewrite <- meetsInherited_spec, buildScaleUtils_spec.
    destruct (meetsInherited scales); split; congruence. }
  intros su Hsu k spellings found.
  pose proof Hsu as Hmeets. rewrite buildScaleUtils_spec in Hmeets.
  destruct (meetsInherited scales) eqn:Hnone; [discriminate Hmeets |].
  clear Hmeets. apply buildScaleUtils_built in Hsu. subst su.
  destruct (builtUtils_groups scales) as [_ Hc].
  assert (HP : Permutation (groupOf k (map fst (sortedEntries scales)))
                 spellings).
  { apply groupOf_perm, Permutation_map, sortedEntries_perm. }
  assert (Hfound : found =
    match groupOf k (map fst (sortedEntries scales)) with
    | [] => if JSObject.inherited k then JSObject.Inherited
            else JSObject.Undefined
    | g => JSObject.Own g
    end) by apply builtUtils_get.
  set (g0 := groupOf k (map fst (sortedEntries scales))) in *.
  assert (Hinh : JSObject.inherited k = true -> g0 = []).
  { intros Hk. destruct g0 as [| s g1] eqn:E; [reflexivity |].
    exfalso.
    assert (Hs : In s spellings)
      by (apply (Permutation_in s HP); now left).
    unfold spellings, groupOf in Hs. apply filter_In in Hs as [Hs Hlow].
    apply String.eqb_eq in Hlow. subst k.
    apply in_map_iff in Hs as (e & <- & He).
    apply filter_In in He as [He _].
    assert (T : meetsInherited scales = true).
    { unfold meetsInherited. apply existsb_exists. now exists e. }
    congruence. }
  assert (Hnil : g0 = [] <-> spellings = []).
  { split; intros E.
    - rewrite E in HP. now apply Permutation_nil in HP.
    - rewrite E in HP. symmetry in HP. now apply Permutation_nil in HP. }
  split; [| split; [| split; [| split]]].
  - rewrite Hc. fold g0. now rewrite (Permutation_length HP).
  - rewrite Hfound, <- Hnil.
    destruct g0 as [| a g1]; [| split; [discriminate | intros [? _]; discriminate]].
    destruct (JSObject.inherited k); split; try discriminate; try tauto.
    intros [_ ?]; discriminate.
  - rewrite Hfound. destruct (JSObject.inherited k) eqn:Hk.
    + rewrite (Hinh eq_refl). tauto.
    + destruct g0; split; discriminate.
  - rewrite Hfound, <- Hnil. destruct g0 as [| a g1]; [tauto | eauto].
  - intros g. rewrite Hfound. intros Hg.
    assert (E : g = g0 /\ g0 <> []).
    { destruct g0; [now destruct (JSObject.inherited k) |].
      split; [congruence | discriminate]. }
    destruct E as [-> Hne]. split; [assumption |]. split; [assumption |].
    apply List.Forall_forall. intros s Hs. unfold g0, groupOf in Hs.
    apply filter_In in Hs as [_ Hs]. now apply String.eqb_eq.
Qed.

(** ** formatScaled *)

Lemma formatWith_scan (num absNum : number) (sign : string)
    (entries : list (string * number)) :
  (Forall (fun e => reached absNum e = false) entries
   /\ formatWith num absNum sign entries = toString num)
  \/ exists pre s m post,
       entries = (pre ++ (s, m) :: post)%list
       /\ Forall (fun e => reached absNum e = false) pre
       /\ reached absNum (s, m) = true
       /\ formatWith num absNum sign entries
          = (sign ++ toPrecision (absNum / m) 3 ++ " " ++ s)%string.
Proof.
  induction entries as [| [s m] rest IH].
  - left. split; [constructor | reflexivity].
  - destruct (reached absNum (s, m)) eqn:E.
    + right. exists [], s, m, rest. split; [reflexivity |].
      split; [constructor |]. split; [assumption |].
      now apply (formatWith_first num absNum sign s m [] rest).
    + assert (Hs : formatWith num absNum sign ((s, m) :: rest)
                   = formatWith num absNum sign rest).
      { cbn [formatWith]. unfold reached in E. cbn [fst snd] in E.
        now rewrite E. }
      rewrite Hs.
      destruct IH as [[H1 H2] | (pre & s' & m' & post & -> & H1 & H2 & H3)].
      * left. split; [now constructor | assumption].
      * right. exists ((s, m) :: pre), s', m', post.
        split; [reflexivity |]. split; [now constructor |]. now split.
Qed.

Lemma reached_in_sorted (absNum : number) (scales : Scales)
    (e : string * number) :
  In e scales -> reached absNum e = true -> In e (sortedEntries scales).
Proof.
  intros Hin Hr.
  apply (Permutation_in e (Permutation_sym (sortedEntries_perm scales))).
  apply filter_In. split; [assumption |].
  unfold reached in Hr. apply andb_prop in Hr as [Hr _].
  now rewrite truthy_eqb in Hr.
Qed.

(** X7: for a table whose multipliers are not NaN and a finite number of
    absolute value at least 1000, formatScaled uses the largest multiplier
    the absolute value reaches: either no non-empty suffix of the table has
    a multiplier up to the absolute value and the number is printed by
    toString, or the result is the sign, the absolute value divided by a
    multiplier m of the table to three significant digits, a space and the
    suffix of m, and every non-empty suffix whose multiplier the absolute
    value reaches has a multiplier up to m. *)
Theorem formatScaled_largest_suffix (x : number) (scales : Scales)
    (su : ScaleUtils) :
  buildScaleUtils scales = Return su ->
  Forall (fun e => isNaN (snd e) = false) scales ->
  isFinite x = true -> lt (Math_abs x) 1000 = false ->
  let absNum := Math_abs x in
  (Forall (fun e => reached absNum e = false) scales
   /\ formatScaled x su = toString x)
  \/ exists s m,
       In (s, m) scales /\ reached absNum (s, m) = true
       /\ formatScaled x su
          = ((if lt x 0 then "-" else "")
             ++ toPrecision (absNum / m) 3 ++ " " ++ s)%string
       /\ Forall (fun e => reached absNum e = true -> ge m (snd e) = true)
            scales.
Proof.
  intros Hsu. apply buildScaleUtils_built in Hsu. subst su.
  set (su := builtUtils scales).
  intros Hnan Hfin Hbig absNum.
  assert (Hf : formatScaled x su
               = formatWith x absNum (if lt x 0 then "-" else "")
                   (sortedEntries scales)).
  { unfold formatScaled. rewrite Hfin, (abs_large_nonzero x Hbig).
    cbn [negb orb]. rewrite Hbig.
    unfold su. now rewrite builtUtils_entries. }
  rewrite Hf.
  destruct (formatWith_scan x absNum (if lt x 0 then "-" else "")
              (sortedEntries scales))
    as [[H1 H2] | (pre & s & m & post & E & H1 & H2 & H3)].
  - left. split; [| assumption].
    apply List.Forall_forall. intros e He.
    destruct (reached absNum e) eqn:R; [| reflexivity].
    rewrite List.Forall_forall in H1.
    rewrite (H1 e (reached_in_sorted absNum scales e He R)) in R.
    discriminate R.
  - right. exists s, m.
    assert (Hin : In (s, m) (sortedEntries scales))
      by (rewrite E; apply in_elt).
    assert (Hin' : In (s, m) scales).
    { apply (Permutation_in _ (sortedEntries_perm scales)) in Hin.
      now apply filter_In in Hin. }
    split; [assumption |]. split; [assumption |]. split; [assumption |].
    pose proof (sortedEntries_strongly_sorted scales Hnan) as Hs.
    rewrite E in Hs. apply StronglySorted_app_r in Hs.
    apply StronglySorted_inv in Hs as [_ Hpost].
    rewrite List.Forall_forall in Hnan, H1, Hpost.
    apply List.Forall_forall. intros e He R.
    pose proof (reached_in_sorted absNum scales e He R) as Hse.
    rewrite E in Hse. apply in_app_or in Hse as [Hse | [<- | Hse]].
    + rewrite (H1 e Hse) in R. discriminate R.
    + unfold ge. apply leb_refl. exact (Hnan _ Hin').
    + exact (Hpost e Hse).
Qed.

Lemma formatScaled_largest_suffix_witness :
  let x := 2500000%float in
  let su := TestData.su in
  let absNum := Math_abs x in
  buildScaleUtils testScales = Return su
  /\ ((Forall (fun e => reached absNum e = false) testScales
       /\ formatScaled x su = toString x)
      \/ exists s m,
           In (s, m) testScales /\ reached absNum (s, m) = true
           /\ formatScaled x su
              = ((if lt x 0 then "-" else "")
                 ++ toPrecision (absNum / m) 3 ++ " " ++ s)%string
           /\ Forall (fun e => reached absNum e = true ->
                               ge m (snd e) = true)
                testScales).
Proof.
  split; [vm_compute; reflexivity |].
  apply (formatScaled_largest_suffix 2500000%float testScales TestData.su).
  - vm_compute; reflexivity.
  - repeat constructor.
  - reflexivity.
  - reflexivity.
Defined.

(** *** Negative numbers *)

Lemma positive_SF (x : number) :
  lt 0 x = true ->
  Prim2SF x = S754_infinity false
  \/ exists m e, Prim2SF x = S754_finite false m e.
Proof.
  unfold lt. rewrite FloatAxioms.ltb_spec.
  change (Prim2SF 0) with (S754_zero false).
  destruct (Prim2SF x) as [s | [] | | [] m e]; cbn; try discriminate; eauto.
Qed.

Lemma abs_opp (x : number) : Math_abs (- x) = Math_abs x.
Proof.
  unfold Math_abs. apply Prim2SF_inj. rewrite !abs_spec, opp_spec.
  now destruct (Prim2SF x).
Qed.

Lemma formatWith_sign (a b : number) (absNum : number)
    (entries : list (string * number)) :
  toString a = ("-" ++ toString b)%string ->
  formatWith a absNum "-" entries
  = ("-" ++ formatWith b absNum "" entries)%string.
Proof.
  intros H. induction entries as [| [s m] rest IH]; cbn [formatWith];
    [assumption |].
  now destruct (truthy s && ge absNum m).
Qed.

(** X8: formatScaled of the opposite of a positive number (an infinity
    included) is the minus sign followed by formatScaled of the number. *)
Theorem formatScaled_negative (x : number) (su : ScaleUtils) :
  lt 0 x = true ->
  formatScaled (- x) su = ("-" ++ formatScaled x su)%string.
Proof.
  intros Hpos.
  assert (HS : Prim2SF (- x) = SFopp (Prim2SF x)) by apply opp_spec.
  assert (Hts : toString (- x) = ("-" ++ toString x)%string).
  { unfold toString. rewrite HS.
    fold (Math_abs (- x)). fold (Math_abs x). rewrite abs_opp.
    destruct (positive_SF x Hpos) as [E | (m & e & E)]; rewrite E;
      reflexivity. }
  assert (Hf : isFinite (- x) = isFinite x).
  { assert (N1 : is_nan x = false).
    { apply SF_not_nan.
      destruct (positive_SF x Hpos) as [E | (m & e & E)]; rewrite E;
        discriminate. }
    assert (N2 : is_nan (- x) = false).
    { apply SF_not_nan. rewrite HS.
      destruct (positive_SF x Hpos) as [E | (m & e & E)]; rewrite E;
        discriminate. }
    unfold isFinite, is_finite, is_infinity. rewrite N1, N2.
    fold (Math_abs (- x)). fold (Math_abs x). now rewrite abs_opp. }
  assert (Hz : strict_eq (- x) 0 = false /\ strict_eq x 0 = false).
  { unfold strict_eq. rewrite !FloatAxioms.eqb_spec, HS.
    change (Prim2SF 0) with (S754_zero false).
    destruct (positive_SF x Hpos) as [E | (m & e & E)]; rewrite E;
      split; reflexivity. }
  assert (Hl : lt (- x) 0 = true /\ lt x 0 = false).
  { unfold lt. rewrite !FloatAxioms.ltb_spec, HS.
    change (Prim2SF 0) with (S754_zero false).
    destruct (positive_SF x Hpos) as [E | (m & e & E)]; rewrite E;
      split; reflexivity. }
  destruct Hz as [Hz1 Hz2], Hl as [Hl1 Hl2].
  unfold formatScaled. rewrite Hf, Hz1, Hz2, Hl1, Hl2, abs_opp.
  destruct (isFinite x); cbn [negb orb]; [| assumption].
  destruct (lt (Math_abs x) 1000); [assumption |].
  now apply formatWith_sign.
Qed.

Lemma formatScaled_negative_witness :
  formatScaled (- 1500000)%float TestData.su
  = ("-" ++ formatScaled 1500000%float TestData.su)%string.
Proof.
  apply (formatScaled_negative 1500000%float TestData.su).
  reflexivity.
Defined.

(** ** The time formula, again *)

(** X9: when rate and luck are not NaN and the chance is finite,
    timeSeconds is never NaN and never negative. *)
Theorem timeSeconds_nonnegative (rps luck n : number) :
  isNaN rps = false -> isNaN luck = false -> isFinite n = true ->
  isNaN (timeSeconds rps luck n) = false
  /\ ge (timeSeconds rps luck n) 0 = true.
Proof.
  intros Hr Hl Hn.
  split; [now apply timeSeconds_not_nan |].
  unfold isNaN, isFinite, timeSeconds, le, ge in *.
  destruct (rps <=? 0)%float eqn:Er; [reflexivity |].
  destruct (luck <=? 0)%float eqn:El; [reflexivity |].
  destruct (n <=? 0)%float eqn:En; [reflexivity |].
  cbn [orb].
  assert (Hnn : is_nan n = false).
  { unfold is_finite in Hn. now destruct (is_nan n). }
  apply nonnegative_leb. rewrite div_spec, mul_spec.
  pose proof (leb_false_pos _ Hr Er) as Pr.
  pose proof (leb_false_pos _ Hl El) as Pl.
  pose proof (leb_false_pos _ Hnn En) as Pn.
  pose proof (SFmul_nonneg _ _ Pr Pl) as Hm.
  destruct (is_finite_SF _ Hn) as [[s E] | (s & m & e & E)];
    rewrite E in Pn |- *.
  - destruct s; discriminate Pn.
  - destruct s; [discriminate Pn |]. now apply SFdiv_nonneg.
Qed.

Lemma timeSeconds_nonnegative_witness :
  isNaN (timeSeconds 10 2 1000000) = false
  /\ ge (timeSeconds 10 2 1000000) 0 = true.
Proof.
  apply (timeSeconds_nonnegative 10 2 1000000); reflexivity.
Defined.

Lemma mul_comm (a b : float) : (a * b)%float = (b * a)%float.
Proof.
  apply Prim2SF_inj. rewrite !mul_spec. unfold SF64mul, SFmul.
  destruct (Prim2SF a) as [sa | sa | | sa ma ea],
    (Prim2SF b) as [sb | sb | | sb mb eb];
    try reflexivity; try (now rewrite xorb_comm).
  now rewrite xorb_comm, Pos.mul_comm, Z.add_comm.
Qed.

(** X10: rate and luck are interchangeable in timeSeconds. *)
Theorem timeSeconds_symmetric (rps luck n : number) :
  timeSeconds rps luck n = timeSeconds luck rps n.
Proof.
  unfold timeSeconds. rewrite (mul_comm rps luck).
  now destruct (le rps 0), (le luck 0).
Qed.

(** ** The filters of processRunes *)

Lemma filter_sublist {A : Type} (P : A -> bool) (l : list A) :
  sublist (List.filter P l) l.
Proof.
  induction l as [| a l IH]; cbn [List.filter]; [constructor |].
  destruct (P a); now constructor.
Qed.

Lemma filterRunes_sublist (runes : list RuneRecord.t) (rps luck : number)
    (opts : ProcessOptions.t) :
  sublist (filterRunes runes rps luck opts) (map (processRune rps luck) runes).
Proof.
  unfold filterRunes.
  destruct (ProcessOptions.text opts) as [text |],
    (ProcessOptions.hideInstant opts) as [[] |];
    try destruct (truthy text);
    repeat (etransitivity; [apply filter_sublist |]); reflexivity.
Qed.

Lemma map_sublist {A B : Type} (f : A -> B) (l k : list A) :
  sublist l k -> sublist (map f l) (map f k).
Proof.
  induction 1; cbn [map]; now constructor.
Qed.

Lemma map_rune_processRune (rps luck : number) (runes : list RuneRecord.t) :
  map ProcessedRune.rune (map (processRune rps luck) runes) = runes.
Proof.
  induction runes as [| r runes IH]; [reflexivity |].
  cbn [map]. now rewrite IH.
Qed.

(** X11: the filters of processRunes never reorder or duplicate: without
    a sort the runes of the result are a subsequence of the input list;
    with a sort the result is a permutation of the unsorted result; the
    result is never longer than the input; and when the text is absent or
    empty and hideInstant is not set, the unsorted result holds every rune
    of the input, in order. *)
Theorem processRunes_keeps_order (runes : list RuneRecord.t)
    (rps luck : number) (text : option string) (hide : option bool)
    (sort : option SortOrder) :
  let unsorted :=
    processRunes runes rps luck (ProcessOptions.mk text hide None) in
  let out := processRunes runes rps luck (ProcessOptions.mk text hide sort) in
  sublist (map ProcessedRune.rune unsorted) runes
  /\ Permutation out unsorted
  /\ (length out <= length runes)%nat
  /\ (hide <> Some true -> (forall t, text = Some t -> t = "") ->
      map ProcessedRune.rune unsorted = runes).
Proof.
  intros unsorted out.
  assert (Hsub : sublist (map ProcessedRune.rune unsorted) runes).
  { unfold unsorted, processRunes. cbn [ProcessOptions.sort].
    rewrite <- (map_rune_processRune rps luck runes) at 2.
    apply map_sublist, filterRunes_sublist. }
  assert (Hperm : Permutation out unsorted).
  { unfold out, unsorted, processRunes. cbn [ProcessOptions.sort].
    destruct sort as [order |]; [| reflexivity].
    apply SortFacts.sort_perm. }
  split; [exact Hsub |]. split; [exact Hperm |]. split.
  - rewrite (Permutation_length Hperm).
    rewrite <- (length_map ProcessedRune.rune unsorted).
    now apply sublist_length.
  - intros Hhide Htext. unfold unsorted, processRunes, filterRunes.
    cbn [ProcessOptions.sort ProcessOptions.text ProcessOptions.hideInstant].
    destruct text as [t |].
    + rewrite (Htext t eq_refl). cbn [truthy].
      destruct hide as [[] |]; [congruence | |]; apply map_rune_processRune.
    + destruct hide as [[] |]; [congruence | |]; apply map_rune_processRune.
Qed.

Lemma sort_In {A : Type} (comparefn : A -> A -> number) (l : list A) (x : A) :
  In x (JSArray.sort comparefn l) <-> In x l.
Proof.
  split; apply Permutation_in;
    [| symmetry]; apply SortFacts.sort_perm.
Qed.

Lemma processRunes_In (runes : list RuneRecord.t) (rps luck : number)
    (opts : ProcessOptions.t) (r : ProcessedRune.t) :
  In r (processRunes runes rps luck opts)
  <-> In r (filterRunes runes rps luck opts).
Proof.
  unfold processRunes.
  destruct (ProcessOptions.sort opts); [apply sort_In | reflexivity].
Qed.

(** X12: with hideInstant set, processRunes returns exactly the entries
    it returns without it whose time is at least 1 (an entry whose time is
    NaN is dropped too); hideInstant false is the same as no
    hideInstant. *)
Theorem processRunes_hideInstant (runes : list RuneRecord.t)
    (rps luck : number) (text : option string) (sort : option SortOrder)
    (r : ProcessedRune.t) :
  (In r (processRunes runes rps luck (ProcessOptions.mk text (Some true) sort))
   <-> In r (processRunes runes rps luck (ProcessOptions.mk text None sort))
       /\ exists t, ProcessedRune.time r = Some t /\ ge t 1 = true)
  /\ processRunes runes rps luck (ProcessOptions.mk text (Some false) sort)
     = processRunes runes rps luck (ProcessOptions.mk text None sort).
Proof.
  split; [| reflexivity].
  rewrite !processRunes_In.
  assert (E : filterRunes runes rps luck (ProcessOptions.mk text (Some true) sort)
              = List.filter notInstant
                  (filterRunes runes rps luck (ProcessOptions.mk text None sort)))
    by reflexivity.
  rewrite E, filter_In. clear E.
  split; intros [Hin H]; (split; [assumption |]).
  - pose proof Hin as Hin'.
    apply filterRunes_incl, in_map_iff in Hin' as (rune & <- & _).
    cbn in *. eauto.
  - destruct H as (t & Ht & Hge). unfold notInstant. now rewrite Ht.
Qed.

Lemma toLowerCase_truthy (s : string) : truthy (toLowerCase s) = truthy s.
Proof. now destruct s. Qed.

(** X13: the text filter of processRunes ignores the case of the search
    text: two texts of one lowercase form give the same result. *)
Theorem processRunes_text_case (runes : list RuneRecord.t) (rps luck : number)
    (text text' : string) (hide : option bool) (sort : option SortOrder) :
  toLowerCase text = toLowerCase text' ->
  processRunes runes rps luck (ProcessOptions.mk (Some text) hide sort)
  = processRunes runes rps luck (ProcessOptions.mk (Some text') hide sort).
Proof.
  intros E. unfold processRunes, filterRunes. cbn.
  rewrite <- (toLowerCase_truthy text), <- (toLowerCase_truthy text'), E.
  reflexivity.
Qed.

Lemma processRunes_text_case_witness :
  processRunes testRunes 1 1 (ProcessOptions.mk (Some "FAST") None None)
  = processRunes testRunes 1 1 (ProcessOptions.mk (Some "fast") None None).
Proof.
  apply (processRunes_text_case testRunes 1 1 "FAST" "fast" None None).
  reflexivity.
Defined.

(** ** The next target *)

Lemma sort_by_time_sorted (order : SortOrder) (l : list ProcessedRune.t) :
  Forall (fun r => isNaN (timeOrInfinity r) = false) l ->
  StronglySorted (fun a b => inOrder order a b = true)
    (JSArray.sort (compareTime order) l).
Proof.
  apply (SortFacts.sort_strongly_sorted (compareTime order)
           (fun r => isNaN (timeOrInfinity r) = false)).
  - intros x y Gx Gy. rewrite compareTime_after by assumption.
    unfold inOrder, lt, le, ge. destruct order; now apply ltb_false_leb.
  - intros x y Gx Gy. rewrite compareTime_after by assumption.
    unfold inOrder, lt, le, ge. destruct order; apply ltb_leb.
  - intros x y z Gx Gy Gz. unfold inOrder, le, ge.
    destruct order; intros H1 H2.
    + now apply (leb_trans _ (timeOrInfinity y)).
    + now apply (leb_trans _ (timeOrInfinity y)).
Qed.

Lemma find_split {A : Type} (p : A -> bool) (l : list A) (x : A) :
  List.find p l = Some x ->
  exists pre post,
    l = (pre ++ x :: post)%list /\ p x = true
    /\ Forall (fun y => p y = false) pre.
Proof.
  induction l as [| a l IH]; cbn [List.find]; [discriminate |].
  destruct (p a) eqn:E.
  - intros [= <-]. now exists [], l.
  - intros H. destruct (IH H) as (pre & post & -> & Hx & Hpre).
    exists (a :: pre), post. split; [reflexivity |]. split; [assumption |].
    now constructor.
Qed.

Lemma find_none_filter {A : Type} (p : A -> bool) (l : list A) :
  List.find p l = None <-> List.filter p l = [].
Proof.
  induction l as [| a l IH]; cbn [List.find List.filter]; [easy |].
  destruct (p a); [easy | exact IH].
Qed.

Lemma find_head_filter {A : Type} (p : A -> bool) (l : list A) :
  List.find p l = head (List.filter p l).
Proof.
  induction l as [| a l IH]; cbn [List.find List.filter]; [reflexivity |].
  destruct (p a); [reflexivity | exact IH].
Qed.

Lemma findNextUnderHour_find (processed : list ProcessedRune.t) :
  findNextUnderHour processed
  = option_map runeId (List.find isUnderHour processed).
Proof. reflexivity. Qed.

Lemma processRunes_times (runes : list RuneRecord.t) (rps luck : number)
    (opts : ProcessOptions.t) :
  isNaN rps = false -> isNaN luck = false ->
  Forall (fun rune => isFinite (chanceN rune) = true) runes ->
  Forall (fun r => exists t, ProcessedRune.time r = Some t /\ isNaN t = false)
    (processRunes runes rps luck opts).
Proof.
  intros Hr Hl Hn. apply List.Forall_forall. intros r Hin.
  apply processRunes_incl, in_map_iff in Hin as (rune & <- & Hin).
  cbn. eexists. split; [reflexivity |].
  apply timeSeconds_not_nan; try assumption.
  rewrite List.Forall_forall in Hn. now apply Hn.
Qed.

(** X14: for rate and luck that are not NaN and finite chances, when
    findNextUnderHour names a rune of the list processRunes sorted, that
    rune is in the list, its time t is at least 1 and less than 3600, and
    with the ascending order t is the least of the times that are at least
    1, with the descending order the greatest of the times below 3600. *)
Theorem findNextUnderHour_sorted (runes : list RuneRecord.t)
    (rps luck : number) (opts : ProcessOptions.t) (order : SortOrder)
    (id : string) :
  ProcessOptions.sort opts = Some order ->
  isNaN rps = false -> isNaN luck = false ->
  Forall (fun rune => isFinite (chanceN rune) = true) runes ->
  let out := processRunes runes rps luck opts in
  findNextUnderHour out = Some id ->
  exists r t,
    In r out /\ RuneRecord.id (ProcessedRune.rune r) = id
    /\ ProcessedRune.time r = Some t /\ ge t 1 = true /\ lt t 3600 = true
    /\ forall r' t',
         In r' out -> ProcessedRune.time r' = Some t' ->
         match order with
         | asc => ge t' 1 = true -> le t t' = true
         | desc => lt t' 3600 = true -> ge t t' = true
         end.
Proof.
  intros Hsort Hr Hl Hn out Hfind.
  pose proof (processRunes_times runes rps luck opts Hr Hl Hn) as Htimes.
  fold out in Htimes.
  assert (Hsorted : StronglySorted (fun a b => inOrder order a b = true) out).
  { unfold out, processRunes. rewrite Hsort.
    apply sort_by_time_sorted. now apply filterRunes_not_nan. }
  rewrite findNextUnderHour_find in Hfind.
  destruct (List.find isUnderHour out) as [r |] eqn:F; [| discriminate Hfind].
  injection Hfind as Hid.
  destruct (find_split _ _ _ F) as (pre & post & E & Hr' & Hpre).
  rewrite List.Forall_forall in Htimes.
  assert (Hin : In r out) by (rewrite E; apply in_elt).
  destruct (Htimes r Hin) as (t & Ht & Hnt).
  unfold isUnderHour in Hr'. rewrite Ht in Hr'.
  apply andb_prop in Hr' as [Hge Hlt].
  exists r, t. repeat (split; [assumption |]).
  intros r' t' Hin' Ht'.
  destruct (Htimes r' Hin') as (t'' & Ht'' & Hnt').
  assert (t'' = t') by congruence. subst t''.
  rewrite E in Hin', Hsorted.
  unfold isNaN, lt, le, ge in *.
  apply in_app_or in Hin' as [Hin' | [<- | Hin']].
  - (* a rune before the target is out of the range *)
    rewrite List.Forall_forall in Hpre. pose proof (Hpre r' Hin') as Hno.
    unfold isUnderHour in Hno. rewrite Ht' in Hno. unfold lt, ge in Hno.
    apply in_split in Hin' as (p1 & p2 & ->).
    rewrite <- app_assoc in Hsorted. cbn [app] in Hsorted.
    apply StronglySorted_app_r, StronglySorted_inv in Hsorted as [_ Hall].
    rewrite List.Forall_forall in Hall.
    assert (Hle : inOrder order r' r = true) by (apply Hall, in_elt).
    unfold inOrder, timeOrInfinity, le, ge in Hle. rewrite Ht, Ht' in Hle.
    cbn [default] in Hle.
    destruct order; intros Hin'; exfalso; rewrite Hin' in Hno;
      cbn [andb] in Hno; rewrite ?andb_true_r in Hno.
    + rewrite (leb_ltb_trans t' t 3600 Hnt' Hnt eq_refl Hle Hlt) in Hno.
      discriminate Hno.
    + rewrite (leb_trans 1 t t' eq_refl Hnt Hnt' Hge Hle) in Hno.
      discriminate Hno.
  - assert (t' = t) by congruence. subst t'.
    destruct order; intros _; now apply leb_refl.
  - apply StronglySorted_app_r, StronglySorted_inv in Hsorted as [_ Hall].
    rewrite List.Forall_forall in Hall. pose proof (Hall r' Hin') as Hle.
    unfold inOrder, timeOrInfinity, le, ge in Hle. rewrite Ht, Ht' in Hle.
    cbn [default] in Hle. destruct order; intros _; exact Hle.
Qed.

Lemma findNextUnderHour_sorted_witness :
  let out := processRunes testRunes 1 1 ascending in
  exists r t,
    In r out /\ RuneRecord.id (ProcessedRune.rune r) = "fast"
    /\ ProcessedRune.time r = Some t /\ ge t 1 = true /\ lt t 3600 = true
    /\ forall r' t',
         In r' out -> ProcessedRune.time r' = Some t' ->
         ge t' 1 = true -> le t t' = true.
Proof.
  apply (findNextUnderHour_sorted testRunes 1 1 ascending asc "fast").
  - reflexivity.
  - reflexivity.
  - reflexivity.
  - repeat constructor.
  - reflexivity.
Defined.

(** ** The panel *)

Lemma parseScaled_failure (input : string) (su : ScaleUtils) (f : Failure) :
  failure input su = Some f ->
  parseScaled input su
  = Return {| value := 0%float; warning := Some (failureMessage f) |}.
Proof.
  unfold parseScaled, failure.
  rewrite truthy_eqb, !not_finite, negb_involutive.
  destruct (String.eqb (trim input) ""); [now intros [= <-] |].
  destruct (includes (trim input) "e" || includes (trim input) "E").
  { destruct (isFinite (parseFloat (trim input))); cbn [negb];
      [discriminate | now intros [= <-]]. }
  destruct (matchSuffix (trim input) _) as [[numPart suffix] m].
  rewrite ?not_finite.
  destruct (String.eqb suffix "").
  { destruct (isFinite (parseFloat (trim input))); cbn [negb];
      [discriminate | now intros [= <-]]. }
  destruct (isFinite (parseFloat numPart)); cbn [negb];
    [| now intros [= <-]].
  destruct (isFinite (parseFloat numPart * m)%float); cbn [negb];
    [discriminate | now intros [= <-]].
Qed.

Lemma filter_none {A : Type} (p : A -> bool) (l : list A) :
  Forall (fun x => p x = false) l -> List.filter p l = [].
Proof.
  induction 1 as [| a l Ha _ IH]; [reflexivity |].
  cbn [List.filter]. now rewrite Ha.
Qed.

Lemma filter_all {A : Type} (p : A -> bool) (l : list A) :
  Forall (fun x => p x = true) l -> List.filter p l = l.
Proof.
  induction 1 as [| a l Ha _ IH]; [reflexivity |].
  cbn [List.filter]. rewrite Ha. now f_equal.
Qed.

(** A value that is not above zero fails the guard of [timeSeconds]. *)
Lemma not_gt_le (v : number) :
  isFinite v = true -> gt v 0 = false -> le v 0 = true.
Proof.
  intros Hf Hg. unfold gt, le in *.
  apply ltb_false_leb; [now apply is_finite_not_nan | reflexivity | assumption].
Qed.

Lemma invalid_inputs_guard (rpsResult luckResult : ParseResult) :
  isFinite (value rpsResult) = true -> isFinite (value luckResult) = true ->
  hasValidInputs rpsResult luckResult = false ->
  le (value rpsResult) 0 = true \/ le (value luckResult) 0 = true.
Proof.
  intros Hr Hl. unfold hasValidInputs. intros H.
  apply andb_false_iff in H as [H | H]; [left | right]; now apply not_gt_le.
Qed.

(** X15: when the panel's hasValidInputs is false for the parsed rate and
    luck, every processed rune has the time Infinity and its card shows
    Never, there is no next target, the statistics count no instant rune
    and no rune under an hour, and hideInstant hides nothing. *)
Theorem invalid_inputs_never (runes : list RuneRecord.t) (scales : Scales)
    (rpsInput luckInput : string) (rpsResult luckResult : ParseResult)
    (scaleUtils : ScaleUtils)
    (opts : ProcessOptions.t) (obtainedRunes : gset string) :
  buildScaleUtils scales = Return scaleUtils ->
  parseScaled rpsInput scaleUtils = Return rpsResult ->
  parseScaled luckInput scaleUtils = Return luckResult ->
  hasValidInputs rpsResult luckResult = false ->
  let processedRunes :=
    processRunes runes (value rpsResult) (value luckResult) opts in
  Forall (fun r => ProcessedRune.time r = Some infinity
                   /\ timeText (ProcessedRune.time r) = "Never")
    processedRunes
  /\ findNextUnderHour processedRunes = None
  /\ instant (stats processedRunes obtainedRunes) = 0%nat
  /\ underHour (stats processedRunes obtainedRunes) = 0%nat
  /\ processedRunes
     = processRunes runes (value rpsResult) (value luckResult)
         (ProcessOptions.mk (ProcessOptions.text opts) None
            (ProcessOptions.sort opts)).
Proof.
  intros _ Hrps Hluck Hvalid processedRunes.
  apply parseScaled_finite in Hrps, Hluck.
  pose proof (invalid_inputs_guard _ _ Hrps Hluck Hvalid) as Hguard.
  assert (Hall : Forall (fun r => ProcessedRune.time r = Some infinity)
                   processedRunes).
  { apply List.Forall_forall. intros r Hin.
    apply processRunes_incl, in_map_iff in Hin as (rune & <- & _).
    cbn. f_equal. apply timeSeconds_guard. tauto. }
  assert (Hi : List.filter isInstant processedRunes = []).
  { apply filter_none. eapply List.Forall_impl; [| exact Hall].
    intros r Hr. unfold isInstant. now rewrite Hr. }
  assert (Hu : List.filter isUnderHour processedRunes = []).
  { apply filter_none. eapply List.Forall_impl; [| exact Hall].
    intros r Hr. unfold isUnderHour. now rewrite Hr. }
  split; [| split; [| split; [| split]]].
  - eapply List.Forall_impl; [| exact Hall].
    intros r Hr. split; [assumption |]. now rewrite Hr.
  - rewrite findNextUnderHour_find.
    now rewrite (proj2 (find_none_filter isUnderHour processedRunes) Hu).
  - cbn. now rewrite Hi.
  - cbn. now rewrite Hu.
  - assert (E : filterRunes runes (value rpsResult) (value luckResult) opts
                = filterRunes runes (value rpsResult) (value luckResult)
                    (ProcessOptions.mk (ProcessOptions.text opts) None
                       (ProcessOptions.sort opts))).
    { unfold filterRunes. cbn [ProcessOptions.text ProcessOptions.hideInstant].
      destruct (ProcessOptions.hideInstant opts) as [[] |]; try reflexivity.
      apply filter_all, List.Forall_forall. intros r Hin.
      assert (Hin' : In r (map (processRune (value rpsResult) (value luckResult))
                             runes)).
      { destruct (ProcessOptions.text opts) as [text |];
          [destruct (truthy text) |]; try assumption.
        now apply filter_In in Hin. }
      apply in_map_iff in Hin' as (rune & <- & _).
      unfold notInstant, processRune. cbn.
      rewrite timeSeconds_guard by tauto. reflexivity. }
    unfold processedRunes, processRunes. cbn [ProcessOptions.sort].
    now rewrite E.
Qed.

Lemma invalid_inputs_never_witness :
  let processedRunes :=
    processRunes testRunes 0 1 (panelOptions "" true asc) in
  Forall (fun r => ProcessedRune.time r = Some infinity
                   /\ timeText (ProcessedRune.time r) = "Never")
    processedRunes
  /\ findNextUnderHour processedRunes = None
  /\ instant (stats processedRunes ∅) = 0%nat
  /\ underHour (stats processedRunes ∅) = 0%nat
  /\ processedRunes
     = processRunes testRunes 0 1
         (ProcessOptions.mk (ProcessOptions.text (panelOptions "" true asc))
            None (ProcessOptions.sort (panelOptions "" true asc))).
Proof.
  apply (invalid_inputs_never testRunes testScales "0" "1"
           {| value := 0; warning := None |} {| value := 1; warning := None |}
           TestData.su (panelOptions "" true asc) ∅).
  - vm_compute. reflexivity.
  - vm_compute. reflexivity.
  - vm_compute. reflexivity.
  - reflexivity.
Defined.

(** *** Statistics *)

Lemma filter_disjoint_length {A : Type} (p q : A -> bool) (l : list A) :
  (forall x, p x = true -> q x = false) ->
  (length (List.filter p l) + length (List.filter q l) <= length l)%nat.
Proof.
  intros H. induction l as [| a l IH]; cbn [List.filter length]; [lia |].
  destruct (p a) eqn:P.
  - rewrite (H a P). cbn [length]. lia.
  - destruct (q a); cbn [length]; lia.
Qed.

Lemma instant_not_underHour (r : ProcessedRune.t) :
  isInstant r = true -> isUnderHour r = false.
Proof.
  unfold isInstant, isUnderHour.
  destruct (ProcessedRune.time r) as [t |]; [| discriminate].
  unfold lt, ge. intros H.
  destruct (is_nan t) eqn:N.
  - exfalso. rewrite FloatAxioms.ltb_spec in H.
    destruct (Prim2SF t) as [s | s | | s m e] eqn:E;
      [| | discriminate H |];
      rewrite SF_not_nan in N by (rewrite E; discriminate);
      discriminate N.
  - rewrite (ltb_negb_leb t 1 N eq_refl) in H.
    apply negb_true_iff in H. now rewrite H.
Qed.

(** X16: in the panel's statistics, the instant runes and the runes
    under an hour are disjoint, so their counts add up to the total at
    most; the obtained count is at most the total; the count under an hour
    is zero exactly when findNextUnderHour finds no rune; and the rune
    findNextUnderHour names is in the list and is not instant. *)
Theorem stats_consistent (processedRunes : list ProcessedRune.t)
    (obtainedRunes : gset string) :
  let s := stats processedRunes obtainedRunes in
  (instant s + underHour s <= total s)%nat
  /\ (obtained s <= total s)%nat
  /\ (underHour s = 0%nat <-> findNextUnderHour processedRunes = None)
  /\ (forall id, findNextUnderHour processedRunes = Some id ->
        exists r, In r processedRunes /\ runeId r = id /\ isInstant r = false).
Proof.
  intros s. unfold s, stats. cbn [instant underHour total obtained].
  split; [| split; [| split]].
  - apply filter_disjoint_length, instant_not_underHour.
  - apply List.filter_length_le.
  - rewrite findNextUnderHour_find, length_zero_iff_nil, <- find_none_filter.
    destruct (List.find isUnderHour processedRunes); cbn; split; congruence.
  - intros id. rewrite findNextUnderHour_find.
    destruct (List.find isUnderHour processedRunes) as [r |] eqn:F;
      [| discriminate].
    intros [= <-]. apply find_some in F as [Hin Hu].
    exists r. split; [assumption |]. split; [reflexivity |].
    destruct (isInstant r) eqn:I; [| reflexivity].
    rewrite (instant_not_underHour r I) in Hu. discriminate Hu.
Qed.

(** *** Obtained runes *)

Lemma toggle_in (prev : gset string) (runeId x : string) :
  x ∈ toggleObtainedRune prev runeId
  <-> (x = runeId /\ runeId ∉ prev) \/ (x <> runeId /\ x ∈ prev).
Proof.
  unfold toggleObtainedRune. case_bool_decide as H.
  - rewrite elem_of_difference, elem_of_singleton.
    destruct (decide (x = runeId)) as [-> | Hne]; tauto.
  - rewrite elem_of_union, elem_of_singleton.
    destruct (decide (x = runeId)) as [-> | Hne]; tauto.
Qed.

(** X17: toggleObtainedRune flips the membership of the rune, leaves
    every other rune as it is, and applied twice gives the set back. *)
Theorem toggleObtainedRune_spec (prev : gset string) (runeId : string) :
  (runeId ∈ toggleObtainedRune prev runeId <-> runeId ∉ prev)
  /\ (forall other, other <> runeId ->
        (other ∈ toggleObtainedRune prev runeId <-> other ∈ prev))
  /\ toggleObtainedRune (toggleObtainedRune prev runeId) runeId = prev.
Proof.
  split; [| split].
  - rewrite toggle_in. tauto.
  - intros other Hne. rewrite toggle_in. tauto.
  - apply set_eq. intros x. rewrite !toggle_in.
    destruct (decide (x = runeId)) as [-> | Hne];
      destruct (decide (runeId ∈ prev)); tauto.
Qed.

(** *** Targets only *)

Lemma isShown_targets (r : ProcessedRune.t) (t : number) :
  ProcessedRune.time r = Some t -> isNaN t = false ->
  isShown true r = isUnderHour r.
Proof.
  intros Ht Hn. unfold isShown, isUnderHour. rewrite Ht. cbn [andb].
  unfold lt, ge, isNaN in *.
  rewrite (ltb_negb_leb t 1 Hn eq_refl), (ltb_negb_leb t 3600 Hn eq_refl).
  now destruct (1 <=? t)%float, (3600 <=? t)%float.
Qed.

Lemma filter_ext_Forall {A : Type} (p q : A -> bool) (l : list A) :
  Forall (fun x => p x = q x) l -> List.filter p l = List.filter q l.
Proof.
  induction 1 as [| a l Ha _ IH]; [reflexivity |].
  cbn [List.filter]. rewrite Ha, IH. reflexivity.
Qed.

(** X18: for rate and luck that are not NaN and finite chances, with
    showOnlyTargets the panel lists exactly the processed runes whose time
    is at least 1 and less than 3600, in order, and the next target is the
    first rune listed; without showOnlyTargets every processed rune is
    listed. *)
Theorem shownRunes_targets (runes : list RuneRecord.t) (rps luck : number)
    (opts : ProcessOptions.t) :
  isNaN rps = false -> isNaN luck = false ->
  Forall (fun rune => isFinite (chanceN rune) = true) runes ->
  let processedRunes := processRunes runes rps luck opts in
  shownRunes true processedRunes = List.filter isUnderHour processedRunes
  /\ findNextUnderHour processedRunes
     = option_map runeId (head (shownRunes true processedRunes))
  /\ shownRunes false processedRunes = processedRunes.
Proof.
  intros Hr Hl Hn processedRunes.
  pose proof (processRunes_times runes rps luck opts Hr Hl Hn) as Htimes.
  fold processedRunes in Htimes.
  assert (E : shownRunes true processedRunes
              = List.filter isUnderHour processedRunes).
  { apply filter_ext_Forall. eapply List.Forall_impl; [| exact Htimes].
    intros r (t & Ht & Hnt). now apply (isShown_targets r t). }
  split; [exact E |]. split.
  - now rewrite E, findNextUnderHour_find, find_head_filter.
  - apply filter_all, List.Forall_forall. reflexivity.
Qed.

Lemma shownRunes_targets_witness :
  let processedRunes := processRunes testRunes 1 1 ascending in
  shownRunes true processedRunes = List.filter isUnderHour processedRunes
  /\ findNextUnderHour processedRunes
     = option_map runeId (head (shownRunes true processedRunes))
  /\ shownRunes false processedRunes = processedRunes.
Proof.
  apply (shownRunes_targets testRunes 1 1 ascending).
  - reflexivity.
  - reflexivity.
  - repeat constructor.
Defined.

(** *** The custom chance *)

(** X19: the panel's customTime: the custom chance always parses to a
    result; the time is null when the parsed value is not above 0, and
    otherwise the value divided by rate times luck when hasValidInputs is
    true and Infinity when it is false; in particular it is null for every
    input that cannot be interpreted. *)
Theorem customTime_spec (scales : Scales)
    (rpsInput luckInput customChanceInput : string)
    (rpsResult luckResult : ParseResult) (scaleUtils : ScaleUtils) :
  buildScaleUtils scales = Return scaleUtils ->
  parseScaled rpsInput scaleUtils = Return rpsResult ->
  parseScaled luckInput scaleUtils = Return luckResult ->
  exists customResult,
    parseScaled customChanceInput scaleUtils = Return customResult
    /\ customTime customChanceInput scaleUtils rpsResult luckResult
       = Return
           (if gt (value customResult) 0 then
              Some (if hasValidInputs rpsResult luckResult
                    then (value customResult
                          / (value rpsResult * value luckResult))%float
                    else infinity)
            else None)
    /\ (forall f, failure customChanceInput scaleUtils = Some f ->
          customTime customChanceInput scaleUtils rpsResult luckResult
          = Return None).
Proof.
  intros Hsu. apply buildScaleUtils_built in Hsu. subst scaleUtils.
  set (scaleUtils := builtUtils scales).
  intros Hrps Hluck.
  destruct (parseScaled_returns customChanceInput scales) as [c Hc].
  fold scaleUtils in Hc. exists c. split; [assumption |].
  apply parseScaled_finite in Hrps, Hluck.
  split.
  - unfold customTime. rewrite Hc.
    destruct (gt (value c) 0) eqn:G; [| reflexivity].
    do 2 f_equal.
    destruct (hasValidInputs rpsResult luckResult) eqn:V.
    + unfold hasValidInputs in V. apply andb_prop in V as [V1 V2].
      unfold timeSeconds, gt, le in *.
      assert (N : forall v, isFinite v = true -> (0 <? v)%float = true ->
                            (v <=? 0)%float = false).
      { intros v Hv Hp. apply is_finite_not_nan in Hv. unfold isNaN in Hv.
        rewrite (ltb_negb_leb 0 v eq_refl Hv) in Hp.
        now apply negb_true_iff in Hp. }
      rewrite (N _ Hrps V1), (N _ Hluck V2).
      rewrite (N _ (parseScaled_finite _ _ _ Hc) G). reflexivity.
    + apply timeSeconds_guard.
      destruct (invalid_inputs_guard _ _ Hrps Hluck V); tauto.
  - intros f Hf. unfold customTime.
    now rewrite (parseScaled_failure _ _ _ Hf).
Qed.

Lemma customTime_spec_witness :
  let scaleUtils := TestData.su in
  buildScaleUtils testScales = Return scaleUtils
  /\ exists customResult,
    parseScaled "1k" scaleUtils = Return customResult
    /\ customTime "1k" scaleUtils {| value := 10; warning := None |}
         {| value := 1; warning := None |}
       = Return
           (if gt (value customResult) 0 then
              Some (if hasValidInputs {| value := 10; warning := None |}
                         {| value := 1; warning := None |}
                    then (value customResult / (10 * 1))%float
                    else infinity)
            else None)
    /\ (forall f, failure "1k" scaleUtils = Some f ->
          customTime "1k" scaleUtils {| value := 10; warning := None |}
            {| value := 1; warning := None |}
          = Return None).
Proof.
  split; [vm_compute; reflexivity |].
  apply (customTime_spec testScales "10" "1" "1k"
           {| value := 10; warning := None |}
           {| value := 1; warning := None |} TestData.su).
  - vm_compute. reflexivity.
  - vm_compute. reflexivity.
  - vm_compute. reflexivity.
Defined.

(** ** Filtering and sorting commute *)

Module SortFilter.
Import JSArray.

Section ByKey.
Context {A : Type}.
Variable comparefn : A -> A -> number.
Variable good : A -> Prop.
Variable key : A -> Z.
Variable after : Z -> Z -> bool.
Hypothesis after_key :
  forall x y, good x -> good y ->
  sorts_after comparefn x y = after (key x) (key y).
Hypothesis after_trans :
  forall a b c, after a b = false -> after b c = false -> after a c = false.
Hypothesis after_total :
  forall a b, after a b = true -> after b a = false.
Variable q : A -> bool.

Lemma insert_good (x : A) (l : list A) :
  good x -> Forall good l -> Forall good (insert comparefn x l).
Proof.
  intros Hx Hl.
  apply List.Forall_forall. intros y Hy.
  apply (Permutation_in y (SortFacts.insert_perm comparefn x l)) in Hy.
  destruct Hy as [<- | Hy]; [assumption |].
  rewrite List.Forall_forall in Hl. now apply Hl.
Qed.

Lemma insert_ordered (x : A) (l : list A) :
  good x -> Forall good l ->
  StronglySorted (fun a b => after (key a) (key b) = false) l ->
  StronglySorted (fun a b => after (key a) (key b) = false)
    (insert comparefn x l).
Proof.
  intros Hx Hl Hs. induction Hs as [| y l Hs IH Hy]; cbn [insert].
  - repeat constructor.
  - apply List.Forall_cons_iff in Hl as [Gy Gl].
    rewrite (after_key x y Hx Gy).
    destruct (after (key x) (key y)) eqn:E.
    + constructor; [now apply IH |].
      apply List.Forall_forall. intros z Hz.
      apply (Permutation_in z (SortFacts.insert_perm comparefn x l)) in Hz.
      destruct Hz as [<- | Hz]; [now apply after_total |].
      rewrite List.Forall_forall in Hy. now apply Hy.
    + constructor; [now constructor |].
      constructor; [assumption |].
      eapply List.Forall_impl; [| exact Hy].
      intros z Hz. cbv beta in *. now apply (after_trans _ (key y)).
Qed.

Lemma sort_ordered (l : list A) :
  Forall good l ->
  Forall good (sort comparefn l)
  /\ StronglySorted (fun a b => after (key a) (key b) = false)
       (sort comparefn l).
Proof.
  induction 1 as [| x l Hx Hl [IH1 IH2]]; cbn [sort].
  - split; constructor.
  - split; [now apply insert_good | now apply insert_ordered].
Qed.

Lemma insert_filter_comm (x : A) (l : list A) :
  good x -> Forall good l ->
  StronglySorted (fun a b => after (key a) (key b) = false) l ->
  List.filter q (insert comparefn x l)
  = if q x then insert comparefn x (List.filter q l) else List.filter q l.
Proof.
  intros Hx Hl Hs. induction Hs as [| y l Hs IH Hy]; cbn [insert List.filter].
  - now destruct (q x).
  - apply List.Forall_cons_iff in Hl as [Gy Gl].
    rewrite (after_key x y Hx Gy).
    destruct (after (key x) (key y)) eqn:E; cbn [List.filter].
    + rewrite (IH Gl).
      destruct (q y), (q x); try reflexivity.
      cbn [insert]. now rewrite (after_key x y Hx Gy), E.
    + destruct (q x) eqn:Qx; [| reflexivity].
      destruct (q y) eqn:Qy.
      * cbn [insert]. now rewrite (after_key x y Hx Gy), E.
      * destruct (List.filter q l) as [| z t] eqn:F; [reflexivity |].
        assert (Hz : In z l).
        { assert (H : In z (List.filter q l)) by (rewrite F; now left).
          now apply filter_In in H. }
        cbn [insert].
        rewrite List.Forall_forall in Gl, Hy.
        rewrite (after_key x z Hx (Gl z Hz)).
        now rewrite (after_trans _ (key y) _ E (Hy z Hz)).
Qed.

Lemma sort_filter_comm (l : list A) :
  Forall good l ->
  List.filter q (sort comparefn l) = sort comparefn (List.filter q l).
Proof.
  induction 1 as [| x l Hx Hl IH]; [reflexivity |].
  cbn [sort List.filter].
  destruct (sort_ordered l Hl) as [G S].
  rewrite (insert_filter_comm x _ Hx G S), IH.
  now destruct (q x).
Qed.

End ByKey.

End SortFilter.

Lemma timeKey_after (order : SortOrder) (a b : ProcessedRune.t) :
  isNaN (timeOrInfinity a) = false -> isNaN (timeOrInfinity b) = false ->
  JSArray.sorts_after (compareTime order) a b
  = match order with
    | asc => timeKey b <? timeKey a
    | desc => timeKey a <? timeKey b
    end.
Proof.
  intros Ha Hb. rewrite compareTime_after by assumption.
  unfold lt, timeKey, isNaN in *. destruct order; now apply ltb_key.
Qed.

(** Sorting by time and filtering commute. *)
Lemma sort_by_time_filter (order : SortOrder) (q : ProcessedRune.t -> bool)
    (l : list ProcessedRune.t) :
  Forall (fun r => isNaN (timeOrInfinity r) = false) l ->
  List.filter q (JSArray.sort (compareTime order) l)
  = JSArray.sort (compareTime order) (List.filter q l).
Proof.
  apply (SortFilter.sort_filter_comm (compareTime order)
           (fun r => isNaN (timeOrInfinity r) = false) timeKey
           (fun a b => match order with asc => b <? a | desc => a <? b end)).
  - intros x y Gx Gy. rewrite (timeKey_after order x y Gx Gy).
    now destruct order.
  - intros a b c. destruct order; rewrite !Z.ltb_ge; lia.
  - intros a b. destruct order; rewrite Z.ltb_lt, Z.ltb_ge; lia.
Qed.

Lemma filter_andb {A : Type} (p q : A -> bool) (l : list A) :
  List.filter (fun x => p x && q x) l = List.filter q (List.filter p l).
Proof.
  induction l as [| a l IH]; [reflexivity |].
  cbn [List.filter]. destruct (p a); cbn [andb List.filter]; now rewrite IH.
Qed.

Lemma filter_everything {A : Type} (l : list A) :
  List.filter (fun _ => true) l = l.
Proof.
  induction l as [| a l IH]; [reflexivity |]. cbn [List.filter]. now f_equal.
Qed.

Lemma filterRunes_keptBy (runes : list RuneRecord.t) (rps luck : number)
    (text : option string) (hide : option bool) (sort : option SortOrder) :
  filterRunes runes rps luck (ProcessOptions.mk text hide sort)
  = List.filter (keptBy text hide) (map (processRune rps luck) runes).
Proof.
  unfold filterRunes, keptBy.
  cbn [ProcessOptions.text ProcessOptions.hideInstant].
  rewrite filter_andb.
  assert (E1 : match text with
               | Some text =>
                   if truthy text
                   then List.filter (matchesText (toLowerCase text))
                          (map (processRune rps luck) runes)
                   else map (processRune rps luck) runes
               | None => map (processRune rps luck) runes
               end
               = List.filter
                   (fun r => match text with
                             | Some text =>
                                 if truthy text
                                 then matchesText (toLowerCase text) r
                                 else true
                             | None => true
                             end)
                   (map (processRune rps luck) runes)).
  { destruct text as [text |]; [destruct (truthy text) |];
      now rewrite ?filter_everything. }
  rewrite <- E1.
  destruct hide as [[] |]; now rewrite ?filter_everything.
Qed.

(** X20: for rate and luck that are not NaN and finite chances, filtering
    and sorting commute in processRunes: with a sort order, the result is
    the sorted list of all the runes from which the runes the filters
    reject are removed.  So a filter never reorders the runes that
    remain. *)
Theorem processRunes_filter_sort (runes : list RuneRecord.t)
    (rps luck : number) (text : option string) (hide : option bool)
    (order : SortOrder) :
  isNaN rps = false -> isNaN luck = false ->
  Forall (fun rune => isFinite (chanceN rune) = true) runes ->
  processRunes runes rps luck (ProcessOptions.mk text hide (Some order))
  = List.filter (keptBy text hide)
      (processRunes runes rps luck (ProcessOptions.mk None None (Some order))).
Proof.
  intros Hr Hl Hn. unfold processRunes. cbn [ProcessOptions.sort].
  rewrite !filterRunes_keptBy.
  change (keptBy None None) with (fun _ : ProcessedRune.t => true).
  rewrite filter_everything.
  symmetry. apply sort_by_time_filter.
  pose proof (filterRunes_not_nan runes rps luck ProcessOptions.empty Hr Hl Hn)
    as H.
  exact H.
Qed.

Lemma processRunes_filter_sort_witness :
  processRunes testRunes 1 1 (ProcessOptions.mk (Some "rune") (Some true) (Some desc))
  = List.filter (keptBy (Some "rune") (Some true))
      (processRunes testRunes 1 1 (ProcessOptions.mk None None (Some desc))).
Proof.
  apply (processRunes_filter_sort testRunes 1 1 (Some "rune") (Some true) desc).
  - reflexivity.
  - reflexivity.
  - repeat constructor.
Defined.

Lemma find_filter {A : Type} (p q : A -> bool) (l : list A) :
  (forall x, p x = true -> q x = true) ->
  List.find p (List.filter q l) = List.find p l.
Proof.
  intros H. induction l as [| a l IH]; [reflexivity |].
  cbn [List.filter List.find].
  destruct (q a) eqn:Q; cbn [List.find].
  - now rewrite IH.
  - destruct (p a) eqn:P; [| assumption].
    rewrite (H a P) in Q. discriminate Q.
Qed.

Lemma leb_not_nan (a b : float) :
  (a <=? b)%float = true -> is_nan a = false /\ is_nan b = false.
Proof.
  rewrite FloatAxioms.leb_spec. intros H.
  split; apply SF_not_nan; intros E; rewrite E in H;
    [| destruct (Prim2SF a) as [| [] | | []]]; discriminate H.
Qed.

Lemma underHour_notInstant (r : ProcessedRune.t) :
  isUnderHour r = true -> notInstant r = true.
Proof.
  unfold isUnderHour, notInstant.
  destruct (ProcessedRune.time r); [| discriminate].
  intros H. now apply andb_prop in H.
Qed.

Lemma notInstant_not_instant (r : ProcessedRune.t) :
  notInstant r = true -> isInstant r = false.
Proof.
  unfold notInstant, isInstant.
  destruct (ProcessedRune.time r) as [t |]; [| reflexivity].
  unfold ge, lt. intros H.
  destruct (leb_not_nan _ _ H) as [_ Hn].
  rewrite (ltb_negb_leb t 1 Hn eq_refl), H. reflexivity.
Qed.

(** X21: for rate and luck that are not NaN and finite chances, setting
    hideInstant removes the entries whose time is below 1 from the result
    and changes nothing else: the next target is the same, no instant rune
    is counted, and the count of runes under an hour is the same. *)
Theorem hideInstant_keeps_target (runes : list RuneRecord.t)
    (rps luck : number) (text : option string) (sort : option SortOrder)
    (obtainedRunes : gset string) :
  isNaN rps = false -> isNaN luck = false ->
  Forall (fun rune => isFinite (chanceN rune) = true) runes ->
  let hidden :=
    processRunes runes rps luck (ProcessOptions.mk text (Some true) sort) in
  let all :=
    processRunes runes rps luck (ProcessOptions.mk text None sort) in
  hidden = List.filter notInstant all
  /\ findNextUnderHour hidden = findNextUnderHour all
  /\ instant (stats hidden obtainedRunes) = 0%nat
  /\ underHour (stats hidden obtainedRunes)
     = underHour (stats all obtainedRunes).
Proof.
  intros Hr Hl Hn hidden all.
  assert (E : hidden = List.filter notInstant all).
  { unfold hidden, all, processRunes. cbn [ProcessOptions.sort].
    assert (F : filterRunes runes rps luck (ProcessOptions.mk text (Some true) sort)
                = List.filter notInstant
                    (filterRunes runes rps luck (ProcessOptions.mk text None sort)))
      by reflexivity.
    rewrite F. destruct sort as [order |]; [| reflexivity].
    symmetry. apply sort_by_time_filter.
    now apply filterRunes_not_nan. }
  split; [exact E |].
  rewrite E. split; [| split].
  - rewrite !findNextUnderHour_find. f_equal.
    apply find_filter, underHour_notInstant.
  - cbn. rewrite (filter_none isInstant); [reflexivity |].
    apply List.Forall_forall. intros r Hin.
    apply filter_In in Hin as [_ Hin]. now apply notInstant_not_instant.
  - cbn. f_equal. rewrite <- filter_andb.
    apply filter_ext_Forall, List.Forall_forall. intros r _.
    destruct (isUnderHour r) eqn:U; [| apply andb_false_r].
    now rewrite (underHour_notInstant r U).
Qed.

Lemma hideInstant_keeps_target_witness :
  let hidden :=
    processRunes testRunes 100 1 (ProcessOptions.mk None (Some true) (Some asc)) in
  let all :=
    processRunes testRunes 100 1 (ProcessOptions.mk None None (Some asc)) in
  hidden = List.filter notInstant all
  /\ findNextUnderHour hidden = findNextUnderHour all
  /\ instant (stats hidden ∅) = 0%nat
  /\ underHour (stats hidden ∅) = underHour (stats all ∅).
Proof.
  apply (hideInstant_keeps_target testRunes 100 1 None (Some asc) ∅).
  - reflexivity.
  - reflexivity.
  - repeat constructor.
Defined.

(** ** Whole numbers *)

Module FloorFacts.

Lemma digits2_unique (q : positive) (n : Z) :
  2 ^ (n - 1) <= Zpos q < 2 ^ n -> Zpos (digits2_pos q) = n.
Proof.
  intros [Hlo Hhi]. pose proof (digits2_bounds q) as [Dlo Dhi].
  set (d := Zpos (digits2_pos q)) in *.
  assert (Hd : 0 < d) by (unfold d; lia).
  assert (Hn : 0 < n).
  { destruct (Z.lt_ge_cases 0 n) as [? | Hle]; [assumption |].
    exfalso. destruct (Z.eq_dec n 0) as [-> | Hne].
    - cbn in Hhi. lia.
    - rewrite Z.pow_neg_r in Hhi by lia. lia. }
  destruct (Z.lt_trichotomy d n) as [L | [E | G]]; [| assumption |]; exfalso.
  - assert (2 ^ d <= 2 ^ (n - 1)) by (apply Z.pow_le_mono_r; lia). lia.
  - assert (2 ^ n <= 2 ^ (d - 1)) by (apply Z.pow_le_mono_r; lia). lia.
Qed.

Lemma shl_align_snd (m : positive) (e e' : Z) :
  e' <= e -> snd (shl_align m e e') = e'.
Proof.
  intros H. unfold shl_align.
  destruct (e' - e) as [| q | q] eqn:E; cbn [snd]; lia.
Qed.

(** The number of a positive integer below [2 ^ 53], in full. *)
Lemma of_Z_canonical (p : positive) :
  Zpos p < 2 ^ 53 ->
  exists mz,
    Prim2SF (of_Z (Zpos p))
    = S754_finite false mz (Zpos (digits2_pos p) - 53)
    /\ Zpos mz = Zpos p * 2 ^ (53 - Zpos (digits2_pos p))
    /\ Zpos (digits2_pos mz) = 53.
Proof.
  intros Hp. unfold of_Z. cbn [binary_normalize]. unfold binary_round.
  pose proof (digits2_bounds p) as [Dlo Dhi].
  set (d := Zpos (digits2_pos p)) in *.
  assert (Hd1 : 0 < d) by (unfold d; lia).
  assert (Hd2 : d <= 53).
  { destruct (Z.le_gt_cases d 53) as [? | G]; [assumption |]. exfalso.
    assert (2 ^ 53 <= 2 ^ (d - 1)) by (apply Z.pow_le_mono_r; lia). lia. }
  assert (Hf : fexp prec emax (d + 0) = d - 53).
  { unfold fexp, SpecFloat.emin, prec, emax. lia. }
  rewrite Hf.
  pose proof (shl_align_fst p 0 (d - 53) ltac:(lia)) as Hm.
  pose proof (shl_align_snd p 0 (d - 53) ltac:(lia)) as He.
  destruct (shl_align p 0 (d - 53)) as [mz ez]. cbn [fst snd] in Hm, He.
  subst ez. replace (0 - (d - 53)) with (53 - d) in Hm by lia.
  assert (Hdz : Zpos (digits2_pos mz) = 53).
  { apply digits2_unique. rewrite Hm. split.
    - replace (53 - 1) with ((d - 1) + (53 - d)) by lia.
      rewrite Z.pow_add_r by lia.
      apply Z.mul_le_mono_nonneg_r; [apply Z.pow_nonneg |]; lia.
    - replace 53 with (d + (53 - d)) at 2 by lia.
      rewrite Z.pow_add_r by lia.
      apply Z.mul_lt_mono_pos_r; [apply Z.pow_pos_nonneg |]; lia. }
  assert (Hs : shr_fexp prec emax (Zpos mz) (d - 53) loc_Exact
               = (shr_record_of_loc (Zpos mz) loc_Exact, d - 53)).
  { unfold shr_fexp. cbn [Zdigits2]. rewrite Hdz.
    replace (fexp prec emax (53 + (d - 53)) - (d - 53)) with 0
      by (unfold fexp, SpecFloat.emin, prec, emax; lia).
    reflexivity. }
  unfold binary_round_aux. rewrite Hs. cbn [shr_record_of_loc shr_m
    loc_of_shr_record round_nearest_even].
  rewrite Hs. cbn [shr_record_of_loc shr_m].
  replace (d - 53 <=? emax - prec) with true
    by (symmetry; apply Z.leb_le; unfold prec, emax; lia).
  assert (Hv : valid_binary (S754_finite false mz (d - 53)) = true).
  { cbn [SpecFloat.valid_binary]. unfold bounded, canonical_mantissa.
    rewrite Hdz. apply andb_true_intro. split.
    - apply Z.eqb_eq. unfold fexp, SpecFloat.emin, prec, emax. lia.
    - apply Z.leb_le. unfold prec, emax. lia. }
  exists mz. rewrite (Prim2SF_SF2Prim _ Hv). auto.
Qed.

(** A positive integer below [2 ^ 53] is a number: rounding leaves it as
    it is. *)
Lemma of_Z_exact (p : positive) :
  Zpos p < 2 ^ 53 ->
  is_nan (of_Z (Zpos p)) = false
  /\ SFkey (Prim2SF (of_Z (Zpos p))) = Zpos p * 2 ^ (- emin).
Proof.
  intros Hp. destruct (of_Z_canonical p Hp) as (mz & E & Hm & _).
  pose proof (digits2_bounds p) as [Dlo Dhi].
  set (d := Zpos (digits2_pos p)) in *.
  assert (Hd1 : 0 < d) by (unfold d; lia).
  assert (Hd2 : d <= 53).
  { destruct (Z.le_gt_cases d 53) as [? | G]; [assumption |]. exfalso.
    assert (2 ^ 53 <= 2 ^ (d - 1)) by (apply Z.pow_le_mono_r; lia). lia. }
  split.
  - apply SF_not_nan. rewrite E. discriminate.
  - rewrite E. cbn [SFkey cond_Zopp]. rewrite Hm.
    rewrite <- Z.mul_assoc, <- Z.pow_add_r
      by (unfold SpecFloat.emin, prec, emax; lia).
    do 2 f_equal. lia.
Qed.

(** Whole numbers below [2 ^ 53], zero included, and their keys. *)
Lemma of_Z_key (z : Z) :
  0 <= z < 2 ^ 53 ->
  is_nan (of_Z z) = false
  /\ SFkey (Prim2SF (of_Z z)) = z * 2 ^ (- emin).
Proof.
  intros Hz. destruct z as [| p | p]; try lia.
  - split; reflexivity.
  - apply of_Z_exact. lia.
Qed.

(** The floor of a finite number that is not below 1 is not below 1. *)
Lemma Math_floor_ge_1 (x : number) :
  isFinite x = true -> lt x 1 = false -> ge (Math_floor x) 1 = true.
Proof.
  intros Hf Hlt. pose proof (is_finite_not_nan x Hf) as Hn.
  unfold isNaN, lt, ge in *.
  assert (Hle : (1 <=? x)%float = true)
    by (apply ltb_false_leb; [reflexivity | assumption | assumption]).
  pose proof Hle as Hk. rewrite (leb_key 1 x eq_refl Hn) in Hk.
  apply Z.leb_le in Hk.
  change (Prim2SF 1) with (S754_finite false 4503599627370496 (-52)) in Hk.
  cbn [SFkey cond_Zopp] in Hk.
  pose proof (Prim2SF_valid x) as Hv.
  unfold Math_floor.
  destruct (Prim2SF x) as [s | s | | s m e] eqn:E; try assumption.
  cbn [SpecFloat.valid_binary] in Hv.
  pose proof (bounded_inv m e Hv) as (He & Hd & _).
  pose proof (digits2_bounds m) as [_ Hhi].
  assert (Hm53 : Zpos m < 2 ^ 53).
  { eapply Z.lt_le_trans; [exact Hhi |].
    apply Z.pow_le_mono_r; unfold prec in Hd; lia. }
  assert (Hpow : 0 < 2 ^ (e - emin))
    by (apply Z.pow_pos_nonneg; lia).
  cbn [SFkey] in Hk.
  destruct s; cbn [cond_Zopp] in Hk.
  { exfalso. assert (0 < 4503599627370496 * 2 ^ (-52 - emin)) by now cbn.
    lia. }
  destruct (0 <=? e) eqn:Ee; [assumption |].
  apply Z.leb_gt in Ee. cbn [cond_Zopp].
  assert (Hq : 1 <= Zpos m / 2 ^ (- e)).
  { assert (Hp2 : 0 < 2 ^ (- e)) by (apply Z.pow_pos_nonneg; lia).
    apply Z.div_le_lower_bound; [assumption |]. rewrite Z.mul_1_r.
    assert (Hsplit : 4503599627370496 * 2 ^ (-52 - emin)
                     = 2 ^ (- e) * 2 ^ (e - emin)).
    { rewrite <- Z.pow_add_r by (unfold SpecFloat.emin, prec, emax in *; lia).
      replace (- e + (e - emin)) with (- emin) by lia. reflexivity. }
    rewrite Hsplit in Hk.
    apply Z.mul_le_mono_pos_r in Hk; assumption. }
  assert (Hq2 : Zpos m / 2 ^ (- e) < 2 ^ 53).
  { eapply Z.le_lt_trans; [| exact Hm53].
    assert (Hp2 : 0 < 2 ^ (- e)) by (apply Z.pow_pos_nonneg; lia).
    apply Z.div_le_upper_bound; [assumption | nia]. }
  destruct (Zpos m / 2 ^ (- e)) as [| q | q] eqn:Q; try lia.
  destruct (of_Z_exact q Hq2) as [Hnq Hkq].
  rewrite (leb_key 1 _ eq_refl Hnq), Hkq.
  change (SFkey (Prim2SF 1)) with (1 * 2 ^ (- emin)).
  apply Z.leb_le. apply Z.mul_le_mono_nonneg_r; [| lia].
  apply Z.pow_nonneg. lia.
Qed.

(** The floor of a number from 1 to below a whole bound of at most
    [2 ^ 52] is a whole number of that range, at most the number and more
    than the number less one. *)
Lemma floor_whole_below (B : Z) (x : number) :
  1 <= B <= 2 ^ 52 ->
  isFinite x = true -> lt x 1 = false -> lt x (of_Z B) = true ->
  exists z,
    1 <= z < B /\ Math_floor x = of_Z z
    /\ le (of_Z z) x = true /\ lt x (of_Z (z + 1)) = true.
Proof.
  intros HB Hf Hlt Hbound. pose proof (is_finite_not_nan x Hf) as Hn.
  assert (H53 : (2 : Z) ^ 52 < 2 ^ 53) by reflexivity.
  assert (K : forall w, 0 <= w <= B ->
            is_nan (of_Z w) = false
            /\ SFkey (Prim2SF (of_Z w)) = w * 2 ^ (- emin)).
  { intros w Hw. apply of_Z_key. lia. }
  destruct (K B ltac:(lia)) as [NB KB].
  unfold isNaN, lt, le in *.
  assert (Hle : (1 <=? x)%float = true)
    by (apply ltb_false_leb; [reflexivity | assumption | assumption]).
  rewrite (leb_key 1 x eq_refl Hn) in Hle. apply Z.leb_le in Hle.
  rewrite (ltb_key x _ Hn NB), KB in Hbound. apply Z.ltb_lt in Hbound.
  change (SFkey (Prim2SF 1)) with (1 * 2 ^ (- emin)) in Hle.
  pose proof (Prim2SF_valid x) as Hv.
  assert (Hp : 0 < 2 ^ (- emin)) by (now apply Z.pow_pos_nonneg).
  unfold Math_floor.
  destruct (is_finite_SF x Hf) as [[s E] | (s & m & e & E)]; rewrite E in *.
  { exfalso. cbn [SFkey] in Hle. lia. }
  cbn [SpecFloat.valid_binary] in Hv.
  pose proof (bounded_inv m e Hv) as (He & Hd & Hnormal).
  pose proof (digits2_bounds m) as [Hlo Hhi].
  assert (Hpow : 0 < 2 ^ (e - emin)) by (apply Z.pow_pos_nonneg; lia).
  cbn [SFkey] in Hle, Hbound.
  destruct s; cbn [cond_Zopp] in Hle, Hbound; [exfalso; lia |].
  destruct (0 <=? e) eqn:Ee.
  { (* a number of exponent 0 or more is at least 2 ^ 52 *)
    exfalso. apply Z.leb_le in Ee.
    assert (Hd53 : Zpos (digits2_pos m) = prec)
      by (apply Hnormal; unfold SpecFloat.emin, prec, emax; lia).
    rewrite Hd53 in Hlo. unfold prec in Hlo.
    assert (E1 : 2 ^ (e - emin) = 2 ^ e * 2 ^ (- emin)).
    { rewrite <- Z.pow_add_r by (unfold SpecFloat.emin, prec, emax; lia).
      f_equal; lia. }
    rewrite E1 in Hbound.
    assert (H2e : 0 < 2 ^ e) by (apply Z.pow_pos_nonneg; lia).
    change (2 ^ (53 - 1)) with (2 ^ 52) in Hlo.
    nia. }
  apply Z.leb_gt in Ee. cbn [cond_Zopp].
  assert (Hp2 : 0 < 2 ^ (- e)) by (apply Z.pow_pos_nonneg; lia).
  assert (E1 : 2 ^ (- emin) = 2 ^ (- e) * 2 ^ (e - emin)).
  { rewrite <- Z.pow_add_r by (unfold SpecFloat.emin, prec, emax in *; lia).
    f_equal; lia. }
  rewrite E1 in Hle, Hbound.
  assert (Hm1 : 2 ^ (- e) <= Zpos m) by nia.
  assert (Hm2 : Zpos m < B * 2 ^ (- e)) by nia.
  set (z := Zpos m / 2 ^ (- e)).
  assert (Hz1 : 1 <= z).
  { apply Z.div_le_lower_bound; [assumption | lia]. }
  assert (Hz2 : z < B).
  { apply Z.div_lt_upper_bound; [assumption | lia]. }
  assert (Hz3 : z * 2 ^ (- e) <= Zpos m).
  { unfold z. rewrite Z.mul_comm. apply Z.mul_div_le. assumption. }
  assert (Hz4 : Zpos m < (z + 1) * 2 ^ (- e)).
  { unfold z. rewrite Z.mul_comm.
    replace (Zpos m / 2 ^ (- e) + 1) with (Z.succ (Zpos m / 2 ^ (- e))) by lia.
    apply Z.mul_succ_div_gt. assumption. }
  exists z. split; [lia |]. split; [reflexivity |].
  destruct (K z ltac:(lia)) as [N1 K1].
  destruct (K (z + 1) ltac:(lia)) as [N2 K2].
  split.
  - rewrite (leb_key _ x N1 Hn), K1, E. cbn [SFkey cond_Zopp].
    apply Z.leb_le. rewrite E1. nia.
  - rewrite (ltb_key x _ Hn N2), K2, E. cbn [SFkey cond_Zopp].
    apply Z.ltb_lt. rewrite E1. nia.
Qed.

End FloorFacts.

Import FloorFacts.

Lemma allParts_nonempty (remaining : number) :
  ge remaining 1 = true -> allParts TIME_UNITS remaining <> [].
Proof.
  intros H. unfold TIME_UNITS. cbn [allParts TimeUnit.seconds].
  repeat match goal with
  | |- context [if ge remaining ?u then _ else _] =>
      destruct (ge remaining u); [discriminate |]
  end.
  discriminate H.
Qed.

(** X22: for a finite duration that is at least 1 and not beyond the
    threshold of 1e15 years, the loop of formatTimeHuman produces at least
    one part and at most three, and the result is these parts joined: the
    fallback to Instant after the loop is never taken. *)
Theorem formatTimeHuman_parts (seconds : number) :
  isFinite seconds = true -> lt seconds 1 = false ->
  gt seconds absurdlyLarge = false ->
  exists part parts,
    decompose TIME_UNITS (Math_floor seconds) [] = part :: parts
    /\ (length parts <= 2)%nat
    /\ formatTimeHuman seconds = join ", " (part :: parts).
Proof.
  intros Hf Hlt Hbig.
  pose proof (allParts_nonempty _ (Math_floor_ge_1 seconds Hf Hlt)) as Hne.
  unfold formatTimeHuman. fold absurdlyLarge. rewrite Hf, Hlt, Hbig.
  cbn [negb].
  rewrite decompose_take by (cbn; lia). cbn [app].
  destruct (allParts TIME_UNITS (Math_floor seconds)) as [| part rest];
    [congruence |].
  exists part, (take 2 rest). split; [reflexivity |].
  split; [rewrite length_take; lia | reflexivity].
Qed.

Lemma formatTimeHuman_parts_witness :
  exists part parts,
    decompose TIME_UNITS (Math_floor 3665.5) [] = part :: parts
    /\ (length parts <= 2)%nat
    /\ formatTimeHuman 3665.5 = join ", " (part :: parts).
Proof.
  apply (formatTimeHuman_parts 3665.5%float); reflexivity.
Defined.

(** ** Whole numbers below 1000, formatted and read back *)

Module WholeNumbers.

Lemma whole_ok_all :
  forallb (fun k => whole_ok (Z.of_nat k - 999)) (seq 0 1999) = true.
Proof. vm_compute. reflexivity. Qed.

Lemma whole_ok_spec (n : Z) : -1000 < n < 1000 -> whole_ok n = true.
Proof.
  intros Hn. pose proof whole_ok_all as H.
  rewrite forallb_forall in H.
  specialize (H (Z.to_nat (n + 999)) ltac:(apply in_seq; lia)).
  now replace (Z.of_nat (Z.to_nat (n + 999)) - 999) with n in H by lia.
Qed.

Lemma lower_digit (c : ascii) : is_digit (lower c) = is_digit c.
Proof.
  destruct c as [[] [] [] [] [] [] [] []]; reflexivity.
Qed.

(** A text that ends with a digit does not end with a suffix that does
    not. *)
Lemma endsWith_digit (t s : string) :
  endsWithDigit t = true -> endsWithDigit s = false -> truthy s = true ->
  endsWith (toLowerCase t) (toLowerCase s) = false.
Proof.
  unfold endsWithDigit, endsWith, toLowerCase.
  rewrite !chars_str, <- !map_rev. intros Ht Hs Hne.
  destruct (rev (chars s)) as [| c r] eqn:Es.
  - exfalso. assert (E : chars s = []).
    { rewrite <- (rev_involutive (chars s)), Es. reflexivity. }
    rewrite <- (str_chars s), E in Hne. discriminate Hne.
  - destruct (rev (chars t)) as [| d r']; [discriminate Ht |].
    cbn [map is_prefix].
    destruct (Ascii.eqb_spec (lower c) (lower d)) as [E | _]; [| reflexivity].
    exfalso. rewrite <- (lower_digit c), E, lower_digit, Ht in Hs.
    discriminate Hs.
Qed.

End WholeNumbers.

Import WholeNumbers.

(** X23: whole numbers below 1000 are formatted and read back exactly:
    for every integer n with -1000 < n < 1000 and every table none of whose
    suffixes ends with a digit, formatScaled prints n as toString does, and
    parseScaled reads that text back as n, with no warning. *)
Theorem format_parse_whole (n : Z) (scales : Scales) (su : ScaleUtils) :
  buildScaleUtils scales = Return su ->
  -1000 < n < 1000 ->
  Forall (fun e => endsWithDigit (fst e) = false) scales ->
  let x := of_Z n in
  formatScaled x su = toString x
  /\ parseScaled (formatScaled x su) su
     = Return {| value := x; warning := None |}.
Proof.
  intros Hsu. apply buildScaleUtils_built in Hsu. subst su.
  set (su := builtUtils scales).
  intros Hn Hscales x.
  pose proof (whole_ok_spec n Hn) as Hok. unfold whole_ok in Hok.
  fold x in Hok.
  repeat (apply andb_prop in Hok as [Hok ?]).
  match goal with H : PrimFloat.Leibniz.eqb _ _ = true |- _ =>
    apply leibniz_eq in H; rename H into Hread end.
  match goal with H : endsWithDigit _ = true |- _ => rename H into Hdigit end.
  match goal with H : negb (includes _ "E") = true |- _ =>
    apply negb_true_iff in H; rename H into HE end.
  match goal with H : negb (includes _ "e") = true |- _ =>
    apply negb_true_iff in H; rename H into He end.
  match goal with H : truthy _ = true |- _ => rename H into Htruthy end.
  match goal with H : String.eqb _ _ = true |- _ =>
    apply String.eqb_eq in H; rename H into Htrim end.
  match goal with H : lt _ 1000 = true |- _ => rename H into Hsmall end.
  rename Hok into Hfin.
  assert (Hf : formatScaled x su = toString x).
  { unfold formatScaled. rewrite Hfin, Hsmall. cbn [negb orb].
    now destruct (strict_eq x 0). }
  split; [exact Hf |]. rewrite Hf.
  unfold parseScaled. rewrite Htrim, Htruthy, He, HE. cbn [negb orb].
  rewrite matchSuffix_none.
  - cbv beta iota zeta. cbn [String.eqb].
    rewrite not_finite, Hread, Hfin. reflexivity.
  - unfold su. rewrite builtUtils_entries.
    constructor; [reflexivity |].
    apply List.Forall_forall. intros [s m] Hin. cbn [fst].
    apply (Permutation_in _ (sortedEntries_perm scales)) in Hin.
    apply filter_In in Hin as [Hin Hne]. cbn [fst] in Hne.
    rewrite List.Forall_forall in Hscales.
    pose proof (Hscales _ Hin) as Hs. cbn [fst] in Hs.
    unfold accepts. rewrite endsWith_digit; try assumption.
    + now rewrite andb_false_r.
    + now rewrite truthy_eqb.
Qed.

Lemma format_parse_whole_witness :
  let su := TestData.su in
  let x := of_Z 250 in
  buildScaleUtils testScales = Return su
  /\ formatScaled x su = toString x
  /\ parseScaled (formatScaled x su) su
     = Return {| value := x; warning := None |}.
Proof.
  split; [vm_compute; reflexivity |].
  apply (format_parse_whole 250 testScales TestData.su).
  - vm_compute; reflexivity.
  - lia.
  - repeat constructor.
Defined.

(** ** Durations below an hour *)

Module UnderHour.

Lemma duration_ok_all : forallb duration_ok (range 1 3599) = true.
Proof. vm_compute. reflexivity. Qed.

Lemma duration_ok_spec (z : Z) : 1 <= z < 3600 -> duration_ok z = true.
Proof.
  intros Hz. pose proof duration_ok_all as H.
  rewrite forallb_forall in H. apply H. apply FixedNotation.in_range. lia.
Qed.

(** The floor of a number from 1 to below 3600 is a whole number of that
    range, at most the number and more than the number less one. *)
Lemma floor_whole (x : number) :
  isFinite x = true -> lt x 1 = false -> lt x 3600 = true ->
  exists z,
    1 <= z < 3600 /\ Math_floor x = of_Z z
    /\ le (of_Z z) x = true /\ lt x (of_Z (z + 1)) = true.
Proof.
  intros Hf Hlt Hhour.
  apply (floor_whole_below 3600); try assumption.
  split; [lia | now apply Z.lt_le_incl].
Qed.

End UnderHour.

Import UnderHour.

(** X24: for a finite duration from 1 second to below 3600, formatTimeHuman
    returns the text of the whole seconds z of the duration (z is at most
    the duration, and z + 1 is more): the minutes, if any, and the seconds,
    if any, joined by a comma and a space, each as the count, a space and
    the unit, in the plural unless the count is 1. *)
Theorem formatTimeHuman_under_hour (seconds : number) :
  isFinite seconds = true -> lt seconds 1 = false -> lt seconds 3600 = true ->
  exists z,
    1 <= z < 3600
    /\ le (of_Z z) seconds = true /\ lt seconds (of_Z (z + 1)) = true
    /\ formatTimeHuman seconds = minutesSeconds z.
Proof.
  intros Hf Hlt Hhour.
  destruct (floor_whole seconds Hf Hlt Hhour) as (z & Hz & Hfloor & H1 & H2).
  exists z. repeat (split; [assumption |]).
  pose proof (duration_ok_spec z Hz) as Hok. unfold duration_ok in Hok.
  apply andb_prop in Hok as [Htext Hparts].
  apply String.eqb_eq in Htext. apply negb_true_iff in Hparts.
  assert (Hbig : gt seconds (1e15 * 365.25 * 24 * 60 * 60)%float = false).
  { pose proof (is_finite_not_nan seconds Hf) as Hn.
    unfold gt, lt, isNaN in *.
    rewrite (ltb_key (1e15 * 365.25 * 24 * 60 * 60)%float seconds eq_refl Hn).
    rewrite (ltb_key seconds 3600 Hn eq_refl) in Hhour.
    apply Z.ltb_lt in Hhour. apply Z.ltb_ge.
    assert (Hc : SFkey (Prim2SF 3600)
                 <= SFkey (Prim2SF (1e15 * 365.25 * 24 * 60 * 60)%float))
      by (apply Z.leb_le; vm_compute; reflexivity).
    lia. }
  unfold formatTimeHuman. rewrite Hf, Hlt, Hbig, Hfloor, Hparts.
  exact Htext.
Qed.

Lemma formatTimeHuman_under_hour_witness :
  exists z,
    1 <= z < 3600
    /\ le (of_Z z) 125.5 = true /\ lt 125.5 (of_Z (z + 1)) = true
    /\ formatTimeHuman 125.5 = minutesSeconds z.
Proof.
  apply (formatTimeHuman_under_hour 125.5%float); reflexivity.
Defined.

Example formatTimeHuman_under_hour_example :
  minutesSeconds 125 = "2 minutes, 5 seconds"
  /\ minutesSeconds 60 = "1 minute"
  /\ minutesSeconds 1 = "1 second".
Proof. vm_compute. repeat split. Qed.

(** ** The two sort orders *)

Module Reverse.

Section Unique.
Context {A : Type}.
Variable key : A -> Z.

(** A list has one arrangement in strictly decreasing order of keys. *)
Lemma sorted_unique (l1 l2 : list A) :
  Permutation l1 l2 ->
  StronglySorted (fun a b => key b < key a) l1 ->
  StronglySorted (fun a b => key b < key a) l2 ->
  l1 = l2.
Proof.
  revert l2. induction l1 as [| a t1 IH]; intros l2 HP H1 H2.
  - apply Permutation_nil in HP. now subst.
  - destruct l2 as [| b t2]; [symmetry in HP; now apply Permutation_nil in HP |].
    apply StronglySorted_inv in H1 as [H1 Ha].
    apply StronglySorted_inv in H2 as [H2 Hb].
    rewrite List.Forall_forall in Ha, Hb.
    assert (Hab : key a = key b).
    { assert (Ia : In a (b :: t2)) by (apply (Permutation_in a HP); now left).
      assert (Ib : In b (a :: t1))
        by (apply (Permutation_in b (Permutation_sym HP)); now left).
      destruct Ia as [-> | Ia]; [reflexivity |].
      destruct Ib as [-> | Ib]; [reflexivity |].
      pose proof (Hb a Ia). pose proof (Ha b Ib). lia. }
    assert (E : a = b).
    { assert (Ia : In a (b :: t2)) by (apply (Permutation_in a HP); now left).
      destruct Ia as [-> | Ia]; [reflexivity |].
      pose proof (Hb a Ia). lia. }
    subst b. f_equal. apply IH; [| assumption | assumption].
    now apply Permutation_cons_inv in HP.
Qed.

Lemma sorted_snoc (R : A -> A -> Prop) (l : list A) (a : A) :
  StronglySorted R l -> Forall (fun x => R x a) l ->
  StronglySorted R (l ++ [a]).
Proof.
  induction 1 as [| x l Hs IH Hx]; intros Ha; cbn [app].
  - repeat constructor.
  - apply List.Forall_cons_iff in Ha as [Hxa Ha].
    constructor; [now apply IH |].
    apply Forall_app_2; [assumption | now constructor].
Qed.

Lemma sorted_rev (R : A -> A -> Prop) (l : list A) :
  StronglySorted R l -> StronglySorted (fun a b => R b a) (rev l).
Proof.
  induction 1 as [| x l Hs IH Hx]; cbn [rev]; [constructor |].
  apply sorted_snoc; [assumption |].
  apply List.Forall_forall. intros y Hy. apply in_rev in Hy.
  rewrite List.Forall_forall in Hx. now apply Hx.
Qed.

End Unique.

Lemma ForallOrdPairs_perm {A : Type} (R : A -> A -> Prop) (l l' : list A) :
  (forall a b, R a b -> R b a) ->
  Permutation l l' -> ForallOrdPairs R l -> ForallOrdPairs R l'.
Proof.
  intros Hsym HP. induction HP as [| x l l' HP IH | x y l | l l' l'' _ IH1 _ IH2];
    intros H.
  - constructor.
  - inversion H as [| ? ? Hx H']; subst. constructor; [| now apply IH].
    rewrite List.Forall_forall in *. intros z Hz. apply Hx.
    now apply (Permutation_in z (Permutation_sym HP)).
  - inversion H as [| ? ? Hy H']; subst.
    inversion H' as [| ? ? Hx H'']; subst.
    apply List.Forall_cons_iff in Hy as [Hyx Hy].
    constructor.
    + apply List.Forall_cons; [apply Hsym; exact Hyx | exact Hx].
    + constructor; assumption.
  - auto.
Qed.

End Reverse.

Lemma eqb_key (a b : float) :
  is_nan a = false -> is_nan b = false ->
  (a =? b)%float = (SFkey (Prim2SF a) =? SFkey (Prim2SF b)).
Proof.
  intros Ha Hb. rewrite FloatAxioms.eqb_spec. unfold SFeqb.
  rewrite SFcompare_key by auto using Prim2SF_valid, not_nan_SF.
  destruct (Z.compare_spec (SFkey (Prim2SF a)) (SFkey (Prim2SF b)));
    symmetry; [now apply Z.eqb_eq | apply Z.eqb_neq; lia ..].
Qed.

Lemma sort_by_time_strict (order : SortOrder) (l : list ProcessedRune.t) :
  Forall (fun r => isNaN (timeOrInfinity r) = false) l ->
  ForallOrdPairs (fun a b => sameTime (timeOrInfinity a) b = false) l ->
  StronglySorted
    (fun a b => match order with
                | asc => timeKey a < timeKey b
                | desc => timeKey b < timeKey a
                end)
    (JSArray.sort (compareTime order) l).
Proof.
  intros Hgood Hdistinct.
  pose proof (sort_by_time_sorted order l Hgood) as Hs.
  pose proof (SortFacts.sort_perm (compareTime order) l) as HP.
  pose proof (SortFacts.sort_good (compareTime order)
                (fun r => isNaN (timeOrInfinity r) = false) l Hgood) as Hg.
  assert (Hd : ForallOrdPairs (fun a b => sameTime (timeOrInfinity a) b = false)
                 (JSArray.sort (compareTime order) l)).
  { apply (Reverse.ForallOrdPairs_perm _ l); [| now symmetry | assumption].
    intros a b. unfold sameTime, strict_eq.
    rewrite !FloatAxioms.eqb_spec. unfold SFeqb.
    rewrite (SFcompare_antisym (Prim2SF (timeOrInfinity a))).
    now destruct (SFcompare _ _) as [[] |]. }
  clear HP Hdistinct Hgood.
  induction Hs as [| x s Hs IH Hx]; [constructor |].
  inversion Hd as [| ? ? Hne Hd']; subst.
  apply List.Forall_cons_iff in Hg as [Gx Gs].
  constructor; [now apply IH |].
  rewrite List.Forall_forall in *. intros y Hy.
  pose proof (Hx y Hy) as Hle. pose proof (Hne y Hy) as Hn.
  pose proof (Gs y Hy) as Gy.
  unfold sameTime, strict_eq, isNaN in *.
  rewrite (eqb_key _ _ Gy Gx) in Hn. apply Z.eqb_neq in Hn.
  unfold inOrder, le, ge, timeKey in *.
  destruct order; rewrite leb_key in Hle by assumption;
    apply Z.leb_le in Hle; lia.
Qed.

(** X25: for rate and luck that are not NaN and finite chances, when no
    two entries of the filtered list have equal times, the result of
    processRunes in descending order is the reverse of the result in
    ascending order. *)
Theorem processRunes_desc_reverse (runes : list RuneRecord.t)
    (rps luck : number) (text : option string) (hide : option bool) :
  isNaN rps = false -> isNaN luck = false ->
  Forall (fun rune => isFinite (chanceN rune) = true) runes ->
  ForallOrdPairs (fun a b => sameTime (timeOrInfinity a) b = false)
    (processRunes runes rps luck (ProcessOptions.mk text hide None)) ->
  processRunes runes rps luck (ProcessOptions.mk text hide (Some desc))
  = rev (processRunes runes rps luck (ProcessOptions.mk text hide (Some asc))).
Proof.
  intros Hr Hl Hn Hdistinct.
  pose proof (filterRunes_not_nan runes rps luck
                (ProcessOptions.mk text hide None) Hr Hl Hn) as Hgood.
  unfold processRunes in *. cbn [ProcessOptions.sort] in *.
  change (filterRunes runes rps luck (ProcessOptions.mk text hide (Some desc)))
    with (filterRunes runes rps luck (ProcessOptions.mk text hide None)).
  change (filterRunes runes rps luck (ProcessOptions.mk text hide (Some asc)))
    with (filterRunes runes rps luck (ProcessOptions.mk text hide None)).
  set (filtered := filterRunes runes rps luck (ProcessOptions.mk text hide None))
    in *.
  apply (Reverse.sorted_unique timeKey).
  - etransitivity; [apply SortFacts.sort_perm |].
    etransitivity; [| apply Permutation_rev].
    symmetry. apply SortFacts.sort_perm.
  - exact (sort_by_time_strict desc filtered Hgood Hdistinct).
  - apply (Reverse.sorted_rev (fun a b => timeKey a < timeKey b)).
    exact (sort_by_time_strict asc filtered Hgood Hdistinct).
Qed.

Lemma processRunes_desc_reverse_witness :
  processRunes testRunes 1 1 (ProcessOptions.mk None None (Some desc))
  = rev (processRunes testRunes 1 1 (ProcessOptions.mk None None (Some asc))).
Proof.
  apply (processRunes_desc_reverse testRunes 1 1 None None).
  - reflexivity.
  - reflexivity.
  - repeat constructor.
  - repeat constructor.
Defined.

(** With two runes of one time, the descending order is not the reverse of
    the ascending one: both keep the two in their order in the list. *)
Example processRunes_desc_ties :
  let quickRune :=
    RuneRecord.mk "quick" "Quick Rune" Starter None false "As fast"
      (RuneChance.mk oneInN 10%float "1/10") [] in
  TestData.ids
    (processRunes [fastRune; quickRune; slowRune] 1 1
       (ProcessOptions.mk None None (Some asc)))
  = ["fast"; "quick"; "slow"]
  /\ TestData.ids
       (processRunes [fastRune; quickRune; slowRune] 1 1
          (ProcessOptions.mk None None (Some desc)))
     = ["slow"; "fast"; "quick"].
Proof. vm_compute. split; reflexivity. Qed.

(** * The exact decomposition of a duration *)

Module ExactDivision.













Lemma counts_decimal_all :
  forallb (fun k => String.eqb (toString (of_Z k)) (str (decimal k)))
    (range 0 1000) = true.
Proof. vm_compute. reflexivity. Qed.

(** Counts below 1000 are printed in decimal. *)
Lemma counts_decimal (k : Z) :
  0 <= k < 1000 -> toString (of_Z k) = str (decimal k).
Proof.
  intros Hk. pose proof counts_decimal_all as H.
  rewrite forallb_forall in H. apply String.eqb_eq, H.
  apply FixedNotation.in_range. lia.
Qed.

End ExactDivision.

Import ExactDivision.


